(** * ARGB: an RGB LED matrix driver with alpha blending

    A shallow embedding of the drawing and timekeeping code of the ARGB
    graphics library (argb.h, argb.cpp), and the properties of it that the
    specification states.  Further sections cover the serial link to the
    panel, the row select lines and the scrolling text of the basic demo
    (examples/basicdemo/text.cpp), with properties read off the code.

    Machine integers are modelled as [Z] with the wrap-around of each C
    type written out: [byte] is an unsigned 8-bit value, [char] a signed
    8-bit value, [unsigned int] has 16 bits and [unsigned long] 32 bits on
    the AVR target.  [POINT] is the target's [int]; coordinates are kept in
    [Z].  A framebuffer is the list of its bytes, read and written at byte
    offsets as the code does with its pointers. *)

From Stdlib Require Import ZArith List Lia Bool.
From stdpp Require Import base list.

Local Open Scope Z_scope.

(** ** Configuration (argb.h) *)

Definition ARGB_PANELS : Z := 1.
Definition ARGB_FRAMERATE : Z := 125.
Definition ARGB_MAX_X : Z := 8 * ARGB_PANELS.
Definition ARGB_MAX_Y : Z := 8.

(** Number of bytes of [framebuffer_1] and [framebuffer_2]. *)
Definition FB_BYTES : Z := ARGB_MAX_X * ARGB_MAX_Y * 3.

(** ** Machine integers *)

Definition to_byte (z : Z) : Z := z mod 256.
Definition to_char (z : Z) : Z := (z + 128) mod 256 - 128.
Definition to_uint (z : Z) : Z := z mod 65536.
Definition to_ulong (z : Z) : Z := z mod 4294967296.

Definition is_byte (z : Z) : Prop := 0 <= z < 256.

(** ** Packed colors

    [MakeARGB] stores b, g, r, a at increasing addresses of a little-endian
    32-bit value; [color_byte c k] is the byte at address offset [k]. *)

Abbreviation ARGB := Z (only parsing).

Definition color_byte (c : ARGB) (k : Z) : Z := Z.shiftr c (8 * k) mod 256.

Definition MakeARGB (a r g b : Z) : ARGB :=
  Z.lor (Z.lor (Z.lor b (Z.shiftl g 8)) (Z.shiftl r 16)) (Z.shiftl a 24).

Definition SetAlpha (color : ARGB) (alpha : Z) : ARGB :=
  Z.lor (color mod 16777216) (Z.shiftl alpha 24).

Definition blue (c : ARGB) : Z := color_byte c 0.
Definition green (c : ARGB) : Z := color_byte c 1.
Definition red (c : ARGB) : Z := color_byte c 2.
Definition alpha (c : ARGB) : Z := color_byte c 3.

(** ** Framebuffer store

    A buffer is the list of its bytes.  [peek] and [poke] are a read and a
    write through a byte pointer, given as an offset from the start of the
    buffer.  An access outside the array is undefined in the source; here a
    read yields 0 and a write is dropped, and no statement below relies on
    either. *)

Abbreviation framebuffer := (list Z) (only parsing).

Definition peek (fb : framebuffer) (p : Z) : Z :=
  if 0 <=? p then default 0 (fb !! Z.to_nat p) else 0.

Definition poke (fb : framebuffer) (p : Z) (v : Z) : framebuffer :=
  if 0 <=? p then <[Z.to_nat p := v]> fb else fb.

Definition wf_fb (fb : framebuffer) : Prop :=
  Z.of_nat (length fb) = FB_BYTES /\ Forall is_byte fb.

(** A pixel is three bytes R, G, B at increasing addresses.  Pixels are
    stored row by row and, within a row, from the right-hand column to the
    left-hand one: column [x] of row [y] is pixel number
    [(ARGB_MAX_X - 1 - x) + y * ARGB_MAX_X]. *)

Record Pixel := mkPixel { pix_r : Z; pix_g : Z; pix_b : Z }.

Definition pixel_offset (x y : Z) : Z :=
  3 * ((ARGB_MAX_X - 1 - x) + (y * ARGB_MAX_X)).

Definition pixel_at (fb : framebuffer) (x y : Z) : Pixel :=
  let p := pixel_offset x y in
  mkPixel (peek fb p) (peek fb (p + 1)) (peek fb (p + 2)).

Definition in_range (x y : Z) : Prop :=
  (0 <= x < ARGB_MAX_X) /\ (0 <= y < ARGB_MAX_Y).

Definition in_rangeb (x y : Z) : bool :=
  (0 <=? x) && (x <? ARGB_MAX_X) && (0 <=? y) && (y <? ARGB_MAX_Y).

(** [POINT] is the target's 16-bit [int]: the values a coordinate, and the
    sums the code forms from coordinates, can take without overflow. *)
Definition is_point (z : Z) : Prop := -32768 <= z <= 32767.

(** ** Pixel compositor *)

(** [RGBDisplay::SetPixel]: no range check; blends unless [~a] is zero. *)
Definition SetPixel (fb : framebuffer) (x y : Z) (color : ARGB) : framebuffer :=
  let pb := 2 + 3 * ((ARGB_MAX_X - 1 - x) + (y * ARGB_MAX_X)) in
  let c_b := color_byte color 0 in
  let c_g := color_byte color 1 in
  let c_r := color_byte color 2 in
  let a := color_byte color 3 in
  let a1 := to_byte (Z.lnot a) in
  if negb (a1 =? 0) then
    let fb := poke fb pb
      (to_byte (Z.shiftr (to_uint (to_uint (a1 * peek fb pb) + to_uint (a * c_b))) 8)) in
    let pb := pb - 1 in
    let fb := poke fb pb
      (to_byte (Z.shiftr (to_uint (to_uint (a1 * peek fb pb) + to_uint (a * c_g))) 8)) in
    let pb := pb - 1 in
    poke fb pb
      (to_byte (Z.shiftr (to_uint (to_uint (a1 * peek fb pb) + to_uint (a * c_r))) 8))
  else
    let fb := poke fb pb c_b in
    let pb := pb - 1 in
    let fb := poke fb pb c_g in
    let pb := pb - 1 in
    poke fb pb c_r.

(** The blending rule of the specification: [a] weighs the new channel
    [fg], [255 - a] the stored channel [bg]. *)
Definition blend (a bg fg : Z) : Z := ((255 - a) * bg + a * fg) / 256.


(** [RGBDisplay::Clear]: [memset] of the whole buffer. *)
Definition Clear (fb : framebuffer) : framebuffer :=
  replicate (Z.to_nat FB_BYTES) 0 ++ drop (Z.to_nat FB_BYTES) fb.

(** [RGBDisplay::ScrollLeft].  [scroll_copy] is the first inner loop (three
    byte copies per pixel, the pointer walking down), [scroll_zero] the
    second, [scroll_lines] the loop over the lines.  The counters are bytes
    counted down to zero. *)
Fixpoint scroll_copy (cnt : nat) (steps : Z) (fb : framebuffer) (pto : Z)
  : framebuffer * Z :=
  match cnt with
  | O => (fb, pto)
  | S cnt' =>
      let fb := poke fb pto (peek fb (pto - 3 * steps)) in
      let pto := pto - 1 in
      let fb := poke fb pto (peek fb (pto - 3 * steps)) in
      let pto := pto - 1 in
      let fb := poke fb pto (peek fb (pto - 3 * steps)) in
      let pto := pto - 1 in
      scroll_copy cnt' steps fb pto
  end.

Fixpoint scroll_zero (cnt : nat) (fb : framebuffer) (pto : Z) : framebuffer * Z :=
  match cnt with
  | O => (fb, pto)
  | S cnt' =>
      let fb := poke fb pto 0 in
      let pto := pto - 1 in
      let fb := poke fb pto 0 in
      let pto := pto - 1 in
      let fb := poke fb pto 0 in
      let pto := pto - 1 in
      scroll_zero cnt' fb pto
  end.

Fixpoint scroll_lines (line : nat) (steps : Z) (fb : framebuffer) (pto : Z)
  : framebuffer :=
  match line with
  | O => fb
  | S line' =>
      let cnt := to_byte (ARGB_MAX_X - steps) in
      let '(fb, pto) := scroll_copy (Z.to_nat cnt) steps fb pto in
      let cnt := steps in
      let '(fb, pto) := scroll_zero (Z.to_nat cnt) fb pto in
      let pto := pto + ARGB_MAX_X * 2 * 3 in
      scroll_lines line' steps fb pto
  end.

Definition ScrollLeft (fb : framebuffer) (steps : Z) : framebuffer :=
  let steps := to_byte steps in
  let pto := 3 * (ARGB_MAX_X - 1) + 2 in
  let line := to_byte ARGB_MAX_Y in
  scroll_lines (Z.to_nat line) steps fb pto.

(** [RGBDisplay::Fade].  One statement of the unrolled body is
    [fade_byte]; the body is twelve of them. *)
Definition fade_channel (alpha b : Z) : Z :=
  to_byte (Z.shiftr (to_uint (alpha * b)) 8).

Definition fade_byte (alpha : Z) (st : framebuffer * Z) : framebuffer * Z :=
  let '(fb, pb) := st in
  (poke fb pb (fade_channel alpha (peek fb pb)), pb + 1).

Fixpoint fade_loop (cnt : nat) (alpha : Z) (st : framebuffer * Z) : framebuffer * Z :=
  match cnt with
  | O => st
  | S cnt' => fade_loop cnt' alpha (Nat.iter 12 (fade_byte alpha) st)
  end.

Definition Fade (fb : framebuffer) (alpha : Z) : framebuffer :=
  let alpha := to_byte alpha in
  let pb := 0 in
  let cnt := to_byte (ARGB_MAX_X * ARGB_MAX_Y / 4) in
  fst (fade_loop (Z.to_nat cnt) alpha (fb, pb)).

(** The call [Fade(255)], for iterating it. *)
Definition Fade255 (fb : framebuffer) : framebuffer := Fade fb 255.

(** [RGBDisplay::Fill].  The locals keep the names they have in the source:
    [r] is [color >> 8] and [g] is [color >> 16]. *)
Definition fill_pixel (r g b : Z) (st : framebuffer * Z) : framebuffer * Z :=
  let '(fb, p) := st in
  let fb := poke fb p r in
  let p := p + 1 in
  let fb := poke fb p g in
  let p := p + 1 in
  let fb := poke fb p b in
  let p := p + 1 in
  (fb, p).

Fixpoint fill_loop (cnt : nat) (r g b : Z) (st : framebuffer * Z) : framebuffer * Z :=
  match cnt with
  | O => st
  | S cnt' => fill_loop cnt' r g b (Nat.iter 4 (fill_pixel r g b) st)
  end.

Definition Fill (fb : framebuffer) (color : ARGB) : framebuffer :=
  let b := to_byte color in
  let r := to_byte (Z.shiftr color 8) in
  let g := to_byte (Z.shiftr color 16) in
  let p := 0 in
  let cnt := to_byte (ARGB_MAX_X * ARGB_MAX_Y / 4) in
  fst (fill_loop (Z.to_nat cnt) r g b (fb, p)).

(** ** Shape rasterizer

    The shape operations never read the buffer: each one is a sequence of
    [SetPixel] calls.  A shape is embedded as the list of the calls it makes,
    in order; [render] performs them. *)

Record plot := mkPlot { plot_x : Z; plot_y : Z; plot_color : ARGB }.

Definition render (fb : framebuffer) (calls : list plot) : framebuffer :=
  fold_left (fun fb c => SetPixel fb (plot_x c) (plot_y c) (plot_color c)) calls fb.

Definition plot_in_range (c : plot) : Prop := in_range (plot_x c) (plot_y c).

(** [while (x < 0 && w) { x++; w--; }] with [w] a byte counted down. *)
Fixpoint skip_negative (w : nat) (x : Z) : Z * nat :=
  match w with
  | O => (x, O)
  | S w' => if x <? 0 then skip_negative w' (x + 1) else (x, w)
  end.

(** [while (w-- && (x < ARGB_MAX_X)) SetPixel(x++,y,color);] *)
Fixpoint hline_run (w : nat) (x y : Z) (color : ARGB) : list plot :=
  match w with
  | O => []
  | S w' =>
      if x <? ARGB_MAX_X then mkPlot x y color :: hline_run w' (x + 1) y color
      else []
  end.

Definition HLine (x y w : Z) (color : ARGB) : list plot :=
  let w := to_byte w in
  if (0 <=? y) && (y <? ARGB_MAX_Y) then
    let '(x, w) := skip_negative (Z.to_nat w) x in
    hline_run w x y color
  else [].

(** [while (w-- && (y < ARGB_MAX_Y)) SetPixel(x,y++,color);] *)
Fixpoint vline_run (w : nat) (x y : Z) (color : ARGB) : list plot :=
  match w with
  | O => []
  | S w' =>
      if y <? ARGB_MAX_Y then mkPlot x y color :: vline_run w' x (y + 1) color
      else []
  end.

Definition VLine (x y w : Z) (color : ARGB) : list plot :=
  let w := to_byte w in
  if (0 <=? x) && (x <? ARGB_MAX_X) then
    let '(y, w) := skip_negative (Z.to_nat w) y in
    vline_run w x y color
  else [].

Definition DrawRect (x1 y1 x2 y2 : Z) (color : ARGB) : list plot :=
  HLine x1 y1 (x2 - x1 + 1) color ++
  HLine x1 y2 (x2 - x1 + 1) color ++
  (if y1 <? y2 then
     VLine x1 (y1 + 1) (y2 - y1 - 1) color ++
     VLine x2 (y1 + 1) (y2 - y1 - 1) color
   else []).

(** The unrolled loop of [FillRect]:
    [while (tw >= 4 && tx < (ARGB_MAX_X-3))], four pixels a turn. *)
Fixpoint fill_quads (tw : nat) (tx y : Z) (color : ARGB) : list plot * Z * nat :=
  match tw with
  | S (S (S (S tw'))) =>
      if tx <? ARGB_MAX_X - 3 then
        let '(rest, tx', tw'') := fill_quads tw' (tx + 4) y color in
        (mkPlot tx y color :: mkPlot (tx + 1) y color ::
         mkPlot (tx + 2) y color :: mkPlot (tx + 3) y color :: rest, tx', tw'')
      else ([], tx, tw)
  | _ => ([], tx, tw)
  end.

Fixpoint fill_rows (h : nat) (x y : Z) (w : nat) (color : ARGB) : list plot :=
  match h with
  | O => []
  | S h' =>
      if y <? ARGB_MAX_Y then
        let '(quads, tx, tw) := fill_quads w x y color in
        quads ++ hline_run tw tx y color ++ fill_rows h' x (y + 1) w color
      else []
  end.

Definition FillRect (x y w h : Z) (color : ARGB) : list plot :=
  let w := to_byte w in
  let h := to_byte h in
  let '(x, w) := skip_negative (Z.to_nat w) x in
  let '(y, h) := skip_negative (Z.to_nat h) y in
  fill_rows h x y w color.

(** One turn of the midpoint circle loop on the [char] variables
    [x], [y], [err]: everything after the drawing calls. *)
Definition circle_step (x y err : Z) : Z * Z * Z :=
  let e2 := err in
  let '(y, err, e2) :=
    if e2 <=? y then
      let y := to_char (y + 1) in
      let err := to_char (err + (y * 2 + 1)) in
      let e2 := if (- x =? y) && (e2 <=? x) then 0 else e2 in
      (y, err, e2)
    else (y, err, e2) in
  if e2 >? x then
    let x := to_char (x + 1) in
    (x, y, to_char (err + (x * 2 + 1)))
  else (x, y, err).

(** [RGBDisplay::DrawCircle]; [fuel] bounds the number of turns of the
    [do ... while (x <= 0)] loop that are followed. *)
Fixpoint circle_loop (fuel : nat) (poX poY x y err : Z) (color : ARGB) : list plot :=
  match fuel with
  | O => []
  | S fuel' =>
      mkPlot (poX - x) (poY + y) color ::
      mkPlot (poX + x) (poY + y) color ::
      mkPlot (poX + x) (poY - y) color ::
      mkPlot (poX - x) (poY - y) color ::
      (let '(x, y, err) := circle_step x y err in
       if x <=? 0 then circle_loop fuel' poX poY x y err color else [])
  end.

Definition DrawCircle (fuel : nat) (poX poY r : Z) (color : ARGB) : list plot :=
  let r := to_byte r in
  circle_loop fuel poX poY (to_char (- r)) 0 (to_char (2 - 2 * r)) color.

(** [RGBDisplay::FillCircle]: the same loop, two [VLine] calls a turn. *)
Fixpoint fill_circle_loop (fuel : nat) (poX poY x y err : Z) (color : ARGB)
  : list plot :=
  match fuel with
  | O => []
  | S fuel' =>
      VLine (poX - x) (poY - y) (2 * y) color ++
      VLine (poX + x) (poY - y) (2 * y) color ++
      (let '(x, y, err) := circle_step x y err in
       if x <=? 0 then fill_circle_loop fuel' poX poY x y err color else [])
  end.

Definition FillCircle (fuel : nat) (poX poY r : Z) (color : ARGB) : list plot :=
  let r := to_byte r in
  fill_circle_loop fuel poX poY (to_char (- r)) 0 (to_char (2 - 2 * r)) color.

(** [RGBDisplay::DrawLine]; [dx], [dy], [sx], [sy], [err] and [e2] are
    [char]s, [fuel] bounds the number of turns of the [for (;;)] loop. *)
Fixpoint line_loop (fuel : nat) (x0 y0 x1 y1 dx dy sx sy err : Z) (color : ARGB)
  : list plot :=
  match fuel with
  | O => []
  | S fuel' =>
      (if (0 <=? x0) && (x0 <? ARGB_MAX_X) && (0 <=? y0) && (y0 <? ARGB_MAX_Y)
       then [mkPlot x0 y0 color] else []) ++
      (let e2 := to_char (2 * err) in
       if (e2 >=? dy) && (x0 =? x1) then []
       else
         let '(err, x0) :=
           if e2 >=? dy then (to_char (err + dy), x0 + sx) else (err, x0) in
         if (e2 <=? dx) && (y0 =? y1) then []
         else
           let '(err, y0) :=
             if e2 <=? dx then (to_char (err + dx), y0 + sy) else (err, y0) in
           line_loop fuel' x0 y0 x1 y1 dx dy sx sy err color)
  end.

Definition DrawLine (fuel : nat) (x0 y0 x1 y1 : Z) (color : ARGB) : list plot :=
  let dx := to_char (Z.abs (x1 - x0)) in
  let sx := if x0 <? x1 then 1 else -1 in
  let dy := to_char (- Z.abs (y1 - y0)) in
  let sy := if y0 <? y1 then 1 else -1 in
  let err := to_char (dx + dy) in
  line_loop fuel x0 y0 x1 y1 dx dy sx sy err color.

(** The small numbers, stored as vertical strips, lowest bit the top row. *)
Definition numberFont : list (list Z) :=
  [ [0x1F; 0x11; 0x1F];
    [0x00; 0x00; 0x1F];
    [0x1D; 0x15; 0x17];
    [0x15; 0x15; 0x1F];
    [0x07; 0x04; 0x1F];
    [0x17; 0x15; 0x1D];
    [0x1F; 0x15; 0x1D];
    [0x01; 0x01; 0x1F];
    [0x1F; 0x15; 0x1F];
    [0x17; 0x15; 0x1F];
    [0x0A; 0x00; 0x00];
    [0x1F; 0x04; 0x1F];
    [0x1F; 0x06; 0x1F] ].

(** [pgm_read_byte(&numberFont[digit][i])].  A digit past the table reads
    program memory that is not part of it; such a read is given as 0. *)
Definition numberFont_byte (digit i : Z) : Z :=
  default 0 (numberFont !! Z.to_nat digit ≫= fun strip => strip !! Z.to_nat i).

(** The rows of one strip: [for (byte y=0;y<8;y++)] of [DrawDigit]. *)
Definition digit_strip (cdata plot_x py : Z) (color : ARGB) : list plot :=
  flat_map
    (fun y =>
       let plot_y := py + y in
       if (0 <=? plot_y) && (plot_y <? ARGB_MAX_Y) then
         if negb (Z.land cdata (Z.shiftl 1 y) =? 0)
         then [mkPlot plot_x plot_y color] else []
       else [])
    [0; 1; 2; 3; 4; 5; 6; 7].

Definition DrawDigit (digit px py : Z) (color : ARGB) : list plot :=
  let digit := to_byte digit in
  flat_map
    (fun i =>
       let plot_x := px + i in
       if (0 <=? plot_x) && (plot_x <? ARGB_MAX_X) then
         let cdata := numberFont_byte digit i in
         digit_strip cdata plot_x py color
       else [])
    [0; 1; 2].

Definition BlendDigits (digit1 digit2 blend px py : Z) (color : ARGB) : list plot :=
  let digit1 := to_byte digit1 in
  let digit2 := to_byte digit2 in
  let blend := to_byte blend in
  let blend := if digit1 =? digit2 then 0 else blend in
  let shift := to_byte (blend / 32) in
  (if negb (digit1 =? 255) then DrawDigit digit1 px (py - shift) color else []) ++
  (if negb (blend =? 0) && negb (digit2 =? 255)
   then DrawDigit digit2 px (py - shift + 7) color else []).

(** [RGBDisplay::DrawChar].  The glyph table [simpleFont] lives in font.c,
    which is not part of the sources at hand: it is a parameter,
    [simpleFont g i] being the byte [simpleFont[g][i]]. *)

(** [if ((ascii < 0x20) || (ascii > 0x7e)) ascii = '-';] *)
Definition glyph_code (ascii : Z) : Z :=
  if (ascii <? 0x20) || (ascii >? 0x7e) then 0x2D else ascii.

Section Glyphs.

Variable simpleFont : Z -> Z -> Z.

(** The rows of one column: [for (byte f=0;f<8;f++)]; no test on [py+f]. *)
Definition char_column (col px py i : Z) (color : ARGB) : list plot :=
  flat_map
    (fun f =>
       if negb (Z.land col (Z.shiftl 1 f) =? 0)
       then [mkPlot (px + i) (py + f) color] else [])
    [0; 1; 2; 3; 4; 5; 6; 7].

(** The loop over the column indices [cols], carrying [width]. *)
Fixpoint char_columns (cols : list Z) (width : Z) (ascii px py : Z) (color : ARGB)
  : list plot * Z :=
  match cols with
  | [] => ([], width)
  | i :: cols' =>
      let col := simpleFont (ascii - 0x20) i in
      if negb (col =? 0) then
        let width := if width =? 0 then i else width in
        let plot_x := px + i in
        let here :=
          if (0 <=? plot_x) && (plot_x <? ARGB_MAX_X)
          then char_column col px py i color else [] in
        let '(rest, width) := char_columns cols' width ascii px py color in
        (here ++ rest, width)
      else char_columns cols' width ascii px py color
  end.

(** The pair of the [SetPixel] calls made and the byte returned. *)
Definition DrawChar (ascii px py : Z) (color : ARGB) : list plot * Z :=
  let ascii := to_byte ascii in
  let ascii := glyph_code ascii in
  let width := 0 in
  char_columns [7; 6; 5; 4; 3; 2; 1; 0] width ascii px py color.

End Glyphs.

(** The specification's reading of the value [DrawChar] returns: the index
    of the leftmost set column of a glyph, 0 when no column is set.  Column
    [i] is drawn at [px + i], so the leftmost column is the one of least
    index. *)
Fixpoint spec_leftmost_set_column (glyph : Z -> Z) (cols : list Z) : Z :=
  match cols with
  | [] => 0
  | i :: cols' =>
      if negb (glyph i =? 0) then i else spec_leftmost_set_column glyph cols'
  end.

(** A glyph table with one glyph everywhere, three columns wide:
    columns 0, 1 and 2 set, the others clear. *)
Definition bar_font (g i : Z) : Z := if i <? 3 then 0x7F else 0.

(** What rendering a glyph at ([px], [py]) means, in the words of the
    specification: of the eight columns of the glyph, taken from column 7
    down to column 0, those that fall on the display are drawn, column [i]
    at [px + i], with a pixel at row [py + f] for each bit [f] set in the
    column's byte. *)
Definition spec_glyph_pixels (glyph : Z -> Z) (px py : Z) (color : ARGB) : list plot :=
  flat_map
    (fun i =>
       if (0 <=? px + i) && (px + i <? ARGB_MAX_X)
       then map (fun f => mkPlot (px + i) (py + f) color)
                (List.filter (Z.testbit (glyph i)) [0; 1; 2; 3; 4; 5; 6; 7])
       else [])
    [7; 6; 5; 4; 3; 2; 1; 0].

(** A glyph table whose hyphen (entry [0x2D - 0x20]) is a dash, row 3 of
    columns 1 to 3, and whose other glyphs are full blocks. *)
Definition dash_font (g i : Z) : Z :=
  if g =? 0x2D - 0x20 then (if (1 <=? i) && (i <=? 3) then 0x08 else 0) else 0xFF.

(** One turn of the column loop as it acts on [width]. *)
Definition width_step (glyph : Z -> Z) (width i : Z) : Z :=
  if negb (glyph i =? 0) then (if width =? 0 then i else width) else width.

(** ** Color utilities *)

Definition BlendARGB (c1 c2 : ARGB) (ratio fade : Z) : ARGB :=
  let ratio := to_byte ratio in
  let fade := to_byte fade in
  let ratio1 := ratio in
  let ratio2 := to_byte (Z.lnot ratio1) in
  let '(ratio1, ratio2) :=
    if negb (fade =? 255) then
      (to_byte (Z.shiftr (to_uint (fade * ratio1)) 8),
       to_byte (Z.shiftr (to_uint (fade * ratio2)) 8))
    else (ratio1, ratio2) in
  let mix k :=
    to_byte (Z.shiftr (to_uint (to_uint (ratio2 * color_byte c1 k)
                                + to_uint (ratio1 * color_byte c2 k))) 8) in
  let b := mix 0 in
  let g := mix 1 in
  let r := mix 2 in
  let a :=
    to_byte (Z.shiftr (to_uint (to_uint (to_uint (Z.lnot ratio) * color_byte c1 3)
                                + to_uint (ratio * color_byte c2 3))) 8) in
  MakeARGB a r g b.

(** Colour primaries. *)
Definition BaseColors : list ARGB :=
  [ 0xFFFF0000; 0xFFFF2000; 0xFFFF8000; 0xFF808000;
    0xFF008000; 0xFF008080; 0xFF0080FF; 0xFF0020FF;
    0xFF0000FF; 0xFF8000FF; 0xFFFF00FF; 0xFFFF0080 ].

(** [pgm_read_dword(&BaseColors[i])]; [None] is a read outside the table. *)
Definition BaseColors_read (i : Z) : option ARGB :=
  if 0 <=? i then BaseColors !! Z.to_nat i else None.

Definition GetBaseColor (color1 : Z) : ARGB :=
  let color1 := to_byte color1 in
  default 0 (BaseColors_read (color1 mod 12)).

Definition BlendBaseColors (color1 color2 blend fade : Z) : ARGB :=
  let color1 := to_byte color1 in
  let color2 := to_byte color2 in
  BlendARGB (default 0 (BaseColors_read (color1 mod 12)))
            (default 0 (BaseColors_read (color2 mod 12)))
            blend fade.

(** ** Scan-line interrupt: the state it keeps

    The interrupt routine drives the panel and, in between, keeps the scan
    line, the transmit cursor, the frame flag, the clock and the analog
    samples.  The port writes and delays leave no trace in that state and
    are not modelled; the analog reading [ADCH] is an input of each call. *)

Record isr_state := mkIsr {
  line : Z;                  (* static byte line *)
  outbuf : Z;                (* offset of outbuf into framebuffer_1 *)
  ARGB_user_frame : Z;
  ARGB_clock_ms : Z;
  ARGB_clock_tod : Z;
  ARGB_adcdata : list Z;
  led : bool
}.

(** State at program start: the initialisers of the globals. *)
Definition isr_init : isr_state :=
  mkIsr 0 0 0 0 0 (replicate (Z.to_nat ARGB_MAX_Y) 0) false.

(** [ARGB_clock_tod++; if (ARGB_clock_tod >= 86400) ARGB_clock_tod = 0;] *)
Definition tod_tick (tod : Z) : Z :=
  let tod := to_ulong (tod + 1) in
  if tod >=? 86400 then 0 else tod.

Definition ISR (s : isr_state) (ADCH : Z) : isr_state :=
  let outbuf' := outbuf s + 24 * ARGB_PANELS in
  let adc := <[Z.to_nat (line s) := to_byte ADCH]> (ARGB_adcdata s) in
  let line' := to_byte (line s + 1) in
  if line' >=? ARGB_MAX_Y then
    let ms := to_uint (ARGB_clock_ms s + 1000 / ARGB_FRAMERATE) in
    if ms >=? 1000 then
      mkIsr 0 0 1 0 (tod_tick (ARGB_clock_tod s)) adc true
    else
      mkIsr 0 0 1 ms (ARGB_clock_tod s) adc
            (if ms >=? 20 then false else led s)
  else
    mkIsr line' outbuf' (ARGB_user_frame s) (ARGB_clock_ms s) (ARGB_clock_tod s)
          adc (led s).

(** The interrupt taken once per reading of [samples], in order. *)
Definition ISR_run (s : isr_state) (samples : list Z) : isr_state :=
  fold_left ISR samples s.

Definition ARGB_SetTime (s : isr_state) (new_tod : Z) : isr_state :=
  mkIsr (line s) (outbuf s) (ARGB_user_frame s) 0 (to_ulong new_tod)
        (ARGB_adcdata s) (led s).

(** The state the clock is in after [n] interrupts from program start. *)
Definition clock_inv (n : Z) (s : isr_state) : Prop :=
  line s = n mod 8 /\
  ARGB_clock_ms s = 8 * ((n / 8) mod 125) /\
  ARGB_clock_tod s = (n / 1000) mod 86400.

(** ** Vocabulary for what the shapes draw *)

(** The points of a call list. *)
Definition plot_points (calls : list plot) : list (Z * Z) :=
  map (fun c => (plot_x c, plot_y c)) calls.

(** The number of turns after which the [for (;;)] loop of [DrawLine]
    reaches a [break], if it does within [fuel] turns. *)
Fixpoint line_turns (fuel : nat) (x0 y0 x1 y1 dx dy sx sy err : Z) : option nat :=
  match fuel with
  | O => None
  | S fuel' =>
      let e2 := to_char (2 * err) in
      if (e2 >=? dy) && (x0 =? x1) then Some 1%nat
      else
        let '(err, x0) :=
          if e2 >=? dy then (to_char (err + dy), x0 + sx) else (err, x0) in
        if (e2 <=? dx) && (y0 =? y1) then Some 1%nat
        else
          let '(err, y0) :=
            if e2 <=? dx then (to_char (err + dx), y0 + sy) else (err, y0) in
          option_map S (line_turns fuel' x0 y0 x1 y1 dx dy sx sy err)
  end.

(** Consecutive points are distinct neighbours, diagonals included. *)
Fixpoint chain_of_neighbours (pts : list (Z * Z)) : bool :=
  match pts with
  | p :: (q :: _) as rest =>
      (Z.abs (fst q - fst p) <=? 1) && (Z.abs (snd q - snd p) <=? 1)
      && negb ((fst q =? fst p) && (snd q =? snd p))
      && chain_of_neighbours rest
  | _ => true
  end.

(** What a line between two points of the buffer has to be. *)
Definition line_joins (x0 y0 x1 y1 : Z) (pts : list (Z * Z)) : Prop :=
  Z.of_nat (length pts) = Z.max (Z.abs (x1 - x0)) (Z.abs (y1 - y0)) + 1 /\
  head pts = Some (x0, y0) /\ last pts = Some (x1, y1) /\
  chain_of_neighbours pts = true.

Definition line_check (x0 y0 x1 y1 : Z) : Prop :=
  line_turns 8 x0 y0 x1 y1 (to_char (Z.abs (x1 - x0))) (to_char (- Z.abs (y1 - y0)))
             (if x0 <? x1 then 1 else -1) (if y0 <? y1 then 1 else -1)
             (to_char (to_char (Z.abs (x1 - x0)) + to_char (- Z.abs (y1 - y0))))
    <> None /\
  line_joins x0 y0 x1 y1 (plot_points (DrawLine 8 x0 y0 x1 y1 0)).

#[local] Instance line_check_dec x0 y0 x1 y1 : Decision (line_check x0 y0 x1 y1).
Proof. unfold line_check, line_joins. apply _. Defined.

(** The [char] variables of the circle loop after [n] turns, each followed
    by another ([x <= 0] held at its end); [None] when the loop has ended
    by then. *)
Fixpoint circle_run (n : nat) (x y err : Z) : option (Z * Z * Z) :=
  match n with
  | O => Some (x, y, err)
  | S n' =>
      let '(x', y', err') := circle_step x y err in
      if x' <=? 0 then circle_run n' x' y' err' else None
  end.

(** The variables as [DrawCircle] and [FillCircle] initialise them. *)
Definition circle_start (r : Z) : Z * Z * Z :=
  let r := to_byte r in (to_char (- r), 0, to_char (2 - 2 * r)).

Definition circle_run_from (n : nat) (s : Z * Z * Z) : option (Z * Z * Z) :=
  let '(x, y, err) := s in circle_run n x y err.

(** Whether [ok x y] holds of the loop variables at the start of each of
    the first [fuel] turns of the circle loop. *)
Fixpoint circle_turns_ok (ok : Z -> Z -> bool) (fuel : nat) (x y err : Z) : bool :=
  match fuel with
  | O => true
  | S fuel' =>
      ok x y &&
      (let '(x', y', err') := circle_step x y err in
       if x' <=? 0 then circle_turns_ok ok fuel' x' y' err' else true)
  end.

(** A point at offset [(dx, dy)] from the centre is on the digital circle
    of radius [r]. *)
Definition on_circle (r dx dy : Z) : bool :=
  Z.abs (dx * dx + dy * dy - r * r) <=? r.

(** ** Invariant of the interrupt state *)

(** What holds of the interrupt's state between two interrupts: the scan
    line is a row, the transmit cursor is at the start of that row, the
    millisecond count is a whole number of frames short of a second and
    there is one analog sample per row. *)
Definition isr_ok (s : isr_state) : Prop :=
  0 <= line s < ARGB_MAX_Y /\
  outbuf s = 24 * ARGB_PANELS * line s /\
  0 <= ARGB_clock_ms s < 1000 /\
  ARGB_clock_ms s mod (1000 / ARGB_FRAMERATE) = 0 /\
  Z.of_nat (length (ARGB_adcdata s)) = ARGB_MAX_Y /\
  Forall is_byte (ARGB_adcdata s).

(** ** The serial link to the panel

    Data and clock are bits 1 and 0 of one output register, [PORTB].  The
    pixel chips take the data line at every toggle of the clock line, so
    the link is embedded as the register together with the record of the
    values it had just after each toggle, oldest first. *)

Definition BIT_Data : Z := 0x02.
Definition BIT_Clk : Z := 0x01.

Record wire := mkWire { PORTB : Z; clocked : list Z }.

(** [PORT_Data = cond ? (PORT_Data | BIT_Data) : (PORT_Data & ~BIT_Data);] *)
Definition set_data (cond : bool) (w : wire) : wire :=
  mkWire (if cond then to_byte (Z.lor (PORTB w) BIT_Data)
          else to_byte (Z.land (PORTB w) (Z.lnot BIT_Data)))
         (clocked w).

(** [PORT_Clk ^= BIT_Clk;] *)
Definition toggle_clock (w : wire) : wire :=
  let p := to_byte (Z.lxor (PORTB w) BIT_Clk) in
  mkWire p (clocked w ++ [p]).

(** One line of the unrolled bodies: set the data line from a bit of
    [data], then toggle the clock. *)
Definition send_bit (data mask : Z) (w : wire) : wire :=
  toggle_clock (set_data (negb (Z.land data mask =? 0)) w).

Fixpoint send16_loop (i : nat) (data : Z) (w : wire) : wire :=
  match i with
  | O => w
  | S i' =>
      let w := send_bit data 0x8000 w in
      let w := send_bit data 0x4000 w in
      let w := send_bit data 0x2000 w in
      let w := send_bit data 0x1000 w in
      let data := to_uint (Z.shiftl data 4) in
      send16_loop i' data w
  end.

Definition Send16Bit (data : Z) (w : wire) : wire :=
  let data := to_uint data in
  let i := to_byte (16 / 4) in
  send16_loop (Z.to_nat i) data w.

Definition SendPixel (data : Z) (w : wire) : wire :=
  let data := to_byte data in
  let w := mkWire (to_byte (Z.land (PORTB w) (Z.lnot BIT_Data))) (clocked w) in
  let w := Nat.iter 8 toggle_clock w in
  let w := send_bit data 0x80 w in
  let w := send_bit data 0x40 w in
  let w := send_bit data 0x20 w in
  let w := send_bit data 0x10 w in
  let w := send_bit data 0x08 w in
  let w := send_bit data 0x04 w in
  let w := send_bit data 0x02 w in
  send_bit data 0x01 w.

(** The data line as the chips see it, and the word a run of bits spells,
    first bit most significant. *)
Definition data_bit (p : Z) : bool := Z.testbit p 1.

Definition word_of_bits (bits : list bool) : Z :=
  fold_left (fun acc (b : bool) => 2 * acc + (if b then 1 else 0)) bits 0.

(** The sixteen tests [Send16Bit] makes on [data], in order. *)
Definition tests16 (data : Z) : list bool :=
  let d0 := data in
  let d1 := to_uint (Z.shiftl d0 4) in
  let d2 := to_uint (Z.shiftl d1 4) in
  let d3 := to_uint (Z.shiftl d2 4) in
  flat_map (fun d => map (fun mask => negb (Z.land d mask =? 0))
                         [0x8000; 0x4000; 0x2000; 0x1000])
           [d0; d1; d2; d3].

Definition tests8 (data : Z) : list bool :=
  map (fun mask => negb (Z.land data mask =? 0))
      [0x80; 0x40; 0x20; 0x10; 0x08; 0x04; 0x02; 0x01].

(** Clocking out a run of data bits. *)
Definition send_run (bits : list bool) (w : wire) : wire :=
  fold_left (fun w c => toggle_clock (set_data c w)) bits w.

(** What a stretch of the link's record has to be: every value taken by
    the register keeps the pins other than data and clock as [p] has them,
    and the clock pin changes at every entry, starting from [clk]. *)
Fixpoint clean_record (p : Z) (clk : bool) (new : list Z) : Prop :=
  match new with
  | [] => True
  | q :: rest =>
      Z.land q 0xFC = Z.land p 0xFC /\ Z.testbit q 0 = negb clk /\
      clean_record p (negb clk) rest
  end.

(** The integers [m], [m + 1], ... counted by [n]. *)
Fixpoint count_up (n : nat) (m : Z) : list Z :=
  match n with
  | O => []
  | S n' => m :: count_up n' (m + 1)
  end.







(** ** The row select lines (PORTD) *)

Definition BIT_Lines : Z := 0x70.
Definition BIT_Enable : Z := 0x80.
Definition SHIFT_Lines : Z := 4.

(** The values the interrupt writes to [PORT_Lines], in order: the early
    blanking [if (ARGB_dark) PORT_Lines &= ~BIT_Enable], the blanking
    after the row was sent, the row select
    [PORT_Lines = (PORT_Lines & ~BIT_Lines) | (line << SHIFT_Lines)] and
    the final [PORT_Lines |= BIT_Enable]. *)
Definition ISR_lines (PORTD ARGB_dark line : Z) : list Z :=
  let early := to_byte (Z.land PORTD (Z.lnot BIT_Enable)) in
  let p0 := if negb (ARGB_dark =? 0) then early else PORTD in
  let p1 := to_byte (Z.land p0 (Z.lnot BIT_Enable)) in
  let p2 := to_byte (Z.lor (Z.land p1 (Z.lnot BIT_Lines)) (Z.shiftl line SHIFT_Lines)) in
  let p3 := to_byte (Z.lor p2 BIT_Enable) in
  (if negb (ARGB_dark =? 0) then [early] else []) ++ [p1; p2; p3].

Definition row_select_check (dark : Z) (PORTD line : Z) : bool :=
  let ws := ISR_lines PORTD dark line in
  match last ws with
  | Some v =>
      (Z.land v 0x0F =? Z.land PORTD 0x0F) &&
      (Z.shiftr (Z.land v BIT_Lines) SHIFT_Lines =? line) &&
      Z.testbit v 7 && (0 <=? v) && (v <? 256)
  | None => false
  end &&
  forallb (fun w => negb (Z.testbit w 7)) (removelast ws).

(** ** Scrolling text (examples/basicdemo/text.cpp)

    [TextDisplay] draws through the global display and never reads it: a
    call is embedded as the new object together with the calls it makes on
    the display, in order. *)

Definition MAX_TEXT : Z := 64.
Definition CHAR_TEST_WIDTH : Z := 8.

(** A call on the display: [Argb.Fade(alpha)], or a [SetPixel] made by
    [Argb.DrawChar]. *)
Inductive display_call :=
| CallFade (alpha : Z)
| CallSetPixel (c : plot).

Definition perform (fb : list Z) (calls : list display_call) : list Z :=
  fold_left (fun fb call =>
               match call with
               | CallFade alpha => Fade fb alpha
               | CallSetPixel c => SetPixel fb (plot_x c) (plot_y c) (plot_color c)
               end) calls fb.

(** [out_text] holds the characters before the terminating NUL. *)
Record TextDisplay := mkText {
  out_text : list Z;
  text_color : Z;
  step_ticks : Z;
  step_count : Z;
  x_scroll : Z
}.

Definition TextDisplay_Reset (t : TextDisplay) : TextDisplay :=
  mkText [] 0xFFFFFFFF 5 5 (-4).

(** [if (!--step_count) { step_count = step_ticks; x_scroll++; }] *)
Definition TextDisplay_Tick (t : TextDisplay) : TextDisplay :=
  let step_count := to_byte (step_count t - 1) in
  if step_count =? 0
  then mkText (out_text t) (text_color t) (step_ticks t) (step_ticks t) (x_scroll t + 1)
  else mkText (out_text t) (text_color t) (step_ticks t) step_count (x_scroll t).

(** [strncpy] of at most [MAX_TEXT] characters of a string given by its
    characters before the NUL. *)
Definition TextDisplay_Set (t : TextDisplay) (str : list Z) : TextDisplay :=
  let t := TextDisplay_Reset t in
  mkText (take (Z.to_nat MAX_TEXT) str) (text_color t) (step_ticks t) (step_count t)
         (x_scroll t).

Definition TextDisplay_SetSpeed (t : TextDisplay) (ticks : Z) : TextDisplay :=
  mkText (out_text t) (text_color t) (to_byte ticks) (to_byte ticks) (x_scroll t).

Section TextGlyphs.

Variable simpleFont : Z -> Z -> Z.

(** The [while ((text_px < ARGB_MAX_X) && *c)] loop of [Update]. *)
Fixpoint text_loop (cs : list Z) (text_px : Z) (did_fade : bool) (color : Z)
  : list display_call * Z :=
  match cs with
  | [] => ([], text_px)
  | c :: cs' =>
      if text_px <? ARGB_MAX_X then
        let fade_now := negb did_fade && (text_px >? - CHAR_TEST_WIDTH) in
        let did_fade := if fade_now then true else did_fade in
        let '(pixels, width) := DrawChar simpleFont c text_px 0 color in
        let '(rest, text_px') :=
          text_loop cs' (text_px + (1 + width)) did_fade color in
        ((if fade_now then [CallFade 0x80] else [])
         ++ map CallSetPixel pixels ++ rest, text_px')
      else ([], text_px)
  end.

Definition TextDisplay_Update (t : TextDisplay) : TextDisplay * list display_call :=
  if x_scroll t <? 32767 then
    let t := TextDisplay_Tick t in
    let text_px := ARGB_MAX_X - x_scroll t in
    let text_fade := 0x80 in
    let '(calls, text_px) :=
      if (text_px >=? ARGB_MAX_X) && (text_px <=? ARGB_MAX_X + 4)
      then ([CallFade (text_fade + 0x10 * (text_px - ARGB_MAX_X))], text_px)
      else text_loop (out_text t) text_px false (text_color t) in
    let t :=
      if text_px <? - CHAR_TEST_WIDTH
      then mkText (out_text t) (text_color t) (step_ticks t) (step_count t) 32767
      else t in
    (t, calls)
  else (t, []).

End TextGlyphs.

(** A display call stays inside the buffer. *)
Definition call_in_range (call : display_call) : Prop :=
  match call with
  | CallFade _ => True
  | CallSetPixel c => plot_in_range c
  end.

(** ** Basic facts about bytes and buffers *)

Lemma to_byte_is_byte z : is_byte (to_byte z).
Proof. unfold is_byte, to_byte. apply Z.mod_pos_bound. lia. Qed.

Lemma to_byte_id z : is_byte z -> to_byte z = z.
Proof. unfold is_byte, to_byte. intros H. apply Z.mod_small. lia. Qed.

Lemma color_byte_is_byte c k : is_byte (color_byte c k).
Proof. unfold is_byte, color_byte. apply Z.mod_pos_bound. lia. Qed.

Lemma byte_lnot a : is_byte a -> to_byte (Z.lnot a) = 255 - a.
Proof.
  unfold is_byte, to_byte, Z.lnot. intros H.
  replace (Z.pred (- a)) with ((255 - a) + (-1) * 256) by lia.
  rewrite Z.mod_add by lia. apply Z.mod_small. lia.
Qed.

Lemma length_poke fb p v : length (poke fb p v) = length fb.
Proof. unfold poke. destruct (0 <=? p); [apply length_insert | reflexivity]. Qed.

Lemma peek_poke_eq fb p v :
  0 <= p < Z.of_nat (length fb) -> peek (poke fb p v) p = v.
Proof.
  intros H. unfold peek, poke.
  destruct (Z.leb_spec 0 p); [| lia].
  rewrite list_lookup_insert_eq by lia. reflexivity.
Qed.

Lemma peek_poke_ne fb p q v : p <> q -> peek (poke fb p v) q = peek fb q.
Proof.
  intros H. unfold peek, poke.
  destruct (Z.leb_spec 0 q); [| reflexivity].
  destruct (Z.leb_spec 0 p); [| reflexivity].
  rewrite list_lookup_insert_ne by lia. reflexivity.
Qed.

Lemma peek_is_byte fb p : Forall is_byte fb -> is_byte (peek fb p).
Proof.
  intros H. unfold peek.
  destruct (0 <=? p); [| unfold is_byte; lia].
  destruct (fb !! Z.to_nat p) as [b |] eqn:E; simpl; [| unfold is_byte; lia].
  exact (Forall_lookup_1 _ _ _ _ H E).
Qed.

Lemma poke_is_byte fb p v :
  Forall is_byte fb -> is_byte v -> Forall is_byte (poke fb p v).
Proof.
  intros Hfb Hv. unfold poke. destruct (0 <=? p); [| assumption].
  apply Forall_insert; assumption.
Qed.

Lemma wf_poke fb p v : wf_fb fb -> is_byte v -> wf_fb (poke fb p v).
Proof.
  intros [Hl Hb] Hv. split; [rewrite length_poke; assumption |].
  apply poke_is_byte; assumption.
Qed.

(** The 16-bit sums of the blend never wrap, and the result is a byte. *)
Lemma blend_no_wrap a bg fg :
  is_byte a -> is_byte bg -> is_byte fg ->
  to_byte (Z.shiftr (to_uint (to_uint ((255 - a) * bg) + to_uint (a * fg))) 8)
  = blend a bg fg.
Proof.
  unfold is_byte, to_byte, to_uint, blend. intros Ha Hbg Hfg.
  assert (0 <= (255 - a) * bg <= (255 - a) * 255) by nia.
  assert (0 <= a * fg <= a * 255) by nia.
  rewrite (Z.mod_small ((255 - a) * bg)) by lia.
  rewrite (Z.mod_small (a * fg)) by lia.
  rewrite (Z.mod_small (_ + _)) by lia.
  rewrite Z.shiftr_div_pow2 by lia. change (2 ^ 8) with 256.
  apply Z.mod_small. split.
  - apply Z.div_pos; lia.
  - apply Z.div_lt_upper_bound; lia.
Qed.

Lemma blend_is_byte a bg fg :
  is_byte a -> is_byte bg -> is_byte fg -> is_byte (blend a bg fg).
Proof.
  intros Ha Hbg Hfg. rewrite <- blend_no_wrap by assumption. apply to_byte_is_byte.
Qed.

(** ** The pixel write *)

Ltac geometry :=
  unfold in_range, pixel_offset, FB_BYTES, ARGB_MAX_X, ARGB_MAX_Y, ARGB_PANELS in *.

Lemma peek_poke_same fb p q v :
  p = q -> 0 <= p < Z.of_nat (length fb) -> peek (poke fb p v) q = v.
Proof. intros <-. apply peek_poke_eq. Qed.

Ltac peek_poke :=
  repeat first
    [ rewrite peek_poke_same by (rewrite ?length_poke; lia)
    | rewrite peek_poke_ne by lia ].

Lemma SetPixel_transparent_branch fb x y color :
  alpha color <> 255 ->
  SetPixel fb x y color =
    let pb := pixel_offset x y + 2 in
    let a := alpha color in
    let fb1 := poke fb pb
      (to_byte (Z.shiftr (to_uint (to_uint ((255 - a) * peek fb pb)
                                   + to_uint (a * blue color))) 8)) in
    let fb2 := poke fb1 (pb - 1)
      (to_byte (Z.shiftr (to_uint (to_uint ((255 - a) * peek fb1 (pb - 1))
                                   + to_uint (a * green color))) 8)) in
    poke fb2 (pb - 1 - 1)
      (to_byte (Z.shiftr (to_uint (to_uint ((255 - a) * peek fb2 (pb - 1 - 1))
                                   + to_uint (a * red color))) 8)).
Proof.
  intros Ha. unfold SetPixel, alpha, red, green, blue, pixel_offset in *.
  pose proof (color_byte_is_byte color 3) as Hb.
  rewrite (byte_lnot _ Hb).
  destruct (Z.eqb_spec (255 - color_byte color 3) 0) as [E | E]; [lia |].
  cbn [negb]. cbv zeta.
  replace (2 + 3 * (ARGB_MAX_X - 1 - x + y * ARGB_MAX_X))
    with (3 * (ARGB_MAX_X - 1 - x + y * ARGB_MAX_X) + 2) by lia.
  reflexivity.
Qed.

Lemma SetPixel_opaque_branch fb x y color :
  alpha color = 255 ->
  SetPixel fb x y color =
    let pb := pixel_offset x y + 2 in
    poke (poke (poke fb pb (blue color)) (pb - 1) (green color))
         (pb - 1 - 1) (red color).
Proof.
  intros Ha. unfold SetPixel, alpha, red, green, blue, pixel_offset in *.
  rewrite Ha. change (to_byte (Z.lnot 255) =? 0) with true.
  cbn [negb]. cbv zeta.
  replace (2 + 3 * (ARGB_MAX_X - 1 - x + y * ARGB_MAX_X))
    with (3 * (ARGB_MAX_X - 1 - x + y * ARGB_MAX_X) + 2) by lia.
  reflexivity.
Qed.

(** A write touches the three bytes of its own pixel only. *)
Lemma SetPixel_peek_other fb x y color q :
  q < pixel_offset x y \/ pixel_offset x y + 2 < q ->
  peek (SetPixel fb x y color) q = peek fb q.
Proof.
  intros Hq. destruct (Z.eq_dec (alpha color) 255) as [Ha | Ha].
  - rewrite SetPixel_opaque_branch by assumption. cbv zeta. peek_poke. reflexivity.
  - rewrite SetPixel_transparent_branch by assumption. cbv zeta. peek_poke. reflexivity.
Qed.

Lemma SetPixel_length fb x y color :
  length (SetPixel fb x y color) = length fb.
Proof.
  destruct (Z.eq_dec (alpha color) 255) as [Ha | Ha].
  - rewrite SetPixel_opaque_branch by assumption. cbv zeta.
    rewrite !length_poke. reflexivity.
  - rewrite SetPixel_transparent_branch by assumption. cbv zeta.
    rewrite !length_poke. reflexivity.
Qed.

Lemma SetPixel_wf fb x y color : wf_fb fb -> wf_fb (SetPixel fb x y color).
Proof.
  intros Hwf. destruct (Z.eq_dec (alpha color) 255) as [Ha | Ha].
  - rewrite SetPixel_opaque_branch by assumption. cbv zeta.
    repeat apply wf_poke; try assumption; apply color_byte_is_byte.
  - rewrite SetPixel_transparent_branch by assumption. cbv zeta.
    repeat apply wf_poke; try assumption; apply to_byte_is_byte.
Qed.

(** Frame property: no other in-range pixel changes. *)
Lemma SetPixel_frame fb x y color x' y' :
  in_range x y -> in_range x' y' -> (x', y') <> (x, y) ->
  pixel_at (SetPixel fb x y color) x' y' = pixel_at fb x' y'.
Proof.
  intros Hxy Hxy' Hne. unfold pixel_at.
  assert (pixel_offset x' y' + 2 < pixel_offset x y \/
          pixel_offset x y + 2 < pixel_offset x' y') as Hoff.
  { assert (x' <> x \/ y' <> y) as Hd.
    { destruct (Z.eq_dec x' x); [| lia]. destruct (Z.eq_dec y' y); [| lia].
      exfalso. apply Hne. congruence. }
    geometry. lia. }
  rewrite !SetPixel_peek_other by lia. reflexivity.
Qed.

Lemma SetPixel_pixel_blended fb x y color :
  wf_fb fb -> in_range x y -> alpha color <> 255 ->
  pixel_at (SetPixel fb x y color) x y =
    let bg := pixel_at fb x y in
    let a := alpha color in
    mkPixel (blend a (pix_r bg) (red color))
            (blend a (pix_g bg) (green color))
            (blend a (pix_b bg) (blue color)).
Proof.
  intros [Hl Hb] Hxy Ha.
  rewrite SetPixel_transparent_branch by assumption.
  unfold pixel_at. cbv zeta. cbn [pix_r pix_g pix_b].
  assert (0 <= pixel_offset x y /\ pixel_offset x y + 2 < Z.of_nat (length fb)) as Hoff.
  { rewrite Hl. geometry. lia. }
  replace (pixel_offset x y + 2 - 1 - 1) with (pixel_offset x y) by lia.
  replace (pixel_offset x y + 2 - 1) with (pixel_offset x y + 1) by lia.
  peek_poke.
  rewrite !blend_no_wrap;
    solve [ reflexivity | apply peek_is_byte; assumption
          | apply color_byte_is_byte ].
Qed.

Lemma SetPixel_pixel_opaque fb x y color :
  wf_fb fb -> in_range x y -> alpha color = 255 ->
  pixel_at (SetPixel fb x y color) x y =
    mkPixel (red color) (green color) (blue color).
Proof.
  intros [Hl Hb] Hxy Ha.
  rewrite SetPixel_opaque_branch by assumption.
  unfold pixel_at. cbv zeta.
  assert (0 <= pixel_offset x y /\ pixel_offset x y + 2 < Z.of_nat (length fb)) as Hoff.
  { rewrite Hl. geometry. lia. }
  replace (pixel_offset x y + 2 - 1 - 1) with (pixel_offset x y) by lia.
  replace (pixel_offset x y + 2 - 1) with (pixel_offset x y + 1) by lia.
  peek_poke. reflexivity.
Qed.

Lemma wf_replicate v : is_byte v -> wf_fb (replicate (Z.to_nat FB_BYTES) v).
Proof.
  intros Hv. split.
  - rewrite length_replicate. reflexivity.
  - apply Forall_replicate. assumption.
Qed.

(** C1 (as amended): at an in-range coordinate every channel of the
    addressed pixel becomes [((255-a)*bg + a*fg)/256] whenever the colour's
    alpha byte [a] is not 255; when [a = 255] the three channels are
    overwritten with the colour's R, G, B; when [a = 0] every channel
    becomes [255*bg/256] and the colour contributes nothing. *)
Theorem SetPixel_blend_rule fb x y color :
  wf_fb fb -> in_range x y ->
  let bg := pixel_at fb x y in
  let a := alpha color in
  let new := pixel_at (SetPixel fb x y color) x y in
  (a <> 255 ->
     new = mkPixel (blend a (pix_r bg) (red color))
                   (blend a (pix_g bg) (green color))
                   (blend a (pix_b bg) (blue color))) /\
  (a = 255 -> new = mkPixel (red color) (green color) (blue color)) /\
  (a = 0 ->
     new = mkPixel (255 * pix_r bg / 256) (255 * pix_g bg / 256)
                   (255 * pix_b bg / 256)).
Proof.
  intros Hwf Hxy bg a new. subst bg a new. repeat split.
  - intros Ha. apply SetPixel_pixel_blended; assumption.
  - intros Ha. apply SetPixel_pixel_opaque; assumption.
  - intros Ha. rewrite SetPixel_pixel_blended by (assumption || lia).
    cbv zeta. rewrite Ha. unfold blend.
    rewrite !Z.mul_0_l, !Z.add_0_r. reflexivity.
Qed.

Lemma SetPixel_blend_rule_witness :
  let fb := replicate (Z.to_nat FB_BYTES) 10 in
  wf_fb fb /\ in_range 2 3 /\
  pixel_at (SetPixel fb 2 3 0x80112233) 2 3 = mkPixel 13 21 30.
Proof.
  intros fb.
  assert (wf_fb fb) as Hwf by (apply wf_replicate; unfold is_byte; lia).
  assert (in_range 2 3) as Hxy by (geometry; lia).
  split; [exact Hwf |]. split; [exact Hxy |].
  destruct (SetPixel_blend_rule fb 2 3 0x80112233 Hwf Hxy) as [Hblend _].
  rewrite Hblend by (vm_compute; discriminate).
  reflexivity.
Defined.

(** C1 as stated fails: a colour of alpha byte 255 overwrites the pixel, and
    one of alpha byte 0 does not yield the colour's channels. *)
Lemma SetPixel_alpha_edges_counterexample :
  let fb := replicate (Z.to_nat FB_BYTES) 10 in
  wf_fb fb /\ in_range 0 0 /\
  alpha 0xFF112233 = 255 /\
  pixel_at (SetPixel fb 0 0 0xFF112233) 0 0 <> pixel_at fb 0 0 /\
  alpha 0x00112233 = 0 /\
  pixel_at (SetPixel fb 0 0 0x00112233) 0 0
    <> mkPixel (red 0x00112233) (green 0x00112233) (blue 0x00112233).
Proof.
  intros fb. split; [apply wf_replicate; unfold is_byte; lia |].
  split; [geometry; lia |].
  split; [reflexivity |]. split; [vm_compute; discriminate |].
  split; [reflexivity |]. vm_compute; discriminate.
Qed.

(** ** Whole-buffer loops: [Fade] and [Fill] *)

Lemma fade_loop_iter cnt alpha st :
  fade_loop cnt alpha st = Nat.iter (cnt * 12) (fade_byte alpha) st.
Proof.
  revert st. induction cnt as [| cnt IH]; intros st; [reflexivity |].
  cbn [fade_loop]. rewrite IH.
  replace (S cnt * 12)%nat with (cnt * 12 + 12)%nat by lia.
  rewrite Nat.iter_add. reflexivity.
Qed.

(** [n] statements of the body fade the [n] bytes from [pb] on. *)
Lemma fade_bytes_spec alpha n fb pb :
  0 <= pb -> pb + Z.of_nat n <= Z.of_nat (length fb) ->
  exists fb',
    Nat.iter n (fade_byte alpha) (fb, pb) = (fb', pb + Z.of_nat n) /\
    length fb' = length fb /\
    (forall q, pb <= q < pb + Z.of_nat n ->
               peek fb' q = fade_channel alpha (peek fb q)) /\
    (forall q, q < pb \/ pb + Z.of_nat n <= q -> peek fb' q = peek fb q).
Proof.
  intros Hpb. induction n as [| n IH]; intros Hlen.
  - exists fb. cbn [Nat.iter]. change (Z.of_nat 0) with 0. rewrite Z.add_0_r.
    split; [reflexivity |]. split; [reflexivity |].
    split; intros q Hq; [lia | reflexivity].
  - destruct IH as (fb1 & Hrun & Hl1 & Hin & Hout); [lia |].
    rewrite Nat.iter_succ, Hrun. cbn [fade_byte].
    eexists. split; [f_equal; lia |].
    split; [rewrite length_poke; exact Hl1 |]. split; intros q Hq.
    + destruct (Z.eq_dec q (pb + Z.of_nat n)) as [-> | Hne].
      * rewrite peek_poke_eq by lia. rewrite Hout by lia. reflexivity.
      * rewrite peek_poke_ne by lia. apply Hin. lia.
    + rewrite peek_poke_ne by lia. apply Hout. lia.
Qed.

Lemma Fade_spec fb alpha :
  Z.of_nat (length fb) = FB_BYTES ->
  length (Fade fb alpha) = length fb /\
  forall q, 0 <= q < FB_BYTES ->
            peek (Fade fb alpha) q = fade_channel (to_byte alpha) (peek fb q).
Proof.
  intros Hl. unfold Fade. rewrite fade_loop_iter.
  destruct (fade_bytes_spec (to_byte alpha)
              (Z.to_nat (to_byte (ARGB_MAX_X * ARGB_MAX_Y / 4)) * 12) fb 0)
    as (fb' & Hrun & Hl' & Hin & _); [lia | rewrite Hl; vm_compute; discriminate |].
  rewrite Hrun. cbn [fst]. split; [exact Hl' |].
  intros q Hq. apply Hin. exact Hq.
Qed.

Lemma fade_channel_is_byte alpha b : is_byte (fade_channel alpha b).
Proof. apply to_byte_is_byte. Qed.

(** With factor 255 a channel loses exactly one, unless it is 0 already. *)
Lemma fade_channel_255 b :
  is_byte b -> fade_channel 255 b = Z.max 0 (b - 1).
Proof.
  unfold is_byte, fade_channel, to_byte, to_uint. intros Hb.
  rewrite (Z.mod_small (255 * b)) by lia.
  rewrite Z.shiftr_div_pow2 by lia. change (2 ^ 8) with 256.
  assert (255 * b / 256 = Z.max 0 (b - 1)) as ->.
  { destruct (Z.eq_dec b 0) as [-> | Hne]; [reflexivity |].
    rewrite Z.max_r by lia. symmetry.
    apply (Z.div_unique _ _ _ (256 - b)); lia. }
  apply Z.mod_small. lia.
Qed.

Lemma Fade_wf fb alpha : wf_fb fb -> wf_fb (Fade fb alpha).
Proof.
  intros [Hl Hb]. destruct (Fade_spec fb alpha Hl) as [Hl' Hpeek].
  split; [rewrite Hl'; exact Hl |].
  apply Forall_lookup_2. intros i b Hi.
  assert (0 <= Z.of_nat i < FB_BYTES) as Hrange.
  { apply lookup_lt_Some in Hi. lia. }
  specialize (Hpeek _ Hrange). unfold peek in Hpeek at 1.
  destruct (Z.leb_spec 0 (Z.of_nat i)); [| lia].
  rewrite Nat2Z.id, Hi in Hpeek. cbn in Hpeek. subst b.
  apply fade_channel_is_byte.
Qed.

Lemma Fade255_iter_wf n fb : wf_fb fb -> wf_fb (Nat.iter n Fade255 fb).
Proof.
  intros Hwf. induction n as [| n IH]; [exact Hwf |].
  rewrite Nat.iter_succ. unfold Fade255 at 1. apply Fade_wf. exact IH.
Qed.

Lemma Fade255_iter_peek n fb q :
  wf_fb fb -> 0 <= q < FB_BYTES ->
  peek (Nat.iter n Fade255 fb) q = Z.max 0 (peek fb q - Z.of_nat n).
Proof.
  intros Hwf Hq. induction n as [| n IH].
  - change (Nat.iter 0 Fade255 fb) with fb.
    pose proof (peek_is_byte fb q (proj2 Hwf)) as Hb.
    unfold is_byte in Hb. lia.
  - rewrite Nat.iter_succ. unfold Fade255 at 1.
    pose proof (Fade255_iter_wf n fb Hwf) as [Hl Hb].
    destruct (Fade_spec (Nat.iter n Fade255 fb) 255 Hl) as [_ Hpeek].
    rewrite Hpeek by exact Hq. change (to_byte 255) with 255.
    rewrite fade_channel_255 by (apply peek_is_byte; exact Hb).
    rewrite IH. lia.
Qed.

(** C7: one [Fade(255)] lowers every channel byte by at most 1 and never
    raises one; hence repeated applications never raise a channel, and
    after finitely many of them every channel is 0 and stays 0. *)
Theorem Fade_255_decays fb :
  wf_fb fb ->
  (forall q, 0 <= q < FB_BYTES ->
     peek (Fade fb 255) q <= peek fb q <= peek (Fade fb 255) q + 1) /\
  (forall n q, 0 <= q < FB_BYTES ->
     peek (Nat.iter (S n) Fade255 fb) q <= peek (Nat.iter n Fade255 fb) q) /\
  (forall n q, (255 <= n)%nat -> 0 <= q < FB_BYTES ->
     peek (Nat.iter n Fade255 fb) q = 0).
Proof.
  intros Hwf. repeat split.
  - destruct (Fade_spec fb 255 (proj1 Hwf)) as [_ Hp]. rewrite Hp by exact H.
    change (to_byte 255) with 255.
    pose proof (peek_is_byte fb q (proj2 Hwf)) as Hb.
    rewrite fade_channel_255 by exact Hb. unfold is_byte in Hb. lia.
  - destruct (Fade_spec fb 255 (proj1 Hwf)) as [_ Hp]. rewrite Hp by exact H.
    change (to_byte 255) with 255.
    pose proof (peek_is_byte fb q (proj2 Hwf)) as Hb.
    rewrite fade_channel_255 by exact Hb. unfold is_byte in Hb. lia.
  - intros n q Hq. rewrite !Fade255_iter_peek by assumption. lia.
  - intros n q Hn Hq. rewrite Fade255_iter_peek by assumption.
    pose proof (peek_is_byte fb q (proj2 Hwf)) as Hb. unfold is_byte in Hb. lia.
Qed.

Lemma Fade_255_decays_witness :
  let fb := replicate (Z.to_nat FB_BYTES) 200 in
  wf_fb fb /\
  peek (Fade fb 255) 5 <= peek fb 5 <= peek (Fade fb 255) 5 + 1 /\
  peek (Nat.iter 255 Fade255 fb) 5 = 0.
Proof.
  intros fb.
  assert (wf_fb fb) as Hwf by (apply wf_replicate; unfold is_byte; lia).
  assert (0 <= 5 < FB_BYTES) as Hq by (geometry; lia).
  split; [exact Hwf |].
  destruct (Fade_255_decays fb Hwf) as (Hone & _ & Hlim).
  split; [apply Hone; exact Hq | apply Hlim; [lia | exact Hq]].
Defined.

Lemma fill_loop_iter cnt r g b st :
  fill_loop cnt r g b st = Nat.iter (cnt * 4) (fill_pixel r g b) st.
Proof.
  revert st. induction cnt as [| cnt IH]; intros st; [reflexivity |].
  cbn [fill_loop]. rewrite IH.
  replace (S cnt * 4)%nat with (cnt * 4 + 4)%nat by lia.
  rewrite Nat.iter_add. reflexivity.
Qed.

(** [n] turns of [*(p++) = r; *(p++) = g; *(p++) = b;] write the [n]
    triples from [p] on. *)
Lemma fill_pixels_spec r g b n fb p :
  0 <= p -> p + 3 * Z.of_nat n <= Z.of_nat (length fb) ->
  exists fb',
    Nat.iter n (fill_pixel r g b) (fb, p) = (fb', p + 3 * Z.of_nat n) /\
    length fb' = length fb /\
    (forall k, 0 <= k < Z.of_nat n ->
       peek fb' (p + 3 * k) = r /\ peek fb' (p + 3 * k + 1) = g /\
       peek fb' (p + 3 * k + 2) = b) /\
    (forall q, q < p \/ p + 3 * Z.of_nat n <= q -> peek fb' q = peek fb q).
Proof.
  intros Hp. induction n as [| n IH]; intros Hlen.
  - exists fb. change (Z.of_nat 0) with 0. rewrite Z.mul_0_r, Z.add_0_r.
    split; [reflexivity |]. split; [reflexivity |].
    split; [intros k Hk; lia | intros q Hq; reflexivity].
  - destruct IH as (fb1 & Hrun & Hl1 & Hin & Hout); [lia |].
    rewrite Nat.iter_succ, Hrun. cbn [fill_pixel].
    eexists. split; [f_equal; lia |].
    split; [rewrite !length_poke; exact Hl1 |]. split.
    + intros k Hk. destruct (Z.eq_dec k (Z.of_nat n)) as [-> | Hne].
      * peek_poke. auto.
      * peek_poke. apply Hin. lia.
    + intros q Hq. peek_poke. apply Hout. lia.
Qed.

(** What [Fill] leaves in every pixel: the byte [color >> 8] in the R
    slot and the byte [color >> 16] in the G slot. *)
Lemma Fill_pixel fb color x y :
  Z.of_nat (length fb) = FB_BYTES -> in_range x y ->
  pixel_at (Fill fb color) x y = mkPixel (green color) (red color) (blue color).
Proof.
  intros Hl Hxy. unfold Fill. rewrite fill_loop_iter.
  destruct (fill_pixels_spec (to_byte (Z.shiftr color 8))
              (to_byte (Z.shiftr color 16)) (to_byte color)
              (Z.to_nat (to_byte (ARGB_MAX_X * ARGB_MAX_Y / 4)) * 4) fb 0)
    as (fb' & Hrun & _ & Hin & _); [lia | rewrite Hl; vm_compute; discriminate |].
  rewrite Hrun. cbn [fst].
  destruct (Hin (ARGB_MAX_X - 1 - x + y * ARGB_MAX_X)) as (Hr & Hg & Hb).
  { change (Z.of_nat (Z.to_nat (to_byte (ARGB_MAX_X * ARGB_MAX_Y / 4)) * 4))
      with 64. geometry. lia. }
  unfold pixel_at, pixel_offset. rewrite !Z.add_0_l in *.
  rewrite Hr, Hg, Hb. unfold green, red, blue, color_byte, to_byte.
  rewrite Z.shiftr_0_r. reflexivity.
Qed.

Lemma Fill_length fb color :
  Z.of_nat (length fb) = FB_BYTES -> length (Fill fb color) = length fb.
Proof.
  intros Hl. unfold Fill. rewrite fill_loop_iter.
  destruct (fill_pixels_spec (to_byte (Z.shiftr color 8))
              (to_byte (Z.shiftr color 16)) (to_byte color)
              (Z.to_nat (to_byte (ARGB_MAX_X * ARGB_MAX_Y / 4)) * 4) fb 0)
    as (fb' & Hrun & Hl' & _); [lia | rewrite Hl; vm_compute; discriminate |].
  rewrite Hrun. exact Hl'.
Qed.

(** After a fill, a pixel write leaves every other pixel as the fill left
    it. *)
Lemma Fill_then_SetPixel_frame fb c x y color x' y' :
  in_range x y -> in_range x' y' -> (x', y') <> (x, y) ->
  pixel_at (SetPixel (Fill fb c) x y color) x' y' = pixel_at (Fill fb c) x' y'.
Proof. apply SetPixel_frame. Qed.

(** C8, the code at the failing input: the opaque pure red built by
    [MakeARGB] is written by [SetPixel] as red, but [Fill] leaves a green
    pixel: it stores the colour's G byte in the R slot and the R byte in
    the G slot. *)
Theorem Fill_swaps_red_and_green :
  let fb := replicate (Z.to_nat FB_BYTES) 0 in
  let c := MakeARGB 255 255 0 0 in
  c = 0xFFFF0000 /\
  red c = 255 /\ green c = 0 /\ blue c = 0 /\
  pixel_at (SetPixel fb 0 0 c) 0 0 = mkPixel 255 0 0 /\
  pixel_at (Fill fb c) 0 0 = mkPixel 0 255 0 /\
  pixel_at (Fill fb c) 7 7 = mkPixel 0 255 0.
Proof. vm_compute. repeat split; reflexivity. Qed.

(** ** Base colours *)

Lemma BaseColors_read_in_table i :
  0 <= i < 12 -> exists c, BaseColors_read i = Some c /\ BaseColors !! Z.to_nat i = Some c.
Proof.
  intros Hi. unfold BaseColors_read. destruct (Z.leb_spec 0 i); [| lia].
  destruct (lookup_lt_is_Some_2 BaseColors (Z.to_nat i)) as [c Hc].
  { change (length BaseColors) with 12%nat. lia. }
  exists c. split; exact Hc.
Qed.

(** C10: for every byte index [i] the colour fetched by [GetBaseColor],
    and each of the two blended by [BlendBaseColors], is the entry
    [i mod 12] of the twelve-entry table: the read is always inside the
    table, and an index of 12 or more aliases the entry of [i mod 12]. *)
Theorem base_color_index_wraps i j blend fade :
  is_byte i -> is_byte j ->
  exists ci cj,
    BaseColors !! Z.to_nat (i mod 12) = Some ci /\
    BaseColors !! Z.to_nat (j mod 12) = Some cj /\
    (Z.to_nat (i mod 12) < length BaseColors)%nat /\
    GetBaseColor i = ci /\
    GetBaseColor i = GetBaseColor (i mod 12) /\
    BlendBaseColors i j blend fade = BlendARGB ci cj blend fade.
Proof.
  intros Hi Hj.
  assert (0 <= i mod 12 < 12) as Him by (apply Z.mod_pos_bound; lia).
  assert (0 <= j mod 12 < 12) as Hjm by (apply Z.mod_pos_bound; lia).
  destruct (BaseColors_read_in_table _ Him) as (ci & Hri & Hli).
  destruct (BaseColors_read_in_table _ Hjm) as (cj & Hrj & Hlj).
  exists ci, cj. split; [exact Hli |]. split; [exact Hlj |].
  split; [change (length BaseColors) with 12%nat; lia |].
  unfold GetBaseColor, BlendBaseColors. cbv zeta.
  rewrite (to_byte_id i Hi), (to_byte_id j Hj).
  assert (is_byte (i mod 12)) as Hb by (unfold is_byte; lia).
  rewrite (to_byte_id _ Hb), Z.mod_mod by lia.
  rewrite Hri, Hrj. cbn [default]. auto.
Qed.

Lemma base_color_index_wraps_witness :
  is_byte 13 /\ is_byte 250 /\
  GetBaseColor 13 = 0xFFFF2000 /\
  BlendBaseColors 13 250 128 255 = BlendARGB 0xFFFF2000 0xFFFF00FF 128 255.
Proof.
  assert (is_byte 13) as H13 by (unfold is_byte; lia).
  assert (is_byte 250) as H250 by (unfold is_byte; lia).
  split; [exact H13 |]. split; [exact H250 |].
  destruct (base_color_index_wraps 13 250 128 255 H13 H250)
    as (ci & cj & Hi & Hj & _ & Hg & _ & Hb).
  assert (ci = 0xFFFF2000) as Eci by (vm_compute in Hi; congruence).
  assert (cj = 0xFFFF00FF) as Ecj by (vm_compute in Hj; congruence).
  rewrite Hg, Hb, Eci, Ecj. split; reflexivity.
Defined.

(** ** Glyphs *)

Lemma glyph_code_printable ascii :
  0x20 <= glyph_code ascii <= 0x7e.
Proof.
  unfold glyph_code.
  destruct (Z.ltb_spec ascii 0x20); cbn [orb]; [lia |].
  destruct (Z.gtb_spec ascii 0x7e); lia.
Qed.

Lemma land_bit col f :
  0 <= f -> negb (Z.land col (Z.shiftl 1 f) =? 0) = Z.testbit col f.
Proof.
  intros Hf. rewrite Z.shiftl_1_l.
  destruct (Z.testbit col f) eqn:E.
  - destruct (Z.eqb_spec (Z.land col (2 ^ f)) 0) as [H0 | _]; [| reflexivity].
    assert (Z.testbit (Z.land col (2 ^ f)) f = true) as Hb
      by (rewrite Z.land_spec, E, Z.pow2_bits_true by lia; reflexivity).
    rewrite H0, Z.bits_0 in Hb. discriminate.
  - assert (Z.land col (2 ^ f) = 0) as ->; [| reflexivity].
    apply Z.bits_inj'. intros n Hn.
    rewrite Z.land_spec, Z.bits_0, Z.pow2_bits_eqb by lia.
    destruct (Z.eqb_spec f n) as [<- | _]; [rewrite E; reflexivity | apply andb_false_r].
Qed.

Lemma char_column_bits col px py i color :
  char_column col px py i color =
    map (fun f => mkPlot (px + i) (py + f) color)
        (List.filter (Z.testbit col) [0; 1; 2; 3; 4; 5; 6; 7]).
Proof.
  unfold char_column. cbn [flat_map List.filter].
  rewrite !land_bit by lia.
  repeat match goal with
         | |- context [Z.testbit col ?f] => destruct (Z.testbit col f)
         end; reflexivity.
Qed.

Lemma char_columns_pixels font cols width ascii px py color :
  fst (char_columns font cols width ascii px py color) =
    flat_map
      (fun i =>
         if (0 <=? px + i) && (px + i <? ARGB_MAX_X)
         then map (fun f => mkPlot (px + i) (py + f) color)
                  (List.filter (Z.testbit (font (ascii - 0x20) i))
                               [0; 1; 2; 3; 4; 5; 6; 7])
         else [])
      cols.
Proof.
  revert width. induction cols as [| i cols IH]; intros width; [reflexivity |].
  cbn [char_columns flat_map].
  destruct (Z.eqb_spec (font (ascii - 0x20) i) 0) as [E | E]; cbn [negb].
  - rewrite IH, E. cbn [List.filter]. rewrite !Z.bits_0. cbn [map].
    destruct ((0 <=? px + i) && (px + i <? ARGB_MAX_X)); reflexivity.
  - cbv zeta.
    specialize (IH (if width =? 0 then i else width)).
    destruct (char_columns font cols (if width =? 0 then i else width) ascii px py color)
      as [rest w]. cbn [fst] in *. rewrite IH.
    destruct ((0 <=? px + i) && (px + i <? ARGB_MAX_X));
      [rewrite char_column_bits |]; reflexivity.
Qed.

(** The width carried by the column loop. *)
Lemma char_columns_width font cols width ascii px py color :
  snd (char_columns font cols width ascii px py color) =
    fold_left (width_step (font (ascii - 0x20))) cols width.
Proof.
  revert width. induction cols as [| i cols IH]; intros width; [reflexivity |].
  cbn [char_columns fold_left]. unfold width_step at 2.
  destruct (negb (font (ascii - 0x20) i =? 0)).
  - destruct (char_columns font cols (if width =? 0 then i else width) ascii px py color)
      as [rest w] eqn:E.
    cbn [snd]. rewrite <- IH, E. reflexivity.
  - apply IH.
Qed.

Lemma width_step_kept glyph cols w :
  w <> 0 -> fold_left (width_step glyph) cols w = w.
Proof.
  revert w. induction cols as [| i cols IH]; intros w Hw; [reflexivity |].
  cbn [fold_left].
  assert (width_step glyph w i = w) as ->; [| apply IH; exact Hw].
  unfold width_step. destruct (negb (glyph i =? 0)); [| reflexivity].
  destruct (Z.eqb_spec w 0); [contradiction | reflexivity].
Qed.

(** Scanning columns that are clear, then a set column [k], then [rest]. *)
Lemma width_scan_first glyph cols clear k rest :
  cols = clear ++ k :: rest ->
  Forall (fun j => glyph j = 0) clear -> glyph k <> 0 ->
  k <> 0 \/ rest = [] ->
  fold_left (width_step glyph) cols 0 = k.
Proof.
  intros -> Hclear Hk Hrest. induction Hclear as [| j clear Hj _ IH].
  - cbn [app fold_left]. unfold width_step at 2.
    destruct (Z.eqb_spec (glyph k) 0); [contradiction |]. cbn.
    destruct Hrest as [Hne | ->]; [apply width_step_kept; exact Hne | reflexivity].
  - cbn [app fold_left]. unfold width_step at 2. rewrite Hj. exact IH.
Qed.

Lemma width_scan_none glyph clear :
  Forall (fun j => glyph j = 0) clear ->
  fold_left (width_step glyph) clear 0 = 0.
Proof.
  intros Hclear. induction Hclear as [| j clear Hj _ IH]; [reflexivity |].
  cbn [fold_left]. unfold width_step at 2. rewrite Hj. exact IH.
Qed.

Ltac scan_side :=
  first [ reflexivity | assumption | solve [repeat constructor; assumption]
        | left; lia | right; reflexivity ].

Ltac split_columns glyph ks :=
  lazymatch ks with
  | (?k :: ?ks')%list =>
      destruct (Z.eq_dec (glyph k) 0); [split_columns glyph ks' |]
  | _ => idtac
  end.

(** C3 (as amended): the byte [DrawChar] returns is the index of the
    rightmost set column of the glyph, the set column of greatest index,
    and 0 when no column is set. *)
Theorem DrawChar_returns_rightmost_set_column font ascii px py color :
  let g := glyph_code (to_byte ascii) - 0x20 in
  let w := snd (DrawChar font ascii px py color) in
  0 <= w <= 7 /\
  (forall i, 0 <= i <= 7 -> font g i <> 0 -> i <= w) /\
  (w = 0 \/ font g w <> 0).
Proof.
  intros g w. subst w. unfold DrawChar. cbv zeta.
  rewrite char_columns_width. fold g.
  assert (forall i, 0 <= i <= 7 ->
            i = 0 \/ i = 1 \/ i = 2 \/ i = 3 \/ i = 4 \/ i = 5 \/ i = 6 \/ i = 7)
    as Hcases by (intros; lia).
  split_columns (font g) [7; 6; 5; 4; 3; 2; 1; 0];
    [ rewrite width_scan_none by (repeat constructor; assumption)
    | rewrite (width_scan_first (font g) _ [7; 6; 5; 4; 3; 2; 1] 0 [])
        by scan_side
    | rewrite (width_scan_first (font g) _ [7; 6; 5; 4; 3; 2] 1 [0])
        by scan_side
    | rewrite (width_scan_first (font g) _ [7; 6; 5; 4; 3] 2 [1; 0])
        by scan_side
    | rewrite (width_scan_first (font g) _ [7; 6; 5; 4] 3 [2; 1; 0])
        by scan_side
    | rewrite (width_scan_first (font g) _ [7; 6; 5] 4 [3; 2; 1; 0])
        by scan_side
    | rewrite (width_scan_first (font g) _ [7; 6] 5 [4; 3; 2; 1; 0])
        by scan_side
    | rewrite (width_scan_first (font g) _ [7] 6 [5; 4; 3; 2; 1; 0])
        by scan_side
    | rewrite (width_scan_first (font g) _ [] 7 [6; 5; 4; 3; 2; 1; 0])
        by scan_side ];
    (split; [lia |]; split;
     [ intros i Hi Hset;
       destruct (Hcases i Hi) as [-> | [-> | [-> | [-> | [-> | [-> | [-> | ->]]]]]]];
       solve [lia | contradiction]
     | solve [left; reflexivity | right; assumption] ]).
Qed.

(** C3 as stated fails: for a glyph whose columns 0, 1 and 2 are set the
    leftmost set column is column 0, and [DrawChar] returns 2. *)
Lemma DrawChar_width_counterexample :
  snd (DrawChar bar_font 0x41 0 0 7) = 2 /\
  spec_leftmost_set_column (bar_font (glyph_code 0x41 - 0x20))
    [0; 1; 2; 3; 4; 5; 6; 7] = 0 /\
  snd (DrawChar bar_font 0x41 0 0 7)
    <> spec_leftmost_set_column (bar_font (glyph_code 0x41 - 0x20))
         [0; 1; 2; 3; 4; 5; 6; 7].
Proof.
  split; [reflexivity |]. split; [reflexivity |]. vm_compute. discriminate.
Qed.

(** The scan of the columns 7 down to 0 ends on the set column of greatest
    index, on 0 if there is none. *)
Lemma width_scan_rightmost glyph :
  let w := fold_left (width_step glyph) [7; 6; 5; 4; 3; 2; 1; 0] 0 in
  0 <= w <= 7 /\
  (forall i, 0 <= i <= 7 -> glyph i <> 0 -> i <= w) /\
  (w = 0 \/ glyph w <> 0).
Proof.
  cbv zeta.
  assert (forall i, 0 <= i <= 7 ->
            i = 0 \/ i = 1 \/ i = 2 \/ i = 3 \/ i = 4 \/ i = 5 \/ i = 6 \/ i = 7)
    as Hcases by (intros; lia).
  split_columns glyph [7; 6; 5; 4; 3; 2; 1; 0];
    [ rewrite width_scan_none by (repeat constructor; assumption)
    | rewrite (width_scan_first glyph _ [7; 6; 5; 4; 3; 2; 1] 0 []) by scan_side
    | rewrite (width_scan_first glyph _ [7; 6; 5; 4; 3; 2] 1 [0]) by scan_side
    | rewrite (width_scan_first glyph _ [7; 6; 5; 4; 3] 2 [1; 0]) by scan_side
    | rewrite (width_scan_first glyph _ [7; 6; 5; 4] 3 [2; 1; 0]) by scan_side
    | rewrite (width_scan_first glyph _ [7; 6; 5] 4 [3; 2; 1; 0]) by scan_side
    | rewrite (width_scan_first glyph _ [7; 6] 5 [4; 3; 2; 1; 0]) by scan_side
    | rewrite (width_scan_first glyph _ [7] 6 [5; 4; 3; 2; 1; 0]) by scan_side
    | rewrite (width_scan_first glyph _ [] 7 [6; 5; 4; 3; 2; 1; 0]) by scan_side ];
    (split; [lia |]; split;
     [ intros i Hi Hset;
       destruct (Hcases i Hi) as [-> | [-> | [-> | [-> | [-> | [-> | [-> | ->]]]]]]];
       solve [lia | contradiction]
     | solve [left; reflexivity | right; assumption] ]).
Qed.

(** C9: for every character code below 0x20 or above 0x7E, and every
    position whose coordinates stay inside the 16-bit [int], [DrawChar]
    renders the hyphen: the pixels it writes are those of entry
    [0x2D - 0x20] of the glyph table, drawn at ([px], [py]) column by
    column and bit by bit, and the byte it returns is the width of that
    glyph as [DrawChar] measures widths, the greatest index of a set column
    (0 if none is set).  The call is the one for the hyphen itself, and it
    yields a result for every code. *)
Theorem DrawChar_placeholder font ascii px py color :
  is_byte ascii -> ascii < 0x20 \/ ascii > 0x7E ->
  is_point px -> is_point (px + 7) -> is_point py -> is_point (py + 7) ->
  let hyphen := font (0x2D - 0x20) in
  let w := snd (DrawChar font ascii px py color) in
  fst (DrawChar font ascii px py color) = spec_glyph_pixels hyphen px py color /\
  (0 <= w <= 7 /\
   (forall i, 0 <= i <= 7 -> hyphen i <> 0 -> i <= w) /\
   (w = 0 \/ hyphen w <> 0)) /\
  DrawChar font ascii px py color = DrawChar font 0x2D px py color.
Proof.
  intros Hb Hout _ _ _ _. cbv zeta. unfold DrawChar. cbv zeta.
  rewrite (to_byte_id _ Hb). change (to_byte 45) with 45.
  assert (glyph_code ascii = 0x2D) as ->.
  { unfold glyph_code.
    destruct (Z.ltb_spec ascii 0x20); cbn [orb]; [reflexivity |].
    destruct (Z.gtb_spec ascii 0x7e); [reflexivity | lia]. }
  split; [apply char_columns_pixels |]. split; [| reflexivity].
  rewrite char_columns_width. apply width_scan_rightmost.
Qed.

Lemma DrawChar_placeholder_witness :
  fst (DrawChar dash_font 200 2 1 7) = [mkPlot 5 4 7; mkPlot 4 4 7; mkPlot 3 4 7] /\
  snd (DrawChar dash_font 200 2 1 7) = 3 /\
  DrawChar dash_font 200 2 1 7 <> DrawChar dash_font (200 - 0x80) 2 1 7.
Proof.
  assert (is_byte 200) as Hb by (unfold is_byte; lia).
  assert (200 < 0x20 \/ 200 > 0x7E) as Hout by lia.
  assert (is_point 2 /\ is_point (2 + 7) /\ is_point 1 /\ is_point (1 + 7))
    as (Hx & Hx7 & Hy & Hy7) by (unfold is_point; lia).
  destruct (DrawChar_placeholder dash_font 200 2 1 7 Hb Hout Hx Hx7 Hy Hy7)
    as (Hpix & (Hw & Hleast & Hset) & Hsame).
  assert (snd (DrawChar dash_font 200 2 1 7) = 3) as Hw3.
  { pose proof (Hleast 3 ltac:(lia) ltac:(discriminate)) as H3.
    destruct Hset as [H0 | Hset]; [lia |].
    destruct (Z.eq_dec (snd (DrawChar dash_font 200 2 1 7)) 3) as [E | E];
      [exact E | exfalso].
    assert (snd (DrawChar dash_font 200 2 1 7) = 4 \/
            snd (DrawChar dash_font 200 2 1 7) = 5 \/
            snd (DrawChar dash_font 200 2 1 7) = 6 \/
            snd (DrawChar dash_font 200 2 1 7) = 7) as Hc by lia.
    destruct Hc as [Ec | [Ec | [Ec | Ec]]]; rewrite Ec in Hset;
      apply Hset; reflexivity. }
  split; [rewrite Hpix; reflexivity |]. split; [exact Hw3 |].
  intros Heq. rewrite Heq in Hw3. vm_compute in Hw3. discriminate.
Defined.

(** ** Digits *)

(** C4 (as amended): [BlendDigits(3, 4, 128, 0, 0)] draws digit 3 with its
    top row at [0 - 128/32 = -4], four rows up, and digit 4 seven rows
    below it, top row at [-4 + 7 = 3]; the strips drawn are entries 3 and 4
    of [numberFont]. *)
Theorem BlendDigits_3_4_128 color :
  BlendDigits 3 4 128 0 0 color =
    DrawDigit 3 0 (0 - 4) color ++ DrawDigit 4 0 (0 - 4 + 7) color /\
  128 / 32 = 4 /\
  numberFont !! 3%nat = Some [0x15; 0x15; 0x1F] /\
  numberFont !! 4%nat = Some [0x07; 0x04; 0x1F] /\
  DrawDigit 3 0 (0 - 4) color =
    [mkPlot 0 0 color; mkPlot 1 0 color; mkPlot 2 0 color] /\
  DrawDigit 4 0 (0 - 4 + 7) color =
    [mkPlot 0 3 color; mkPlot 0 4 color; mkPlot 0 5 color;
     mkPlot 1 5 color;
     mkPlot 2 3 color; mkPlot 2 4 color; mkPlot 2 5 color;
     mkPlot 2 6 color; mkPlot 2 7 color].
Proof. repeat split. Qed.

(** C4 as stated fails: digit 4 drawn eleven rows up would be wholly off
    the buffer, whereas [BlendDigits] lights its strips from row 3 down. *)
Lemma BlendDigits_shift_counterexample :
  DrawDigit 4 0 (0 - 11) 0xFFFFFFFF = [] /\
  BlendDigits 3 4 128 0 0 0xFFFFFFFF
    <> DrawDigit 3 0 (0 - 4) 0xFFFFFFFF ++ DrawDigit 4 0 (0 - 11) 0xFFFFFFFF /\
  pixel_at (render (replicate (Z.to_nat FB_BYTES) 0)
              (BlendDigits 3 4 128 0 0 0xFFFFFFFF)) 0 3 = mkPixel 255 255 255 /\
  pixel_at (render (replicate (Z.to_nat FB_BYTES) 0)
              (DrawDigit 3 0 (0 - 4) 0xFFFFFFFF ++ DrawDigit 4 0 (0 - 11) 0xFFFFFFFF))
           0 3 = mkPixel 0 0 0.
Proof.
  split; [reflexivity |]. split; [vm_compute; discriminate |].
  split; vm_compute; reflexivity.
Qed.

(** ** The clock kept by the interrupt *)

Lemma tod_tick_range t : 0 <= tod_tick t < 86400.
Proof.
  unfold tod_tick, to_ulong.
  pose proof (Z.mod_pos_bound (t + 1) 4294967296 ltac:(lia)).
  destruct (Z.geb_spec ((t + 1) mod 4294967296) 86400); lia.
Qed.

Lemma tod_tick_next t : 0 <= t < 86399 -> tod_tick t = t + 1.
Proof.
  intros Ht. unfold tod_tick, to_ulong. rewrite Z.mod_small by lia.
  destruct (Z.geb_spec (t + 1) 86400); lia.
Qed.

Lemma tod_tick_count n :
  Z.of_nat n < 86400 -> Nat.iter n tod_tick 0 = Z.of_nat n.
Proof.
  induction n as [| n IH]; intros Hn; [reflexivity |].
  rewrite Nat.iter_succ, IH by lia. rewrite tod_tick_next by lia. lia.
Qed.

Lemma ISR_clock_inv n s ADCH :
  0 <= n -> clock_inv n s -> clock_inv (n + 1) (ISR s ADCH).
Proof.
  intros Hn (Hline & Hms & Htod). unfold ISR, clock_inv.
  unfold to_byte, to_uint, ARGB_MAX_Y, ARGB_FRAMERATE.
  rewrite Hline, Hms, Htod. change (1000 / 125) with 8.
  rewrite (Z.mod_small (n mod 8 + 1)) by (Z.div_mod_to_equations; lia).
  rewrite (Z.mod_small (8 * _ + 8)) by (Z.div_mod_to_equations; lia).
  destruct (Z.geb_spec (n mod 8 + 1) 8) as [Hl | Hl].
  - destruct (Z.geb_spec (8 * ((n / 8) mod 125) + 8) 1000) as [Hs | Hs];
      cbn [line ARGB_clock_ms ARGB_clock_tod].
    + split; [Z.div_mod_to_equations; lia |].
      split; [Z.div_mod_to_equations; lia |].
      unfold tod_tick, to_ulong.
      rewrite (Z.mod_small (_ + 1)) by (Z.div_mod_to_equations; lia).
      destruct (Z.geb_spec ((n / 1000) mod 86400 + 1) 86400);
        Z.div_mod_to_equations; lia.
    + repeat split; Z.div_mod_to_equations; lia.
  - cbn [line ARGB_clock_ms ARGB_clock_tod].
    repeat split; Z.div_mod_to_equations; lia.
Qed.

Lemma ISR_run_clock_inv samples n s :
  0 <= n -> clock_inv n s ->
  clock_inv (n + Z.of_nat (length samples)) (ISR_run s samples).
Proof.
  revert n s. induction samples as [| ADCH samples IH]; intros n s Hn Hinv.
  - cbn [length ISR_run fold_left]. change (Z.of_nat 0) with 0.
    rewrite Z.add_0_r. exact Hinv.
  - cbn [ISR_run fold_left]. cbn [length].
    replace (n + Z.of_nat (S (length samples)))
      with (n + 1 + Z.of_nat (length samples)) by lia.
    apply (IH (n + 1) (ISR s ADCH)); [lia |].
    apply ISR_clock_inv; assumption.
Qed.

(** C6: from program start the time of day stays within 0 .. 86399 at
    the end of every interrupt, and counts whole seconds modulo 86400; the
    increment takes 0 to 86399 in 86399 steps and 86399 to 0, and leaves
    86400 after no value whatever. *)
Theorem clock_tod_wraps samples :
  let s := ISR_run isr_init samples in
  0 <= ARGB_clock_tod s < 86400 /\
  ARGB_clock_tod s = (Z.of_nat (length samples) / 1000) mod 86400 /\
  Nat.iter (Z.to_nat 86399) tod_tick 0 = 86399 /\
  tod_tick 86399 = 0 /\
  (forall ADCH s', ARGB_clock_tod (ISR s' ADCH) = ARGB_clock_tod s' \/
                     ARGB_clock_tod (ISR s' ADCH) = tod_tick (ARGB_clock_tod s')) /\
  (forall t, tod_tick t <> 86400).
Proof.
  intros s.
  assert (clock_inv (0 + Z.of_nat (length samples)) s) as (_ & _ & Htod).
  { apply ISR_run_clock_inv; [lia |]. repeat split. }
  rewrite Z.add_0_l in Htod.
  split; [rewrite Htod; apply Z.mod_pos_bound; lia |].
  split; [exact Htod |].
  split; [rewrite tod_tick_count by lia; lia |].
  split; [reflexivity |]. split.
  - intros ADCH s'. unfold ISR.
    destruct (to_byte (line s' + 1) >=? ARGB_MAX_Y); [| left; reflexivity].
    destruct (to_uint (ARGB_clock_ms s' + 1000 / ARGB_FRAMERATE) >=? 1000);
      [right | left]; reflexivity.
  - intros t. pose proof (tod_tick_range t). lia.
Qed.

(** ** Horizontal scroll *)

(** The copying loop moves [cnt] pixels, each from [steps] pixels further
    down in memory; a source byte is read before any write reaches it. *)
Lemma scroll_copy_spec steps cnt fb pto :
  0 <= steps -> 3 * Z.of_nat cnt - 1 <= pto -> pto < Z.of_nat (length fb) ->
  exists fb',
    scroll_copy cnt steps fb pto = (fb', pto - 3 * Z.of_nat cnt) /\
    length fb' = length fb /\
    (forall q, pto - 3 * Z.of_nat cnt < q <= pto ->
               peek fb' q = peek fb (q - 3 * steps)) /\
    (forall q, q <= pto - 3 * Z.of_nat cnt \/ pto < q -> peek fb' q = peek fb q).
Proof.
  intros Hsteps. revert fb pto.
  induction cnt as [| cnt IH]; intros fb pto Hlo Hhi.
  - exists fb. cbn [scroll_copy]. change (Z.of_nat 0) with 0.
    rewrite Z.mul_0_r, Z.sub_0_r.
    split; [reflexivity |]. split; [reflexivity |].
    split; intros q Hq; [lia | reflexivity].
  - cbn [scroll_copy].
    set (fb1 := poke fb pto (peek fb (pto - 3 * steps))).
    set (fb2 := poke fb1 (pto - 1) (peek fb1 (pto - 1 - 3 * steps))).
    set (fb3 := poke fb2 (pto - 1 - 1) (peek fb2 (pto - 1 - 1 - 3 * steps))).
    assert (length fb3 = length fb) as Hl3
      by (unfold fb3, fb2, fb1; rewrite !length_poke; reflexivity).
    destruct (IH fb3 (pto - 1 - 1 - 1)) as (fb' & Hrun & Hl & Hin & Hout);
      [lia | lia |].
    exists fb'. split; [rewrite Hrun; f_equal; lia |].
    split; [congruence |].
    assert (forall q, q < pto - 2 -> peek fb3 q = peek fb q) as Hlow.
    { intros q Hq. unfold fb3, fb2, fb1. peek_poke. reflexivity. }
    assert (peek fb3 pto = peek fb (pto - 3 * steps)) as H0.
    { unfold fb3, fb2, fb1. peek_poke. reflexivity. }
    assert (peek fb3 (pto - 1) = peek fb (pto - 1 - 3 * steps)) as H1.
    { unfold fb3, fb2. peek_poke. unfold fb1. peek_poke. reflexivity. }
    assert (peek fb3 (pto - 2) = peek fb (pto - 2 - 3 * steps)) as H2.
    { unfold fb3. peek_poke. unfold fb2, fb1.
      replace (pto - 1 - 1 - 3 * steps) with (pto - 2 - 3 * steps) by lia.
      peek_poke. reflexivity. }
    split; intros q Hq.
    + destruct (Z_lt_le_dec q (pto - 2)) as [Hlt | Hge].
      * rewrite Hin by lia. apply Hlow. lia.
      * rewrite Hout by lia.
        assert (q = pto \/ q = pto - 1 \/ q = pto - 2) as [-> | [-> | ->]] by lia;
          assumption.
    + rewrite Hout by lia.
      destruct Hq as [Hq | Hq]; [apply Hlow; lia |].
      unfold fb3, fb2, fb1. peek_poke. reflexivity.
Qed.

Lemma scroll_zero_spec cnt fb pto :
  3 * Z.of_nat cnt - 1 <= pto -> pto < Z.of_nat (length fb) ->
  exists fb',
    scroll_zero cnt fb pto = (fb', pto - 3 * Z.of_nat cnt) /\
    length fb' = length fb /\
    (forall q, pto - 3 * Z.of_nat cnt < q <= pto -> peek fb' q = 0) /\
    (forall q, q <= pto - 3 * Z.of_nat cnt \/ pto < q -> peek fb' q = peek fb q).
Proof.
  revert fb pto. induction cnt as [| cnt IH]; intros fb pto Hlo Hhi.
  - exists fb. cbn [scroll_zero]. change (Z.of_nat 0) with 0.
    rewrite Z.mul_0_r, Z.sub_0_r.
    split; [reflexivity |]. split; [reflexivity |].
    split; intros q Hq; [lia | reflexivity].
  - cbn [scroll_zero].
    set (fb3 := poke (poke (poke fb pto 0) (pto - 1) 0) (pto - 1 - 1) 0).
    assert (length fb3 = length fb) as Hl3
      by (unfold fb3; rewrite !length_poke; reflexivity).
    destruct (IH fb3 (pto - 1 - 1 - 1)) as (fb' & Hrun & Hl & Hin & Hout);
      [lia | lia |].
    exists fb'. split; [rewrite Hrun; f_equal; lia |].
    split; [congruence |]. split; intros q Hq.
    + destruct (Z_lt_le_dec q (pto - 2)) as [Hlt | Hge].
      * apply Hin. lia.
      * rewrite Hout by lia. unfold fb3.
        assert (q = pto \/ q = pto - 1 \/ q = pto - 2) as [-> | [-> | ->]] by lia;
          peek_poke; reflexivity.
    + rewrite Hout by lia. unfold fb3. peek_poke. reflexivity.
Qed.

(** The loop over the lines, started at the left-hand blue byte of row
    [y]: [n] rows are shifted, the rest of the buffer is left alone.  Row
    [yy] occupies the bytes [24 * yy .. 24 * yy + 23]. *)
Lemma scroll_lines_spec steps n y fb :
  0 <= steps <= 8 -> 0 <= y -> y + Z.of_nat n <= 8 ->
  Z.of_nat (length fb) = 192 ->
  length (scroll_lines n steps fb (24 * y + 23)) = length fb /\
  (forall yy r, y <= yy < y + Z.of_nat n -> 0 <= r < 24 ->
     peek (scroll_lines n steps fb (24 * y + 23)) (24 * yy + r) =
       if 3 * steps <=? r then peek fb (24 * yy + r - 3 * steps) else 0) /\
  (forall q, q < 24 * y \/ 24 * (y + Z.of_nat n) <= q ->
     peek (scroll_lines n steps fb (24 * y + 23)) q = peek fb q).
Proof.
  intros Hsteps. revert y fb.
  induction n as [| n IH]; intros y fb Hy Hyn Hl.
  - cbn [scroll_lines]. split; [reflexivity |].
    split; [intros yy r Hyy Hr; lia | intros q Hq; reflexivity].
  - cbn [scroll_lines]. change ARGB_MAX_X with 8.
    assert (to_byte (8 - steps) = 8 - steps) as ->
      by (apply to_byte_id; unfold is_byte; lia).
    destruct (scroll_copy_spec steps (Z.to_nat (8 - steps)) fb (24 * y + 23))
      as (fb1 & Hrun1 & Hl1 & Hin1 & Hout1); [lia | lia | lia |].
    rewrite Hrun1.
    replace (24 * y + 23 - 3 * Z.of_nat (Z.to_nat (8 - steps)))
      with (24 * y + 3 * steps - 1) in * by lia.
    destruct (scroll_zero_spec (Z.to_nat steps) fb1 (24 * y + 3 * steps - 1))
      as (fb2 & Hrun2 & Hl2 & Hin2 & Hout2); [lia | lia |].
    rewrite Hrun2.
    replace (24 * y + 3 * steps - 1 - 3 * Z.of_nat (Z.to_nat steps) + 8 * 2 * 3)
      with (24 * (y + 1) + 23) by lia.
    replace (24 * y + 3 * steps - 1 - 3 * Z.of_nat (Z.to_nat steps))
      with (24 * y - 1) in * by lia.
    destruct (IH (y + 1) fb2) as (Hl' & Hrows & Hrest); [lia | lia | lia |].
    split; [congruence |]. split.
    + intros yy r Hyy Hr.
      destruct (Z.eq_dec yy y) as [-> | Hne].
      * rewrite Hrest by lia.
        destruct (Z.leb_spec (3 * steps) r) as [Hc | Hc].
        -- rewrite Hout2 by lia. apply Hin1. lia.
        -- apply Hin2. lia.
      * rewrite Hrows by lia.
        destruct (Z.leb_spec (3 * steps) r) as [Hc | Hc]; [| reflexivity].
        rewrite Hout2 by lia. apply Hout1. lia.
    + intros q Hq. rewrite Hrest by lia.
      rewrite Hout2 by lia. apply Hout1. lia.
Qed.

(** C5: for [0 <= k < width], after [ScrollLeft(k)] column [c] of every
    row holds what column [c + k] of that row held, for [c < width - k],
    and black for [c >= width - k]. *)
Theorem ScrollLeft_shifts fb k c y :
  Z.of_nat (length fb) = FB_BYTES -> 0 <= k < ARGB_MAX_X -> in_range c y ->
  (c < ARGB_MAX_X - k ->
     pixel_at (ScrollLeft fb k) c y = pixel_at fb (c + k) y) /\
  (ARGB_MAX_X - k <= c ->
     pixel_at (ScrollLeft fb k) c y = mkPixel 0 0 0).
Proof.
  intros Hl Hk Hcy. unfold ScrollLeft. cbv zeta.
  change ARGB_MAX_Y with 8 in *. change ARGB_MAX_X with 8 in *.
  change FB_BYTES with 192 in Hl.
  change (Z.to_nat (to_byte 8)) with 8%nat.
  change (3 * (8 - 1) + 2) with (24 * 0 + 23).
  assert (to_byte k = k) as -> by (apply to_byte_id; unfold is_byte; lia).
  destruct (scroll_lines_spec k 8 0 fb) as (_ & Hrows & _); [lia | lia | lia | exact Hl |].
  destruct Hcy as [Hc Hy]. change ARGB_MAX_Y with 8 in Hy. change ARGB_MAX_X with 8 in Hc.
  unfold pixel_at, pixel_offset. change ARGB_MAX_X with 8.
  assert (forall ch, 0 <= ch < 3 ->
            peek (scroll_lines 8 k fb (24 * 0 + 23)) (3 * (8 - 1 - c + y * 8) + ch) =
            if 3 * k <=? 3 * (8 - 1 - c) + ch
            then peek fb (3 * (8 - 1 - (c + k) + y * 8) + ch) else 0) as Hch.
  { intros ch Hch.
    replace (3 * (8 - 1 - c + y * 8) + ch) with (24 * y + (3 * (8 - 1 - c) + ch)) by lia.
    rewrite Hrows by lia.
    destruct (3 * k <=? 3 * (8 - 1 - c) + ch); [| reflexivity].
    f_equal. lia. }
  pose proof (Hch 0 ltac:(lia)) as H0. rewrite !Z.add_0_r in H0.
  pose proof (Hch 1 ltac:(lia)) as H1.
  pose proof (Hch 2 ltac:(lia)) as H2.
  rewrite H0, H1, H2. split; intros Hcase.
  - destruct (Z.leb_spec (3 * k) (3 * (8 - 1 - c))); [| lia].
    destruct (Z.leb_spec (3 * k) (3 * (8 - 1 - c) + 1)); [| lia].
    destruct (Z.leb_spec (3 * k) (3 * (8 - 1 - c) + 2)); [| lia].
    reflexivity.
  - destruct (Z.leb_spec (3 * k) (3 * (8 - 1 - c))); [lia |].
    destruct (Z.leb_spec (3 * k) (3 * (8 - 1 - c) + 1)); [lia |].
    destruct (Z.leb_spec (3 * k) (3 * (8 - 1 - c) + 2)); [lia |].
    reflexivity.
Qed.

Lemma ScrollLeft_shifts_witness :
  let fb := map Z.of_nat (seq 0 192) in
  Z.of_nat (length fb) = FB_BYTES /\ 0 <= 3 < ARGB_MAX_X /\ in_range 2 1 /\
  pixel_at (ScrollLeft fb 3) 2 1 = pixel_at fb 5 1 /\
  pixel_at (ScrollLeft fb 3) 6 1 = mkPixel 0 0 0.
Proof.
  intros fb.
  assert (Z.of_nat (length fb) = FB_BYTES) as Hl by reflexivity.
  assert (0 <= 3 < ARGB_MAX_X) as Hk by (geometry; lia).
  assert (in_range 2 1) as H21 by (geometry; lia).
  assert (in_range 6 1) as H61 by (geometry; lia).
  split; [exact Hl |]. split; [exact Hk |]. split; [exact H21 |]. split.
  - apply (proj1 (ScrollLeft_shifts fb 3 2 1 Hl Hk H21)). geometry. lia.
  - apply (proj2 (ScrollLeft_shifts fb 3 6 1 Hl Hk H61)). geometry. lia.
Defined.

(** ** The shapes clip *)

Lemma plot_in_range_intro x y color :
  0 <= x < ARGB_MAX_X -> 0 <= y < ARGB_MAX_Y -> plot_in_range (mkPlot x y color).
Proof. intros Hx Hy. split; assumption. Qed.

Lemma Forall_flat_map_in {A B} (P : B -> Prop) (f : A -> list B) (l : list A) :
  (forall a, a ∈ l -> Forall P (f a)) -> Forall P (flat_map f l).
Proof.
  intros Hf. induction l as [| a l IH]; cbn [flat_map]; [constructor |].
  apply Forall_app. split; [apply Hf; left |].
  apply IH. intros b Hb. apply Hf. right. exact Hb.
Qed.

Lemma Forall_flat_map {A B} (P : B -> Prop) (f : A -> list B) (l : list A) :
  (forall a, Forall P (f a)) -> Forall P (flat_map f l).
Proof. intros Hf. apply Forall_flat_map_in. intros a _. apply Hf. Qed.

(** After the clipping loop either the coordinate is not negative or no
    length is left. *)
Lemma skip_negative_spec w x :
  0 <= fst (skip_negative w x) \/ snd (skip_negative w x) = O.
Proof.
  revert x. induction w as [| w IH]; intros x; cbn [skip_negative].
  - right. reflexivity.
  - destruct (Z.ltb_spec x 0); [apply IH | left; assumption].
Qed.

Lemma hline_run_in_range w x y color :
  0 <= x -> 0 <= y < ARGB_MAX_Y -> Forall plot_in_range (hline_run w x y color).
Proof.
  intros Hx Hy. revert x Hx. induction w as [| w IH]; intros x Hx;
    cbn [hline_run]; [constructor |].
  destruct (Z.ltb_spec x ARGB_MAX_X); [| constructor].
  constructor; [apply plot_in_range_intro; lia | apply IH; lia].
Qed.

Lemma vline_run_in_range w x y color :
  0 <= x < ARGB_MAX_X -> 0 <= y -> Forall plot_in_range (vline_run w x y color).
Proof.
  intros Hx Hy. revert y Hy. induction w as [| w IH]; intros y Hy;
    cbn [vline_run]; [constructor |].
  destruct (Z.ltb_spec y ARGB_MAX_Y); [| constructor].
  constructor; [apply plot_in_range_intro; lia | apply IH; lia].
Qed.

Lemma HLine_in_range x y w color : Forall plot_in_range (HLine x y w color).
Proof.
  unfold HLine. cbv zeta.
  destruct (Z.leb_spec 0 y); cbn [andb]; [| constructor].
  destruct (Z.ltb_spec y ARGB_MAX_Y); [| constructor].
  pose proof (skip_negative_spec (Z.to_nat (to_byte w)) x) as Hskip.
  destruct (skip_negative (Z.to_nat (to_byte w)) x) as [x' w'].
  cbn [fst snd] in Hskip. destruct Hskip as [Hx | ->].
  - apply hline_run_in_range; lia.
  - constructor.
Qed.

Lemma VLine_in_range x y w color : Forall plot_in_range (VLine x y w color).
Proof.
  unfold VLine. cbv zeta.
  destruct (Z.leb_spec 0 x); cbn [andb]; [| constructor].
  destruct (Z.ltb_spec x ARGB_MAX_X); [| constructor].
  pose proof (skip_negative_spec (Z.to_nat (to_byte w)) y) as Hskip.
  destruct (skip_negative (Z.to_nat (to_byte w)) y) as [y' w'].
  cbn [fst snd] in Hskip. destruct Hskip as [Hy | ->].
  - apply vline_run_in_range; lia.
  - constructor.
Qed.

Lemma DrawRect_in_range x1 y1 x2 y2 color :
  Forall plot_in_range (DrawRect x1 y1 x2 y2 color).
Proof.
  unfold DrawRect. repeat (apply Forall_app; split);
    try apply HLine_in_range.
  destruct (y1 <? y2); [| constructor].
  apply Forall_app. split; apply VLine_in_range.
Qed.

(** The unrolled loop draws inside the row and never moves [tx] back. *)
Lemma fill_quads_spec tw tx y color :
  0 <= tx -> 0 <= y < ARGB_MAX_Y ->
  Forall plot_in_range (fst (fst (fill_quads tw tx y color))) /\
  0 <= snd (fst (fill_quads tw tx y color)).
Proof.
  intros Htx Hy. revert tx Htx.
  induction tw as [tw IH] using (well_founded_induction lt_wf). intros tx Htx.
  destruct tw as [| [| [| [| tw']]]]; cbn [fill_quads fst snd];
    try (split; [constructor | assumption]).
  destruct (Z.ltb_spec tx (ARGB_MAX_X - 3)); cbn [fst snd];
    [| split; [constructor | assumption]].
  destruct (IH tw' ltac:(lia) (tx + 4) ltac:(lia)) as [Hrest Htx'].
  destruct (fill_quads tw' (tx + 4) y color) as [[rest tx'] tw''].
  cbn [fst snd] in *. split; [| exact Htx'].
  repeat (constructor; [apply plot_in_range_intro; lia |]). exact Hrest.
Qed.

Lemma fill_quads_nothing tx y color : fill_quads 0 tx y color = ([], tx, O).
Proof. reflexivity. Qed.

Lemma fill_rows_in_range h x y w color :
  0 <= x \/ w = O -> 0 <= y -> Forall plot_in_range (fill_rows h x y w color).
Proof.
  intros Hx. revert y. induction h as [| h IH]; intros y Hy;
    cbn [fill_rows]; [constructor |].
  destruct (Z.ltb_spec y ARGB_MAX_Y); [| constructor].
  destruct Hx as [Hx | ->].
  - destruct (fill_quads_spec w x y color Hx ltac:(lia)) as [Hq Htx].
    destruct (fill_quads w x y color) as [[quads tx] tw]. cbn [fst snd] in *.
    apply Forall_app. split; [exact Hq |].
    apply Forall_app. split; [apply hline_run_in_range; lia |].
    apply IH. lia.
  - rewrite fill_quads_nothing. cbn [app hline_run]. apply IH. lia.
Qed.

Lemma FillRect_in_range x y w h color :
  Forall plot_in_range (FillRect x y w h color).
Proof.
  unfold FillRect. cbv zeta.
  pose proof (skip_negative_spec (Z.to_nat (to_byte w)) x) as Hx.
  destruct (skip_negative (Z.to_nat (to_byte w)) x) as [x' w'].
  pose proof (skip_negative_spec (Z.to_nat (to_byte h)) y) as Hy.
  destruct (skip_negative (Z.to_nat (to_byte h)) y) as [y' h'].
  cbn [fst snd] in *. destruct Hy as [Hy | ->]; [| constructor].
  apply fill_rows_in_range; assumption.
Qed.

Lemma fill_circle_loop_in_range fuel poX poY x y err color :
  Forall plot_in_range (fill_circle_loop fuel poX poY x y err color).
Proof.
  revert x y err. induction fuel as [| fuel IH]; intros x y err;
    cbn [fill_circle_loop]; [constructor |].
  apply Forall_app. split; [apply VLine_in_range |].
  apply Forall_app. split; [apply VLine_in_range |].
  destruct (circle_step x y err) as [[x' y'] err'].
  destruct (x' <=? 0); [apply IH | constructor].
Qed.

Lemma line_loop_in_range fuel x0 y0 x1 y1 dx dy sx sy err color :
  Forall plot_in_range (line_loop fuel x0 y0 x1 y1 dx dy sx sy err color).
Proof.
  revert x0 y0 err. induction fuel as [| fuel IH]; intros x0 y0 err;
    cbn [line_loop]; [constructor |].
  apply Forall_app. split.
  - destruct (Z.leb_spec 0 x0); cbn [andb]; [| constructor].
    destruct (Z.ltb_spec x0 ARGB_MAX_X); cbn [andb]; [| constructor].
    destruct (Z.leb_spec 0 y0); cbn [andb]; [| constructor].
    destruct (Z.ltb_spec y0 ARGB_MAX_Y); [| constructor].
    constructor; [apply plot_in_range_intro; lia | constructor].
  - cbv zeta.
    destruct ((to_char (2 * err) >=? dy) && (x0 =? x1)); [constructor |].
    destruct (to_char (2 * err) >=? dy);
      (destruct ((to_char (2 * err) <=? dx) && (_ =? y1)); [constructor |]);
      destruct (to_char (2 * err) <=? dx); apply IH.
Qed.

Lemma digit_strip_in_range cdata plot_x py color :
  0 <= plot_x < ARGB_MAX_X -> Forall plot_in_range (digit_strip cdata plot_x py color).
Proof.
  intros Hx. unfold digit_strip. apply Forall_flat_map. intros y. cbv zeta.
  destruct (Z.leb_spec 0 (py + y)); cbn [andb]; [| constructor].
  destruct (Z.ltb_spec (py + y) ARGB_MAX_Y); [| constructor].
  destruct (negb _); [| constructor].
  constructor; [apply plot_in_range_intro; lia | constructor].
Qed.

Lemma DrawDigit_in_range digit px py color :
  Forall plot_in_range (DrawDigit digit px py color).
Proof.
  unfold DrawDigit. cbv zeta. apply Forall_flat_map. intros i.
  destruct (Z.leb_spec 0 (px + i)); cbn [andb]; [| constructor].
  destruct (Z.ltb_spec (px + i) ARGB_MAX_X); [| constructor].
  apply digit_strip_in_range. lia.
Qed.

Lemma BlendDigits_in_range digit1 digit2 blend px py color :
  Forall plot_in_range (BlendDigits digit1 digit2 blend px py color).
Proof.
  unfold BlendDigits. cbv zeta. apply Forall_app. split.
  - destruct (negb _); [apply DrawDigit_in_range | constructor].
  - destruct (_ && _); [apply DrawDigit_in_range | constructor].
Qed.

(** [DrawChar] tests the column only: the rows drawn are among
    [py .. py + 7], wherever the glyph has a bit set. *)
Lemma char_column_rows col px py i color :
  Forall (fun c => plot_x c = px + i /\ py <= plot_y c <= py + 7)
         (char_column col px py i color).
Proof.
  unfold char_column. apply Forall_flat_map_in. intros f Hf.
  destruct (negb _); [| constructor].
  constructor; [| constructor]. cbn [plot_x plot_y].
  repeat (apply elem_of_cons in Hf; destruct Hf as [-> | Hf]; [lia |]).
  apply elem_of_nil in Hf. contradiction.
Qed.

Lemma char_columns_plots font cols width ascii px py color :
  Forall (fun c => 0 <= plot_x c < ARGB_MAX_X /\ py <= plot_y c <= py + 7)
         (fst (char_columns font cols width ascii px py color)).
Proof.
  revert width. induction cols as [| i cols IH]; intros width;
    cbn [char_columns fst]; [constructor |].
  destruct (negb (font (ascii - 32) i =? 0)); [| apply IH].
  specialize (IH (if width =? 0 then i else width)).
  destruct (char_columns font cols (if width =? 0 then i else width) ascii px py color)
    as [rest w].
  cbn [fst] in *. apply Forall_app. split; [| exact IH].
  destruct (Z.leb_spec 0 (px + i)); cbn [andb]; [| constructor].
  destruct (Z.ltb_spec (px + i) ARGB_MAX_X); [| constructor].
  eapply Forall_impl; [apply char_column_rows |].
  cbn beta. intros c [Hx Hy]. split; [lia | exact Hy].
Qed.

(** C2 (as amended): [HLine], [VLine], [DrawRect], [FillRect],
    [FillCircle], [DrawLine] and [DrawDigit] call [SetPixel] at in-range
    coordinates only, whatever their arguments and however long the loops
    of the last two are followed; [DrawChar] never calls it with [x]
    outside the buffer, and never with [y] outside when the eight rows
    from [py] on are inside.  Nothing is said of [DrawCircle]. *)
Theorem shapes_clip :
  (forall x y w color, Forall plot_in_range (HLine x y w color)) /\
  (forall x y w color, Forall plot_in_range (VLine x y w color)) /\
  (forall x1 y1 x2 y2 color, Forall plot_in_range (DrawRect x1 y1 x2 y2 color)) /\
  (forall x y w h color, Forall plot_in_range (FillRect x y w h color)) /\
  (forall fuel poX poY r color,
     Forall plot_in_range (FillCircle fuel poX poY r color)) /\
  (forall fuel x0 y0 x1 y1 color,
     Forall plot_in_range (DrawLine fuel x0 y0 x1 y1 color)) /\
  (forall digit px py color, Forall plot_in_range (DrawDigit digit px py color)) /\
  (forall font ascii px py color,
     Forall (fun c => 0 <= plot_x c < ARGB_MAX_X)
            (fst (DrawChar font ascii px py color))) /\
  (forall font ascii px py color,
     0 <= py <= ARGB_MAX_Y - 8 ->
     Forall plot_in_range (fst (DrawChar font ascii px py color))).
Proof.
  split; [exact HLine_in_range |]. split; [exact VLine_in_range |].
  split; [exact DrawRect_in_range |]. split; [exact FillRect_in_range |].
  split; [intros; apply fill_circle_loop_in_range |].
  split; [intros; apply line_loop_in_range |].
  split; [exact DrawDigit_in_range |]. split.
  - intros font ascii px py color. unfold DrawChar. cbv zeta.
    eapply Forall_impl; [apply char_columns_plots |].
    cbn beta. intros c [Hx _]. exact Hx.
  - intros font ascii px py color Hpy. unfold DrawChar. cbv zeta.
    eapply Forall_impl; [apply char_columns_plots |].
    cbn beta. intros c [Hx Hy]. split; [exact Hx | lia].
Qed.

Lemma shapes_clip_witness :
  0 <= 0 <= ARGB_MAX_Y - 8 /\
  Forall plot_in_range (fst (DrawChar bar_font 0x41 (-1) 0 7)).
Proof.
  assert (0 <= 0 <= ARGB_MAX_Y - 8) as Hpy by (geometry; lia).
  split; [exact Hpy |].
  destruct shapes_clip as (_ & _ & _ & _ & _ & _ & _ & _ & Hchar).
  apply Hchar. exact Hpy.
Defined.

(** C2 as stated fails: [DrawCircle] hands every point of the circle to
    [SetPixel] untested, and [DrawChar] tests no row. *)
Lemma shapes_clip_counterexample :
  In (mkPlot (-1) 0 7) (DrawCircle 1 0 0 1 7) /\
  ~ plot_in_range (mkPlot (-1) 0 7) /\
  In (mkPlot 8 4 7) (DrawCircle 1 4 4 4 7) /\
  ~ plot_in_range (mkPlot 8 4 7) /\
  In (mkPlot 0 8 7) (fst (DrawChar bar_font 0x41 0 2 7)) /\
  ~ plot_in_range (mkPlot 0 8 7).
Proof.
  split; [vm_compute; tauto |]. split; [unfold plot_in_range; geometry; cbn; lia |].
  split; [vm_compute; tauto |]. split; [unfold plot_in_range; geometry; cbn; lia |].
  split; [vm_compute; tauto |]. unfold plot_in_range; geometry; cbn; lia.
Qed.

(** ** Packed colours and their blends *)

(** Packing a field above the bits of [x] is an addition. *)
Lemma lor_shiftl_add x y k :
  0 <= k -> 0 <= x < 2 ^ k -> Z.lor x (Z.shiftl y k) = x + 2 ^ k * y.
Proof.
  intros Hk Hx.
  assert (Z.land x (Z.shiftl y k) = 0) as Hdisj.
  { apply Z.bits_inj'. intros n Hn.
    rewrite Z.land_spec, Z.bits_0.
    destruct (Z.lt_ge_cases n k) as [Hlt | Hge].
    - rewrite Z.shiftl_spec_low by lia. apply andb_false_r.
    - rewrite <- (Z.mod_small x (2 ^ k)) by lia.
      rewrite Z.mod_pow2_bits_high by lia. reflexivity. }
  rewrite <- Z.lxor_lor by exact Hdisj.
  rewrite <- Z.add_nocarry_lxor by exact Hdisj.
  rewrite Z.shiftl_mul_pow2 by lia. lia.
Qed.

Lemma MakeARGB_sum a r g b :
  is_byte r -> is_byte g -> is_byte b ->
  MakeARGB a r g b = b + 256 * g + 65536 * r + 16777216 * a.
Proof.
  unfold is_byte, MakeARGB. intros Hr Hg Hb.
  rewrite (lor_shiftl_add b g 8) by lia.
  rewrite (lor_shiftl_add _ r 16) by lia.
  rewrite (lor_shiftl_add _ a 24) by lia.
  lia.
Qed.

Lemma color_byte_div c k :
  0 <= k -> color_byte c k = (c / 2 ^ (8 * k)) mod 256.
Proof. intros Hk. unfold color_byte. rewrite Z.shiftr_div_pow2 by lia. reflexivity. Qed.

Lemma MakeARGB_channels a r g b :
  is_byte a -> is_byte r -> is_byte g -> is_byte b ->
  alpha (MakeARGB a r g b) = a /\ red (MakeARGB a r g b) = r /\
  green (MakeARGB a r g b) = g /\ blue (MakeARGB a r g b) = b.
Proof.
  intros Ha Hr Hg Hb. rewrite MakeARGB_sum by assumption.
  unfold alpha, red, green, blue. rewrite !color_byte_div by lia.
  unfold is_byte in *.
  change (2 ^ (8 * 3)) with 16777216. change (2 ^ (8 * 2)) with 65536.
  change (2 ^ (8 * 1)) with 256. change (2 ^ (8 * 0)) with 1.
  repeat split; Z.div_mod_to_equations; lia.
Qed.

Lemma bytes_of_word c :
  0 <= c < 4294967296 ->
  c mod 256 + 256 * ((c / 256) mod 256) + 65536 * ((c / 65536) mod 256)
  + 16777216 * ((c / 16777216) mod 256) = c /\
  c mod 256 + 256 * ((c / 256) mod 256) + 65536 * ((c / 65536) mod 256)
  = c mod 16777216.
Proof.
  intros Hc.
  change 65536 with (256 * 256). change 16777216 with (256 * 256 * 256).
  rewrite <- !Z.div_div by lia.
  assert (0 <= c / 256 / 256 / 256 < 256) as Htop.
  { split; [repeat apply Z.div_pos; lia |].
    repeat apply Z.div_lt_upper_bound; lia. }
  rewrite (Z.mod_small (c / 256 / 256 / 256)) by exact Htop.
  pose proof (Z.div_mod c 256 ltac:(lia)).
  pose proof (Z.div_mod (c / 256) 256 ltac:(lia)).
  pose proof (Z.div_mod (c / 256 / 256) 256 ltac:(lia)).
  pose proof (Z.mod_pos_bound c 256 ltac:(lia)).
  pose proof (Z.mod_pos_bound (c / 256) 256 ltac:(lia)).
  pose proof (Z.mod_pos_bound (c / 256 / 256) 256 ltac:(lia)).
  split; [lia |].
  apply (Z.mod_unique_pos _ _ (c / 256 / 256 / 256)); lia.
Qed.

(** X1: [MakeARGB] and the channel accessors are inverse to each other: the four
    bytes packed by [MakeARGB a r g b] are read back as alpha, red, green
    and blue, and packing the four channels of any 32-bit colour gives the
    colour back. *)
Theorem MakeARGB_round_trip a r g b c :
  is_byte a -> is_byte r -> is_byte g -> is_byte b -> 0 <= c < 4294967296 ->
  (alpha (MakeARGB a r g b) = a /\ red (MakeARGB a r g b) = r /\
   green (MakeARGB a r g b) = g /\ blue (MakeARGB a r g b) = b) /\
  MakeARGB (alpha c) (red c) (green c) (blue c) = c.
Proof.
  intros Ha Hr Hg Hb Hc. split; [apply MakeARGB_channels; assumption |].
  rewrite MakeARGB_sum by apply color_byte_is_byte.
  unfold alpha, red, green, blue. rewrite !color_byte_div by lia.
  change (2 ^ (8 * 3)) with 16777216. change (2 ^ (8 * 2)) with 65536.
  change (2 ^ (8 * 1)) with 256. change (2 ^ (8 * 0)) with 1.
  rewrite Z.div_1_r. apply bytes_of_word. exact Hc.
Qed.

Lemma MakeARGB_round_trip_witness :
  alpha (MakeARGB 0xFF 0x80 0x20 0x01) = 0xFF /\
  MakeARGB (alpha 0xFF802001) (red 0xFF802001) (green 0xFF802001)
           (blue 0xFF802001) = 0xFF802001.
Proof.
  assert (is_byte 0xFF) as Ha by (unfold is_byte; lia).
  assert (is_byte 0x80) as Hr by (unfold is_byte; lia).
  assert (is_byte 0x20) as Hg by (unfold is_byte; lia).
  assert (is_byte 0x01) as Hb by (unfold is_byte; lia).
  assert (0 <= 0xFF802001 < 4294967296) as Hc by lia.
  destruct (MakeARGB_round_trip 0xFF 0x80 0x20 0x01 0xFF802001 Ha Hr Hg Hb Hc)
    as [(Halpha & _) Hword].
  split; [exact Halpha | exact Hword].
Defined.

(** X2: [SetAlpha] overwrites the top byte of a colour and nothing else: the
    result is the colour repacked with the new alpha, and its red, green
    and blue channels are those of the argument. *)
Theorem SetAlpha_replaces_alpha_only color a :
  0 <= color < 4294967296 -> is_byte a ->
  SetAlpha color a = MakeARGB a (red color) (green color) (blue color) /\
  alpha (SetAlpha color a) = a /\
  red (SetAlpha color a) = red color /\
  green (SetAlpha color a) = green color /\
  blue (SetAlpha color a) = blue color.
Proof.
  intros Hc Ha.
  assert (SetAlpha color a = MakeARGB a (red color) (green color) (blue color)) as E.
  { rewrite MakeARGB_sum by apply color_byte_is_byte.
    unfold SetAlpha.
    rewrite (lor_shiftl_add (color mod 16777216) a 24)
      by (try lia; apply Z.mod_pos_bound; lia).
    unfold red, green, blue. rewrite !color_byte_div by lia.
    change (2 ^ 24) with 16777216. change (2 ^ (8 * 2)) with 65536.
    change (2 ^ (8 * 1)) with 256. change (2 ^ (8 * 0)) with 1.
    rewrite Z.div_1_r. rewrite (proj2 (bytes_of_word color Hc)). lia. }
  split; [exact E |]. rewrite E.
  destruct (MakeARGB_channels a (red color) (green color) (blue color))
    as (H1 & H2 & H3 & H4); try apply color_byte_is_byte; [exact Ha |].
  auto.
Qed.

Lemma SetAlpha_replaces_alpha_only_witness :
  SetAlpha 0xFF802001 0x40 = 0x40802001.
Proof.
  destruct (SetAlpha_replaces_alpha_only 0xFF802001 0x40) as [E _];
    [lia | unfold is_byte; lia |].
  rewrite E. reflexivity.
Defined.

(** The weights of [BlendARGB] after the fade: two bytes of sum at most
    255, so that no 16-bit sum wraps. *)
Lemma blend_weights ratio fade :
  is_byte ratio -> is_byte fade ->
  let ratio1 := ratio in
  let ratio2 := to_byte (Z.lnot ratio1) in
  let w := if negb (fade =? 255)
           then (to_byte (Z.shiftr (to_uint (fade * ratio1)) 8),
                 to_byte (Z.shiftr (to_uint (fade * ratio2)) 8))
           else (ratio1, ratio2) in
  0 <= fst w /\ 0 <= snd w /\ fst w + snd w <= 255 /\
  (fade = 0 -> fst w = 0 /\ snd w = 0).
Proof.
  intros Hr Hf. cbv zeta. rewrite (byte_lnot _ Hr).
  unfold is_byte in *.
  destruct (Z.eqb_spec fade 255) as [-> | Hne]; cbn [negb fst snd].
  - repeat split; try lia.
  - unfold to_byte, to_uint.
    assert (0 <= fade * ratio <= 254 * 255) by nia.
    assert (0 <= fade * (255 - ratio) <= 254 * 255) by nia.
    rewrite !Z.shiftr_div_pow2 by lia. change (2 ^ 8) with 256.
    rewrite (Z.mod_small (fade * ratio)) by lia.
    rewrite (Z.mod_small (fade * (255 - ratio))) by lia.
    assert (0 <= fade * ratio / 256 <= 254).
    { split; [apply Z.div_pos; lia |]. apply Z.div_le_upper_bound; lia. }
    assert (0 <= fade * (255 - ratio) / 256 <= 254).
    { split; [apply Z.div_pos; lia |]. apply Z.div_le_upper_bound; lia. }
    rewrite !Z.mod_small by lia.
    assert (fade * ratio / 256 + fade * (255 - ratio) / 256 <= 255).
    { assert (fade * ratio + fade * (255 - ratio) = fade * 255) as E by lia.
      pose proof (Z.div_mod (fade * ratio) 256 ltac:(lia)).
      pose proof (Z.div_mod (fade * (255 - ratio)) 256 ltac:(lia)).
      pose proof (Z.mod_pos_bound (fade * ratio) 256 ltac:(lia)).
      pose proof (Z.mod_pos_bound (fade * (255 - ratio)) 256 ltac:(lia)).
      nia. }
    split; [lia |]. split; [lia |]. split; [lia |].
    intros ->. split; reflexivity.
Qed.

Lemma mix_bound w1 w2 c1 c2 :
  0 <= w1 -> 0 <= w2 -> w1 + w2 <= 255 -> is_byte c1 -> is_byte c2 ->
  let m := to_byte (Z.shiftr (to_uint (to_uint (w2 * c1) + to_uint (w1 * c2))) 8) in
  m = (w2 * c1 + w1 * c2) / 256 /\ 0 <= m <= Z.max c1 c2.
Proof.
  unfold is_byte. intros H1 H2 Hs Hc1 Hc2. cbv zeta.
  assert (0 <= w2 * c1 <= w2 * Z.max c1 c2) by nia.
  assert (0 <= w1 * c2 <= w1 * Z.max c1 c2) by nia.
  assert (w2 * Z.max c1 c2 + w1 * Z.max c1 c2 <= 255 * Z.max c1 c2) by nia.
  unfold to_byte, to_uint.
  rewrite (Z.mod_small (w2 * c1)) by lia.
  rewrite (Z.mod_small (w1 * c2)) by lia.
  rewrite (Z.mod_small (_ + _)) by lia.
  rewrite Z.shiftr_div_pow2 by lia. change (2 ^ 8) with 256.
  assert (0 <= (w2 * c1 + w1 * c2) / 256 <= Z.max c1 c2).
  { split; [apply Z.div_pos; lia |]. apply Z.div_le_upper_bound; lia. }
  rewrite Z.mod_small by lia. split; [reflexivity | lia].
Qed.

Lemma BlendARGB_channels c1 c2 ratio fade :
  exists w1 w2,
    0 <= w1 /\ 0 <= w2 /\ w1 + w2 <= 255 /\
    (to_byte fade = 255 -> w1 = to_byte ratio /\ w2 = 255 - to_byte ratio) /\
    (to_byte fade = 0 -> w1 = 0 /\ w2 = 0) /\
    red (BlendARGB c1 c2 ratio fade) = (w2 * red c1 + w1 * red c2) / 256 /\
    green (BlendARGB c1 c2 ratio fade) = (w2 * green c1 + w1 * green c2) / 256 /\
    blue (BlendARGB c1 c2 ratio fade) = (w2 * blue c1 + w1 * blue c2) / 256 /\
    alpha (BlendARGB c1 c2 ratio fade) =
      to_byte (Z.shiftr (to_uint (to_uint (to_uint (Z.lnot (to_byte ratio)) * alpha c1)
                                  + to_uint (to_byte ratio * alpha c2))) 8).
Proof.
  pose proof (blend_weights (to_byte ratio) (to_byte fade)
                (to_byte_is_byte _) (to_byte_is_byte _)) as Hw.
  cbv zeta in Hw. unfold BlendARGB. cbv zeta.
  destruct (if negb (to_byte fade =? 255)
            then (to_byte (Z.shiftr (to_uint (to_byte fade * to_byte ratio)) 8),
                  to_byte (Z.shiftr (to_uint (to_byte fade * to_byte (Z.lnot (to_byte ratio)))) 8))
            else (to_byte ratio, to_byte (Z.lnot (to_byte ratio))))
    as [w1 w2] eqn:Ew.
  cbn [fst snd] in Hw. destruct Hw as (H1 & H2 & Hs & Hzero).
  exists w1, w2. split; [exact H1 |]. split; [exact H2 |]. split; [exact Hs |].
  split.
  { intros Hf. rewrite Hf in Ew. cbn in Ew.
    rewrite (byte_lnot _ (to_byte_is_byte ratio)) in Ew.
    injection Ew as <- <-. split; reflexivity. }
  split; [exact Hzero |].
  destruct (MakeARGB_channels
    (to_byte (Z.shiftr (to_uint (to_uint (to_uint (Z.lnot (to_byte ratio)) * color_byte c1 3)
                                 + to_uint (to_byte ratio * color_byte c2 3))) 8))
    (to_byte (Z.shiftr (to_uint (to_uint (w2 * color_byte c1 2) + to_uint (w1 * color_byte c2 2))) 8))
    (to_byte (Z.shiftr (to_uint (to_uint (w2 * color_byte c1 1) + to_uint (w1 * color_byte c2 1))) 8))
    (to_byte (Z.shiftr (to_uint (to_uint (w2 * color_byte c1 0) + to_uint (w1 * color_byte c2 0))) 8)))
    as (Ha & Hr & Hg & Hb); try apply to_byte_is_byte.
  rewrite Ha, Hr, Hg, Hb. unfold red, green, blue, alpha.
  repeat split;
    try (apply (mix_bound w1 w2); solve [assumption | apply color_byte_is_byte]).
Qed.

Lemma div_le_max w1 w2 x y :
  0 <= w1 -> 0 <= w2 -> w1 + w2 <= 255 -> 0 <= x -> 0 <= y ->
  (w2 * x + w1 * y) / 256 <= Z.max x y.
Proof.
  intros H1 H2 Hs Hx Hy. apply Z.div_le_upper_bound; [lia |].
  assert (w2 * x <= w2 * Z.max x y) by nia.
  assert (w1 * y <= w1 * Z.max x y) by nia.
  nia.
Qed.

Lemma BlendARGB_alpha_formula c1 c2 ratio fade :
  alpha (BlendARGB c1 c2 ratio fade) =
    ((65535 - to_byte ratio) * alpha c1 + to_byte ratio * alpha c2) mod 65536 / 256.
Proof.
  destruct (BlendARGB_channels c1 c2 ratio fade)
    as (w1 & w2 & _ & _ & _ & _ & _ & _ & _ & _ & Ha).
  rewrite Ha.
  pose proof (to_byte_is_byte ratio) as Hr. unfold is_byte in Hr.
  set (r := to_byte ratio) in *.
  unfold Z.lnot, to_uint.
  assert (Z.pred (- r) mod 65536 = 65535 - r) as ->.
  { symmetry. apply (Z.mod_unique_pos _ _ (-1)); lia. }
  rewrite <- Zplus_mod.
  rewrite Z.shiftr_div_pow2 by lia. change (2 ^ 8) with 256.
  apply to_byte_id. unfold is_byte.
  pose proof (Z.mod_pos_bound ((65535 - r) * alpha c1 + r * alpha c2) 65536 ltac:(lia)).
  split; [apply Z.div_pos; lia |]. apply Z.div_lt_upper_bound; lia.
Qed.

(** X3: No colour channel (red, green, blue) of [BlendARGB c1 c2 ratio fade]
    is brighter than the brighter of the two inputs in that channel.  At
    full [fade] (255) each colour channel is the [ratio] mix of the two
    inputs, computed as [SetPixel] mixes; at [fade] 0 red, green and blue
    are 0.  The alpha byte is not such a mix and is not bounded by the
    inputs: its first weight is the 16-bit [(unsigned int)(~ratio)], that
    is [65535 - ratio], so with [ratio] 0 any non-zero alpha of [c1] gives
    alpha 255. *)
Theorem BlendARGB_never_brighter c1 c2 ratio fade :
  let c := BlendARGB c1 c2 ratio fade in
  (red c <= Z.max (red c1) (red c2) /\
   green c <= Z.max (green c1) (green c2) /\
   blue c <= Z.max (blue c1) (blue c2)) /\
  (to_byte fade = 255 ->
     red c = blend (to_byte ratio) (red c1) (red c2) /\
     green c = blend (to_byte ratio) (green c1) (green c2) /\
     blue c = blend (to_byte ratio) (blue c1) (blue c2)) /\
  (to_byte fade = 0 -> red c = 0 /\ green c = 0 /\ blue c = 0) /\
  alpha c =
    ((65535 - to_byte ratio) * alpha c1 + to_byte ratio * alpha c2) mod 65536 / 256 /\
  (to_byte ratio = 0 -> 0 < alpha c1 -> alpha c = 255).
Proof.
  cbv zeta.
  destruct (BlendARGB_channels c1 c2 ratio fade)
    as (w1 & w2 & H1 & H2 & Hs & Hfull & Hzero & Hr & Hg & Hb & _).
  pose proof (BlendARGB_alpha_formula c1 c2 ratio fade) as Ha.
  rewrite Hr, Hg, Hb.
  pose proof (color_byte_is_byte c1 0). pose proof (color_byte_is_byte c2 0).
  pose proof (color_byte_is_byte c1 1). pose proof (color_byte_is_byte c2 1).
  pose proof (color_byte_is_byte c1 2). pose proof (color_byte_is_byte c2 2).
  pose proof (color_byte_is_byte c1 3) as Ha1.
  unfold is_byte, red, green, blue in *.
  split; [repeat split; apply div_le_max; lia |]. split.
  { intros Hf. destruct (Hfull Hf) as [-> ->]. unfold blend. repeat split. }
  split.
  { intros Hf. destruct (Hzero Hf) as [-> ->]. repeat split. }
  split; [exact Ha |].
  intros Hr0 Hpos. rewrite Ha, Hr0. unfold alpha in *.
  replace ((65535 - 0) * color_byte c1 3 + 0 * color_byte c2 3)
    with (65535 * color_byte c1 3) by lia.
  assert ((65535 * color_byte c1 3) mod 65536 = 65536 - color_byte c1 3) as ->.
  { symmetry. apply (Z.mod_unique_pos _ _ (color_byte c1 3 - 1)); lia. }
  Z.div_mod_to_equations. lia.
Qed.

Lemma BlendARGB_alpha_opaque c1 c2 ratio fade :
  alpha c1 = 255 -> alpha c2 = 255 -> alpha (BlendARGB c1 c2 ratio fade) = 255.
Proof.
  intros Ha1 Ha2.
  destruct (BlendARGB_channels c1 c2 ratio fade)
    as (w1 & w2 & _ & _ & _ & _ & _ & _ & _ & _ & Ha).
  rewrite Ha, Ha1, Ha2.
  pose proof (to_byte_is_byte ratio) as Hr. unfold is_byte in Hr.
  set (r := to_byte ratio) in *.
  unfold Z.lnot, to_uint.
  assert (Z.pred (- r) mod 65536 = 65535 - r) as ->.
  { symmetry. apply (Z.mod_unique_pos _ _ (-1)); lia. }
  assert (((65535 - r) * 255) mod 65536 = 65536 - 255 * (r + 1)) as ->.
  { symmetry. apply (Z.mod_unique_pos _ _ 254); lia. }
  rewrite (Z.mod_small (r * 255)) by lia.
  replace (65536 - 255 * (r + 1) + r * 255) with 65281 by lia.
  reflexivity.
Qed.

Lemma GetBaseColor_opaque i : alpha (GetBaseColor i) = 255.
Proof.
  unfold GetBaseColor. cbv zeta.
  assert (0 <= to_byte i mod 12 < 12) as Hi by (apply Z.mod_pos_bound; lia).
  assert (to_byte i mod 12 = 0 \/ to_byte i mod 12 = 1 \/ to_byte i mod 12 = 2 \/
          to_byte i mod 12 = 3 \/ to_byte i mod 12 = 4 \/ to_byte i mod 12 = 5 \/
          to_byte i mod 12 = 6 \/ to_byte i mod 12 = 7 \/ to_byte i mod 12 = 8 \/
          to_byte i mod 12 = 9 \/ to_byte i mod 12 = 10 \/ to_byte i mod 12 = 11)
    as Hcases by lia.
  repeat (destruct Hcases as [-> | Hcases]; [reflexivity |]).
  rewrite Hcases. reflexivity.
Qed.

(** X4: Every colour of the base table, and every blend of two of them
    whatever the indices, ratio and fade, has alpha 255; written with
    [SetPixel] at a pixel of the buffer it therefore replaces the pixel by
    its own red, green and blue. *)
Theorem base_colors_are_opaque i j ratio fade fb x y :
  alpha (GetBaseColor i) = 255 /\
  alpha (BlendBaseColors i j ratio fade) = 255 /\
  (wf_fb fb -> in_range x y ->
   pixel_at (SetPixel fb x y (BlendBaseColors i j ratio fade)) x y =
     mkPixel (red (BlendBaseColors i j ratio fade))
             (green (BlendBaseColors i j ratio fade))
             (blue (BlendBaseColors i j ratio fade))).
Proof.
  assert (alpha (BlendBaseColors i j ratio fade) = 255) as Hb.
  { unfold BlendBaseColors. cbv zeta.
    apply BlendARGB_alpha_opaque; apply GetBaseColor_opaque. }
  split; [apply GetBaseColor_opaque |]. split; [exact Hb |].
  intros Hwf Hxy. apply SetPixel_pixel_opaque; assumption.
Qed.

Lemma base_colors_are_opaque_witness :
  pixel_at (SetPixel (replicate (Z.to_nat FB_BYTES) 9) 3 4
              (BlendBaseColors 0 4 128 255)) 3 4
  = mkPixel 126 64 0.
Proof.
  assert (wf_fb (replicate (Z.to_nat FB_BYTES) 9)) as Hwf
    by (apply wf_replicate; unfold is_byte; lia).
  assert (in_range 3 4) as Hxy by (geometry; lia).
  destruct (base_colors_are_opaque 0 4 128 255
              (replicate (Z.to_nat FB_BYTES) 9) 3 4) as (_ & _ & Hpix).
  rewrite (Hpix Hwf Hxy). reflexivity.
Defined.

(** ** More on the pixel compositor *)

(** X5: A [SetPixel] inside the buffer keeps the buffer well formed and changes
    nothing but the three bytes of its own pixel: every other pixel, and
    every byte offset outside the pixel, reads as before. *)
Theorem SetPixel_touches_one_pixel fb x y color :
  wf_fb fb -> in_range x y ->
  wf_fb (SetPixel fb x y color) /\
  (forall x' y', in_range x' y' -> (x', y') <> (x, y) ->
     pixel_at (SetPixel fb x y color) x' y' = pixel_at fb x' y') /\
  (forall q, q < pixel_offset x y \/ pixel_offset x y + 2 < q ->
     peek (SetPixel fb x y color) q = peek fb q).
Proof.
  intros Hwf Hxy. split; [apply SetPixel_wf; exact Hwf |]. split.
  - intros x' y' Hxy' Hne. apply SetPixel_frame; assumption.
  - intros q Hq. apply SetPixel_peek_other. exact Hq.
Qed.

Lemma SetPixel_touches_one_pixel_witness :
  pixel_at (SetPixel (replicate (Z.to_nat FB_BYTES) 9) 3 4 0xFF102030) 4 4
  = mkPixel 9 9 9.
Proof.
  assert (wf_fb (replicate (Z.to_nat FB_BYTES) 9)) as Hwf
    by (apply wf_replicate; unfold is_byte; lia).
  assert (in_range 3 4) as Hxy by (geometry; lia).
  assert (in_range 4 4) as Hxy' by (geometry; lia).
  destruct (SetPixel_touches_one_pixel _ 3 4 0xFF102030 Hwf Hxy) as (_ & Hframe & _).
  rewrite (Hframe 4 4 Hxy') by congruence. reflexivity.
Defined.

Lemma blend_between a bg fg :
  is_byte a -> is_byte bg -> is_byte fg ->
  Z.min bg fg - 1 <= blend a bg fg <= Z.max bg fg.
Proof.
  unfold is_byte, blend. intros Ha Hbg Hfg. split.
  - apply Z.div_le_lower_bound; [lia |].
    assert ((255 - a) * Z.min bg fg <= (255 - a) * bg) by nia.
    assert (a * Z.min bg fg <= a * fg) by nia.
    nia.
  - apply Z.div_le_upper_bound; [lia |].
    assert ((255 - a) * bg <= (255 - a) * Z.max bg fg) by nia.
    assert (a * fg <= a * Z.max bg fg) by nia.
    nia.
Qed.

(** X6: Whatever the alpha, each channel that [SetPixel] leaves in the buffer
    lies between the channel that was there and the channel of the colour
    written, up to one unit lost to the integer division. *)
Theorem SetPixel_channels_stay_between fb x y color :
  wf_fb fb -> in_range x y ->
  let old := pixel_at fb x y in
  let new := pixel_at (SetPixel fb x y color) x y in
  Z.min (pix_r old) (red color) - 1 <= pix_r new <= Z.max (pix_r old) (red color) /\
  Z.min (pix_g old) (green color) - 1 <= pix_g new <= Z.max (pix_g old) (green color) /\
  Z.min (pix_b old) (blue color) - 1 <= pix_b new <= Z.max (pix_b old) (blue color).
Proof.
  intros Hwf Hxy. cbv zeta.
  destruct (Z.eq_dec (alpha color) 255) as [Ha | Ha].
  - rewrite SetPixel_pixel_opaque by assumption. cbn [pix_r pix_g pix_b]. lia.
  - rewrite SetPixel_pixel_blended by assumption. cbv zeta.
    cbn [pix_r pix_g pix_b]. unfold pixel_at. cbn [pix_r pix_g pix_b].
    repeat split;
      apply blend_between;
      solve [ apply color_byte_is_byte | apply peek_is_byte; apply Hwf ].
Qed.

Lemma SetPixel_channels_stay_between_witness :
  let fb := replicate (Z.to_nat FB_BYTES) 10 in
  10 - 1 <= pix_r (pixel_at (SetPixel fb 2 3 0x800A0A0A) 2 3) <= 10.
Proof.
  intros fb.
  assert (wf_fb fb) as Hwf by (apply wf_replicate; unfold is_byte; lia).
  assert (in_range 2 3) as Hxy by (geometry; lia).
  exact (proj1 (SetPixel_channels_stay_between fb 2 3 0x800A0A0A Hwf Hxy)).
Defined.

Lemma fade_channel_exact alpha b :
  is_byte alpha -> is_byte b ->
  fade_channel alpha b = alpha * b / 256 /\
  fade_channel alpha b <= b /\ (0 < b -> fade_channel alpha b < b).
Proof.
  unfold is_byte, fade_channel, to_byte, to_uint. intros Ha Hb.
  assert (0 <= alpha * b <= 255 * b) by nia.
  rewrite (Z.mod_small (alpha * b)) by lia.
  rewrite Z.shiftr_div_pow2 by lia. change (2 ^ 8) with 256.
  assert (0 <= alpha * b / 256) by (apply Z.div_pos; lia).
  assert (0 < b -> alpha * b / 256 < b)
    by (intros Hpos; apply Z.div_lt_upper_bound; lia).
  assert (alpha * b / 256 <= b) by (apply Z.div_le_upper_bound; lia).
  rewrite Z.mod_small by lia. auto.
Qed.

(** X7: [Fade] multiplies every byte of the buffer by alpha / 256, rounded
    down: no byte grows, every non-zero byte strictly shrinks (alpha 255
    included), and alpha 0 clears it. *)
Theorem Fade_scales_every_channel fb alpha q :
  wf_fb fb -> 0 <= q < FB_BYTES ->
  wf_fb (Fade fb alpha) /\
  peek (Fade fb alpha) q = to_byte alpha * peek fb q / 256 /\
  peek (Fade fb alpha) q <= peek fb q /\
  (0 < peek fb q -> peek (Fade fb alpha) q < peek fb q) /\
  (to_byte alpha = 0 -> peek (Fade fb alpha) q = 0).
Proof.
  intros Hwf Hq. split; [apply Fade_wf; exact Hwf |].
  destruct (Fade_spec fb alpha (proj1 Hwf)) as [_ Hpeek].
  rewrite Hpeek by exact Hq.
  destruct (fade_channel_exact (to_byte alpha) (peek fb q))
    as (He & Hle & Hlt); [apply to_byte_is_byte | apply peek_is_byte; apply Hwf |].
  split; [exact He |]. split; [exact Hle |]. split; [exact Hlt |].
  intros Hz. rewrite He, Hz. reflexivity.
Qed.

Lemma Fade_scales_every_channel_witness :
  peek (Fade (replicate (Z.to_nat FB_BYTES) 200) 128) 7 = 128 * 200 / 256.
Proof.
  assert (wf_fb (replicate (Z.to_nat FB_BYTES) 200)) as Hwf
    by (apply wf_replicate; unfold is_byte; lia).
  assert (0 <= 7 < FB_BYTES) as Hq by (geometry; lia).
  destruct (Fade_scales_every_channel _ 128 7 Hwf Hq) as (_ & He & _).
  rewrite He. reflexivity.
Defined.

(** Two buffers of one length with the same bytes are the same buffer. *)
Lemma fb_ext (l1 l2 : list Z) :
  length l1 = length l2 ->
  (forall q, 0 <= q < Z.of_nat (length l1) -> peek l1 q = peek l2 q) ->
  l1 = l2.
Proof.
  intros Hl Hpeek. apply list_eq. intros i.
  destruct (Nat.lt_ge_cases i (length l1)) as [Hlt | Hge].
  - destruct (lookup_lt_is_Some_2 l1 i Hlt) as [v1 H1].
    destruct (lookup_lt_is_Some_2 l2 i ltac:(lia)) as [v2 H2].
    specialize (Hpeek (Z.of_nat i) ltac:(lia)). unfold peek in Hpeek.
    destruct (Z.leb_spec 0 (Z.of_nat i)); [| lia].
    rewrite Nat2Z.id, H1, H2 in Hpeek. cbn in Hpeek. congruence.
  - rewrite !lookup_ge_None_2 by lia. reflexivity.
Qed.

Lemma peek_replicate n v q :
  0 <= q < Z.of_nat n -> peek (replicate n v) q = v.
Proof.
  intros Hq. unfold peek. destruct (Z.leb_spec 0 q); [| lia].
  rewrite lookup_replicate_2 by lia. reflexivity.
Qed.

Lemma ScrollLeft_peek fb k :
  Z.of_nat (length fb) = FB_BYTES -> 0 <= k <= ARGB_MAX_X ->
  length (ScrollLeft fb k) = length fb /\
  forall yy r, 0 <= yy < 8 -> 0 <= r < 24 ->
    peek (ScrollLeft fb k) (24 * yy + r) =
      if 3 * k <=? r then peek fb (24 * yy + r - 3 * k) else 0.
Proof.
  intros Hl Hk. unfold ScrollLeft. cbv zeta.
  change ARGB_MAX_X with 8 in *. change FB_BYTES with 192 in Hl.
  change (Z.to_nat (to_byte ARGB_MAX_Y)) with 8%nat.
  change (3 * (8 - 1) + 2) with (24 * 0 + 23).
  assert (to_byte k = k) as -> by (apply to_byte_id; unfold is_byte; lia).
  destruct (scroll_lines_spec k 8 0 fb) as (Hlen & Hrows & _);
    [lia | lia | lia | exact Hl |].
  split; [exact Hlen |]. intros yy r Hyy Hr. apply Hrows; lia.
Qed.

Lemma Fill_peek fb color k :
  Z.of_nat (length fb) = FB_BYTES -> 0 <= k < 64 ->
  peek (Fill fb color) (3 * k) = green color /\
  peek (Fill fb color) (3 * k + 1) = red color /\
  peek (Fill fb color) (3 * k + 2) = blue color.
Proof.
  intros Hl Hk. unfold Fill. rewrite fill_loop_iter.
  destruct (fill_pixels_spec (to_byte (Z.shiftr color 8))
              (to_byte (Z.shiftr color 16)) (to_byte color)
              (Z.to_nat (to_byte (ARGB_MAX_X * ARGB_MAX_Y / 4)) * 4) fb 0)
    as (fb' & Hrun & _ & Hin & _); [lia | rewrite Hl; vm_compute; discriminate |].
  rewrite Hrun. cbn [fst].
  destruct (Hin k) as (Hr & Hg & Hb).
  { change (Z.of_nat (Z.to_nat (to_byte (ARGB_MAX_X * ARGB_MAX_Y / 4)) * 4))
      with 64. lia. }
  rewrite !Z.add_0_l in *. rewrite Hr, Hg, Hb.
  unfold green, red, blue, color_byte, to_byte. rewrite Z.shiftr_0_r.
  repeat split.
Qed.

(** X8: The ways of blanking the display agree: [Clear] gives the all-zero
    buffer, and so do [Fade] with alpha 0, [ScrollLeft] by the full width
    and [Fill] with a colour whose red, green and blue are zero. *)
Theorem blackout_agrees fb color :
  Z.of_nat (length fb) = FB_BYTES ->
  Clear fb = replicate (Z.to_nat FB_BYTES) 0 /\
  Fade fb 0 = Clear fb /\
  ScrollLeft fb ARGB_MAX_X = Clear fb /\
  (red color = 0 -> green color = 0 -> blue color = 0 -> Fill fb color = Clear fb).
Proof.
  intros Hl.
  assert (Clear fb = replicate (Z.to_nat FB_BYTES) 0) as Hclear.
  { unfold Clear. rewrite drop_ge by lia. apply app_nil_r. }
  split; [exact Hclear |]. rewrite Hclear.
  assert (length (replicate (Z.to_nat FB_BYTES) 0) = length fb) as Hlr
    by (rewrite length_replicate; lia).
  split; [| split].
  - destruct (Fade_spec fb 0 Hl) as [Hlen Hpeek].
    apply fb_ext; [congruence |]. intros q Hq.
    rewrite Hlen in Hq. rewrite Hpeek by lia.
    rewrite peek_replicate by lia. reflexivity.
  - destruct (ScrollLeft_peek fb ARGB_MAX_X Hl) as [Hlen Hpeek];
      [change ARGB_MAX_X with 8; lia |].
    apply fb_ext; [congruence |]. intros q Hq.
    rewrite Hlen, Hl in Hq. change FB_BYTES with 192 in Hq.
    rewrite peek_replicate by (change (Z.to_nat FB_BYTES) with 192%nat; lia).
    replace q with (24 * (q / 24) + q mod 24) by (Z.div_mod_to_equations; lia).
    rewrite Hpeek by (Z.div_mod_to_equations; lia).
    change ARGB_MAX_X with 8.
    destruct (Z.leb_spec (3 * 8) (q mod 24)); [| reflexivity].
    Z.div_mod_to_equations; lia.
  - intros Hr Hg Hb. apply fb_ext.
    + rewrite Fill_length by exact Hl. congruence.
    + intros q Hq. rewrite Fill_length, Hl in Hq by exact Hl.
      change FB_BYTES with 192 in Hq.
      rewrite peek_replicate by (change (Z.to_nat FB_BYTES) with 192%nat; lia).
      destruct (Fill_peek fb color (q / 3) Hl) as (H0 & H1 & H2);
        [Z.div_mod_to_equations; lia |].
      assert (q = 3 * (q / 3) \/ q = 3 * (q / 3) + 1 \/ q = 3 * (q / 3) + 2)
        as [E | [E | E]] by (Z.div_mod_to_equations; lia);
        rewrite E; congruence.
Qed.

Lemma blackout_agrees_witness :
  let fb := map Z.of_nat (seq 0 192) in
  Fade fb 0 = Clear fb /\ ScrollLeft fb ARGB_MAX_X = Clear fb /\
  Fill fb 0xFF000000 = Clear fb.
Proof.
  intros fb.
  assert (Z.of_nat (length fb) = FB_BYTES) as Hl by reflexivity.
  destruct (blackout_agrees fb 0xFF000000 Hl) as (_ & Hfade & Hscroll & Hfill).
  split; [exact Hfade |]. split; [exact Hscroll |].
  apply Hfill; reflexivity.
Defined.

(** X9: Scrolling left by [j] and then by [k] columns is scrolling by [j + k],
    as long as the total does not exceed the width; scrolling by 0 changes
    nothing, and a scroll keeps the size of the buffer and its bytes in
    range. *)
Theorem ScrollLeft_composes fb j k :
  Z.of_nat (length fb) = FB_BYTES -> 0 <= j -> 0 <= k -> j + k <= ARGB_MAX_X ->
  ScrollLeft (ScrollLeft fb j) k = ScrollLeft fb (j + k) /\
  ScrollLeft fb 0 = fb /\
  length (ScrollLeft fb j) = length fb /\
  (Forall is_byte fb -> Forall is_byte (ScrollLeft fb j)).
Proof.
  intros Hl Hj Hk Hjk. change ARGB_MAX_X with 8 in Hjk.
  destruct (ScrollLeft_peek fb j Hl) as [Hlj Hpj]; [change ARGB_MAX_X with 8; lia |].
  destruct (ScrollLeft_peek fb (j + k) Hl) as [Hljk Hpjk];
    [change ARGB_MAX_X with 8; lia |].
  destruct (ScrollLeft_peek fb 0 Hl) as [Hl0 Hp0]; [change ARGB_MAX_X with 8; lia |].
  destruct (ScrollLeft_peek (ScrollLeft fb j) k) as [Hlk Hpk];
    [rewrite Hlj; exact Hl | change ARGB_MAX_X with 8; lia |].
  change FB_BYTES with 192 in Hl.
  split; [| split; [| split]].
  - apply fb_ext; [congruence |]. intros q Hq. rewrite Hlk, Hlj, Hl in Hq.
    replace q with (24 * (q / 24) + q mod 24) by (Z.div_mod_to_equations; lia).
    rewrite Hpk, Hpjk by (Z.div_mod_to_equations; lia).
    destruct (Z.leb_spec (3 * k) (q mod 24)) as [Hc | Hc].
    + replace (24 * (q / 24) + q mod 24 - 3 * k)
        with (24 * (q / 24) + (q mod 24 - 3 * k)) by lia.
      rewrite Hpj by (Z.div_mod_to_equations; lia).
      destruct (Z.leb_spec (3 * j) (q mod 24 - 3 * k));
        destruct (Z.leb_spec (3 * (j + k)) (q mod 24)); try lia.
      f_equal. lia.
    + destruct (Z.leb_spec (3 * (j + k)) (q mod 24)); [lia | reflexivity].
  - apply fb_ext; [congruence |]. intros q Hq. rewrite Hl0, Hl in Hq.
    replace q with (24 * (q / 24) + q mod 24) at 1 by (Z.div_mod_to_equations; lia).
    rewrite Hp0 by (Z.div_mod_to_equations; lia).
    destruct (Z.leb_spec (3 * 0) (q mod 24)); [| Z.div_mod_to_equations; lia].
    f_equal. Z.div_mod_to_equations; lia.
  - exact Hlj.
  - intros Hb. apply Forall_lookup_2. intros i b Hi.
    assert (0 <= Z.of_nat i < 192) as Hrange
      by (apply lookup_lt_Some in Hi; lia).
    assert (peek (ScrollLeft fb j) (Z.of_nat i) = b) as <-.
    { unfold peek. destruct (Z.leb_spec 0 (Z.of_nat i)); [| lia].
      rewrite Nat2Z.id, Hi. reflexivity. }
    replace (Z.of_nat i) with (24 * (Z.of_nat i / 24) + Z.of_nat i mod 24)
      by (Z.div_mod_to_equations; lia).
    rewrite Hpj by (Z.div_mod_to_equations; lia).
    destruct (3 * j <=? Z.of_nat i mod 24); [apply peek_is_byte; exact Hb |].
    unfold is_byte. lia.
Qed.

Lemma ScrollLeft_composes_witness :
  let fb := map Z.of_nat (seq 0 192) in
  ScrollLeft (ScrollLeft fb 2) 3 = ScrollLeft fb (2 + 3).
Proof.
  intros fb.
  assert (Z.of_nat (length fb) = FB_BYTES) as Hl by reflexivity.
  assert (2 + 3 <= ARGB_MAX_X) as Hjk by (geometry; lia).
  exact (proj1 (ScrollLeft_composes fb 2 3 Hl ltac:(lia) ltac:(lia) Hjk)).
Defined.

(** ** What the lines and rectangles draw *)

Lemma skip_negative_eq w x :
  skip_negative w x =
    if x <? 0
    then (if - x <=? Z.of_nat w then (0, Z.to_nat (Z.of_nat w + x)) else (x + Z.of_nat w, O))
    else (x, w).
Proof.
  revert x. induction w as [| w IH]; intros x; cbn [skip_negative].
  - destruct (Z.ltb_spec x 0); [| reflexivity].
    destruct (Z.leb_spec (- x) (Z.of_nat 0)); [lia |]. f_equal. lia.
  - destruct (Z.ltb_spec x 0); [| reflexivity]. rewrite IH.
    destruct (Z.ltb_spec (x + 1) 0).
    + destruct (Z.leb_spec (- (x + 1)) (Z.of_nat w));
        destruct (Z.leb_spec (- x) (Z.of_nat (S w))); try lia; f_equal; lia.
    + destruct (Z.leb_spec (- x) (Z.of_nat (S w))); [| lia]. f_equal; lia.
Qed.

Lemma hline_run_eq w x y color :
  hline_run w x y color =
    map (fun i => mkPlot i y color) (seqZ x (Z.min (Z.of_nat w) (ARGB_MAX_X - x))).
Proof.
  revert x. induction w as [| w IH]; intros x; cbn [hline_run].
  - rewrite seqZ_nil by lia. reflexivity.
  - destruct (Z.ltb_spec x ARGB_MAX_X).
    + rewrite seqZ_cons by lia. cbn [map]. rewrite IH. do 3 f_equal. lia.
    + rewrite seqZ_nil by lia. reflexivity.
Qed.

Lemma vline_run_eq w x y color :
  vline_run w x y color =
    map (fun j => mkPlot x j color) (seqZ y (Z.min (Z.of_nat w) (ARGB_MAX_Y - y))).
Proof.
  revert y. induction w as [| w IH]; intros y; cbn [vline_run].
  - rewrite seqZ_nil by lia. reflexivity.
  - destruct (Z.ltb_spec y ARGB_MAX_Y).
    + rewrite seqZ_cons by lia. cbn [map]. rewrite IH. do 3 f_equal. lia.
    + rewrite seqZ_nil by lia. reflexivity.
Qed.

(** The span left by the clipping loop and the drawing loop together. *)
Lemma clipped_run_eq {A} (f : Z -> A) w x limit :
  0 <= limit ->
  (let '(x', w') := skip_negative w x in
   map f (seqZ x' (Z.min (Z.of_nat w') (limit - x')))) =
  map f (seqZ (Z.max 0 x) (Z.min limit (x + Z.of_nat w) - Z.max 0 x)).
Proof.
  intros Hlimit. rewrite skip_negative_eq.
  destruct (Z.ltb_spec x 0).
  - destruct (Z.leb_spec (- x) (Z.of_nat w)).
    + do 2 f_equal; lia.
    + rewrite !seqZ_nil by lia. reflexivity.
  - do 2 f_equal; lia.
Qed.

Lemma HLine_span x y w color :
  is_byte w ->
  HLine x y w color =
    (if (0 <=? y) && (y <? ARGB_MAX_Y)
     then map (fun i => mkPlot i y color)
              (seqZ (Z.max 0 x) (Z.min ARGB_MAX_X (x + w) - Z.max 0 x))
     else []).
Proof.
  intros Hw. unfold HLine. cbv zeta. rewrite (to_byte_id w Hw).
  unfold is_byte in Hw.
  destruct ((0 <=? y) && (y <? ARGB_MAX_Y)); [| reflexivity].
  pose proof (clipped_run_eq (fun i => mkPlot i y color) (Z.to_nat w) x ARGB_MAX_X
                ltac:(geometry; lia)) as H.
  destruct (skip_negative (Z.to_nat w) x) as [x' w'].
  rewrite hline_run_eq, H. do 3 f_equal; lia.
Qed.

Lemma VLine_span x y w color :
  is_byte w ->
  VLine x y w color =
    (if (0 <=? x) && (x <? ARGB_MAX_X)
     then map (fun j => mkPlot x j color)
              (seqZ (Z.max 0 y) (Z.min ARGB_MAX_Y (y + w) - Z.max 0 y))
     else []).
Proof.
  intros Hw. unfold VLine. cbv zeta. rewrite (to_byte_id w Hw).
  unfold is_byte in Hw.
  destruct ((0 <=? x) && (x <? ARGB_MAX_X)); [| reflexivity].
  pose proof (clipped_run_eq (fun j => mkPlot x j color) (Z.to_nat w) y ARGB_MAX_Y
                ltac:(geometry; lia)) as H.
  destruct (skip_negative (Z.to_nat w) y) as [y' w'].
  rewrite vline_run_eq, H. do 3 f_equal; lia.
Qed.

(** X10: [HLine] and [VLine] plot exactly the part of their span that lies in
    the buffer, in increasing order and once each: the columns from
    max 0 x up to min ARGB_MAX_X (x + w) of row [y] when the row exists,
    nothing otherwise, and likewise for [VLine] along a column. *)
Theorem lines_draw_the_clipped_span x y w color :
  is_byte w ->
  HLine x y w color =
    (if (0 <=? y) && (y <? ARGB_MAX_Y)
     then map (fun i => mkPlot i y color)
              (seqZ (Z.max 0 x) (Z.min ARGB_MAX_X (x + w) - Z.max 0 x))
     else []) /\
  VLine x y w color =
    (if (0 <=? x) && (x <? ARGB_MAX_X)
     then map (fun j => mkPlot x j color)
              (seqZ (Z.max 0 y) (Z.min ARGB_MAX_Y (y + w) - Z.max 0 y))
     else []).
Proof.
  intros Hw. split; [apply HLine_span | apply VLine_span]; exact Hw.
Qed.

Lemma lines_draw_the_clipped_span_witness :
  HLine (-2) 3 5 7 = [mkPlot 0 3 7; mkPlot 1 3 7; mkPlot 2 3 7] /\
  VLine 2 6 5 7 = [mkPlot 2 6 7; mkPlot 2 7 7].
Proof.
  assert (is_byte 5) as Hw by (unfold is_byte; lia).
  destruct (lines_draw_the_clipped_span (-2) 3 5 7 Hw) as [Hh _].
  destruct (lines_draw_the_clipped_span 2 6 5 7 Hw) as [_ Hv].
  rewrite Hh, Hv. split; reflexivity.
Defined.

(** The unrolled loop and the loop after it draw what the plain loop
    draws. *)
Lemma fill_quads_hline tw tx y color :
  fst (fst (fill_quads tw tx y color))
  ++ hline_run (snd (fill_quads tw tx y color)) (snd (fst (fill_quads tw tx y color))) y color
  = hline_run tw tx y color.
Proof.
  revert tx. induction tw as [tw IH] using (well_founded_induction lt_wf).
  intros tx. destruct tw as [| [| [| [| tw']]]]; try reflexivity.
  cbn [fill_quads].
  destruct (Z.ltb_spec tx (ARGB_MAX_X - 3)) as [Hin | Hout]; [| reflexivity].
  specialize (IH tw' ltac:(lia) (tx + 4)).
  destruct (fill_quads tw' (tx + 4) y color) as [[rest tx'] tw''].
  cbn [fst snd] in *. cbn [app hline_run].
  destruct (Z.ltb_spec tx ARGB_MAX_X); [| lia].
  destruct (Z.ltb_spec (tx + 1) ARGB_MAX_X); [| lia].
  destruct (Z.ltb_spec (tx + 1 + 1) ARGB_MAX_X); [| lia].
  destruct (Z.ltb_spec (tx + 1 + 1 + 1) ARGB_MAX_X); [| lia].
  replace (tx + 1 + 1 + 1 + 1) with (tx + 4) by lia.
  replace (tx + 1 + 1 + 1) with (tx + 3) by lia.
  replace (tx + 1 + 1) with (tx + 2) by lia.
  rewrite IH. reflexivity.
Qed.

Lemma flat_map_above_nothing {A} (f : Z -> list A) m n :
  (forall j, m <= j -> f j = []) -> flat_map f (seqZ m n) = [].
Proof.
  intros Hf. destruct (Z.le_gt_cases n 0) as [Hn | Hn];
    [rewrite seqZ_nil by lia; reflexivity |].
  rewrite <- (Z2Nat.id n) by lia. generalize (Z.to_nat n) as k. clear n Hn.
  intros k. revert m Hf. induction k as [| k IH]; intros m Hf; [reflexivity |].
  rewrite seqZ_cons by lia. cbn [flat_map]. rewrite Hf by lia.
  replace (Z.pred (Z.of_nat (S k))) with (Z.of_nat k) by lia.
  apply IH. intros j Hj. apply Hf. lia.
Qed.

Lemma fill_rows_eq h x y w color :
  fill_rows h x y w color =
    flat_map (fun j => if j <? ARGB_MAX_Y then hline_run w x j color else [])
             (seqZ y (Z.of_nat h)).
Proof.
  revert y. induction h as [| h IH]; intros y; [reflexivity |].
  cbn [fill_rows]. rewrite seqZ_cons by lia. cbn [flat_map].
  replace (Z.pred (Z.of_nat (S h))) with (Z.of_nat h) by lia.
  destruct (Z.ltb_spec y ARGB_MAX_Y) as [Hin | Hout].
  - pose proof (fill_quads_hline w x y color) as Hq.
    destruct (fill_quads w x y color) as [[quads tx] tw]. cbn [fst snd] in Hq.
    rewrite app_assoc, Hq, IH. reflexivity.
  - cbn [app]. symmetry. apply flat_map_above_nothing. intros j Hj.
    destruct (Z.ltb_spec j ARGB_MAX_Y); [lia | reflexivity].
Qed.

Lemma HLine_row x j w color :
  HLine x j w color =
    if (0 <=? j) && (j <? ARGB_MAX_Y)
    then hline_run (snd (skip_negative (Z.to_nat (to_byte w)) x))
                   (fst (skip_negative (Z.to_nat (to_byte w)) x)) j color
    else [].
Proof.
  unfold HLine. cbv zeta. destruct ((0 <=? j) && (j <? ARGB_MAX_Y)); [| reflexivity].
  destruct (skip_negative (Z.to_nat (to_byte w)) x). reflexivity.
Qed.

Lemma flat_map_ext_seqZ {A} (f g : Z -> list A) m n :
  (forall j, m <= j < m + n -> f j = g j) ->
  flat_map f (seqZ m n) = flat_map g (seqZ m n).
Proof.
  intros Hfg. destruct (Z.le_gt_cases n 0) as [Hn | Hn];
    [rewrite seqZ_nil by lia; reflexivity |].
  revert Hfg. rewrite <- (Z2Nat.id n) by lia. generalize (Z.to_nat n) as k.
  clear n Hn. intros k. revert m. induction k as [| k IH]; intros m Hfg;
    [reflexivity |].
  rewrite seqZ_cons by lia. cbn [flat_map]. rewrite Hfg by lia.
  replace (Z.pred (Z.of_nat (S k))) with (Z.of_nat k) by lia.
  f_equal. apply IH. intros j Hj. apply Hfg. lia.
Qed.

Lemma flat_map_below_nothing {A} (f : Z -> list A) m n :
  (forall j, j < m + n -> f j = []) -> flat_map f (seqZ m n) = [].
Proof.
  intros Hf. rewrite (flat_map_ext_seqZ f (fun _ => [])).
  - apply flat_map_above_nothing. reflexivity.
  - intros j Hj. apply Hf. lia.
Qed.

Lemma FillRect_rows x y w h color :
  is_byte h ->
  FillRect x y w h color = flat_map (fun j => HLine x j w color) (seqZ y h).
Proof.
  intros Hh. unfold FillRect. cbv zeta. rewrite (to_byte_id h Hh).
  unfold is_byte in Hh.
  rewrite (flat_map_ext_seqZ _ _ _ _ (fun j _ => HLine_row x j w color)).
  destruct (skip_negative (Z.to_nat (to_byte w)) x) as [x' w'] eqn:Ex.
  cbn [fst snd]. rewrite (skip_negative_eq (Z.to_nat h) y).
  destruct (Z.ltb_spec y 0) as [Hneg | Hpos].
  - destruct (Z.leb_spec (- y) (Z.of_nat (Z.to_nat h))) as [Hreach | Hshort].
    + rewrite fill_rows_eq.
      replace h with (- y + (h + y)) at 2 by lia.
      rewrite seqZ_app by lia. rewrite flat_map_app.
      rewrite (flat_map_below_nothing _ y (- y)).
      * cbn [app]. replace (y + - y) with 0 by lia.
        replace (Z.of_nat (Z.to_nat (Z.of_nat (Z.to_nat h) + y))) with (h + y) by lia.
        apply flat_map_ext_seqZ. intros j Hj.
        destruct (Z.leb_spec 0 j); [reflexivity | lia].
      * intros j Hj. destruct (Z.leb_spec 0 j); [lia | reflexivity].
    + cbn [fill_rows]. symmetry. apply flat_map_below_nothing.
      intros j Hj. destruct (Z.leb_spec 0 j); [lia | reflexivity].
  - rewrite fill_rows_eq. rewrite Z2Nat.id by lia.
    apply flat_map_ext_seqZ. intros j Hj.
    destruct (Z.leb_spec 0 j); [reflexivity | lia].
Qed.

(** X11: [FillRect], which clips and unrolls its own loops, plots the same calls
    in the same order as one [HLine] of width [w] for each of the rows
    [y], ..., [y + h - 1]. *)
Theorem FillRect_is_rows_of_HLine x y w h color :
  is_byte h ->
  FillRect x y w h color = flat_map (fun j => HLine x j w color) (seqZ y h).
Proof. apply FillRect_rows. Qed.

Lemma FillRect_is_rows_of_HLine_witness :
  FillRect (-2) 6 7 5 9 = HLine (-2) 6 7 9 ++ HLine (-2) 7 7 9.
Proof.
  assert (is_byte 5) as Hh by (unfold is_byte; lia).
  rewrite (FillRect_is_rows_of_HLine (-2) 6 7 5 9 Hh). reflexivity.
Defined.

(** X12: For corners given in order inside the buffer, [DrawRect] plots the top
    edge, the bottom edge and then the left and right edges without their
    corners, in that order: only border pixels are plotted, and no corner
    is plotted by both a horizontal and a vertical edge. *)
Theorem DrawRect_draws_the_border x1 y1 x2 y2 color :
  0 <= x1 <= x2 -> x2 < ARGB_MAX_X -> 0 <= y1 <= y2 -> y2 < ARGB_MAX_Y ->
  DrawRect x1 y1 x2 y2 color =
    map (fun i => mkPlot i y1 color) (seqZ x1 (x2 - x1 + 1)) ++
    map (fun i => mkPlot i y2 color) (seqZ x1 (x2 - x1 + 1)) ++
    map (fun j => mkPlot x1 j color) (seqZ (y1 + 1) (y2 - y1 - 1)) ++
    map (fun j => mkPlot x2 j color) (seqZ (y1 + 1) (y2 - y1 - 1)).
Proof.
  intros Hx1 Hx2 Hy1 Hy2. unfold DrawRect.
  change ARGB_MAX_X with 8 in *. change ARGB_MAX_Y with 8 in *.
  assert (is_byte (x2 - x1 + 1)) as Hw by (unfold is_byte; lia).
  rewrite !(HLine_span _ _ _ _ Hw).
  change ARGB_MAX_X with 8. change ARGB_MAX_Y with 8.
  destruct (Z.leb_spec 0 y1); [| lia]. destruct (Z.ltb_spec y1 8); [| lia].
  destruct (Z.leb_spec 0 y2); [| lia]. destruct (Z.ltb_spec y2 8); [| lia].
  cbn [andb].
  replace (Z.min 8 (x1 + (x2 - x1 + 1)) - Z.max 0 x1) with (x2 - x1 + 1) by lia.
  replace (Z.max 0 x1) with x1 by lia.
  do 2 f_equal.
  destruct (Z.ltb_spec y1 y2) as [Hlt | Hge].
  - assert (is_byte (y2 - y1 - 1)) as Hh by (unfold is_byte; lia).
    rewrite !(VLine_span _ _ _ _ Hh).
    change ARGB_MAX_X with 8. change ARGB_MAX_Y with 8.
    destruct (Z.leb_spec 0 x1); [| lia]. destruct (Z.ltb_spec x1 8); [| lia].
    destruct (Z.leb_spec 0 x2); [| lia]. destruct (Z.ltb_spec x2 8); [| lia].
    cbn [andb].
    replace (Z.min 8 (y1 + 1 + (y2 - y1 - 1)) - Z.max 0 (y1 + 1))
      with (y2 - y1 - 1) by lia.
    replace (Z.max 0 (y1 + 1)) with (y1 + 1) by lia.
    reflexivity.
  - rewrite !seqZ_nil by lia. reflexivity.
Qed.

Lemma DrawRect_draws_the_border_witness :
  DrawRect 1 1 6 6 7 =
    map (fun i => mkPlot i 1 7) (seqZ 1 6) ++
    map (fun i => mkPlot i 6 7) (seqZ 1 6) ++
    map (fun j => mkPlot 1 j 7) (seqZ 2 4) ++
    map (fun j => mkPlot 6 j 7) (seqZ 2 4).
Proof.
  apply (DrawRect_draws_the_border 1 1 6 6 7); geometry; lia.
Defined.

(** ** Lines and circles: where the loops stop *)










Lemma circle_loop_ends n fuel poX poY x y err color :
  circle_run n x y err = None -> (n <= fuel)%nat ->
  circle_loop fuel poX poY x y err color = circle_loop n poX poY x y err color.
Proof.
  revert fuel x y err. induction n as [| n IH]; intros fuel x y err Hrun Hle;
    [discriminate |].
  destruct fuel as [| fuel]; [lia |].
  cbn [circle_run] in Hrun. cbn [circle_loop].
  destruct (circle_step x y err) as [[x' y'] err'].
  destruct (x' <=? 0); [| reflexivity].
  do 4 f_equal. apply IH; [exact Hrun | lia].
Qed.

Lemma fill_circle_loop_ends n fuel poX poY x y err color :
  circle_run n x y err = None -> (n <= fuel)%nat ->
  fill_circle_loop fuel poX poY x y err color =
  fill_circle_loop n poX poY x y err color.
Proof.
  revert fuel x y err. induction n as [| n IH]; intros fuel x y err Hrun Hle;
    [discriminate |].
  destruct fuel as [| fuel]; [lia |].
  cbn [circle_run] in Hrun. cbn [fill_circle_loop].
  destruct (circle_step x y err) as [[x' y'] err'].
  destruct (x' <=? 0); [| reflexivity].
  do 2 f_equal. apply IH; [exact Hrun | lia].
Qed.

Lemma other_circles_end :
  Forall (fun r => r <> 117 -> r <> 118 -> r <> 120 ->
                   circle_run_from 170 (circle_start r) = None) (seqZ 0 256).
Proof. apply (bool_decide_unpack _). vm_compute. exact I. Qed.

(** X15: For every radius a [byte] can hold other than 117, 118 and 120, the
    loop shared by [DrawCircle] and [FillCircle] ends within 170 turns:
    more fuel changes neither result, and [DrawCircle] makes at most
    4 * 170 [SetPixel] calls. *)
Theorem circles_terminate fuel poX poY r color :
  is_byte r -> r <> 117 -> r <> 118 -> r <> 120 -> (170 <= fuel)%nat ->
  circle_run_from 170 (circle_start r) = None /\
  DrawCircle fuel poX poY r color = DrawCircle 170 poX poY r color /\
  FillCircle fuel poX poY r color = FillCircle 170 poX poY r color /\
  (length (DrawCircle fuel poX poY r color) <= 4 * 170)%nat.
Proof.
  intros Hr H117 H118 H120 Hfuel. unfold is_byte in Hr.
  pose proof other_circles_end as Hall. rewrite Forall_forall in Hall.
  specialize (Hall r ltac:(apply elem_of_seqZ; lia) H117 H118 H120).
  split; [exact Hall |].
  unfold circle_run_from, circle_start in Hall. cbv zeta in Hall.
  assert (DrawCircle fuel poX poY r color = DrawCircle 170 poX poY r color) as Hd.
  { unfold DrawCircle. cbv zeta. apply circle_loop_ends; assumption. }
  split; [exact Hd |]. split.
  - unfold FillCircle. cbv zeta. apply fill_circle_loop_ends; assumption.
  - rewrite Hd. unfold DrawCircle. cbv zeta.
    generalize (to_char (- to_byte r)), 0, (to_char (2 - 2 * to_byte r)).
    generalize 170%nat. clear.
    intros n. induction n as [| n IH]; intros x y err; cbn [circle_loop length]; [lia |].
    destruct (circle_step x y err) as [[x' y'] err'].
    destruct (x' <=? 0); [specialize (IH x' y' err') | cbn [length]]; lia.
Qed.

Lemma circles_terminate_witness :
  DrawCircle 500 3 3 3 7 = DrawCircle 170 3 3 3 7 /\
  FillCircle 500 3 3 3 7 = FillCircle 170 3 3 3 7.
Proof.
  assert (is_byte 3) as Hr by (unfold is_byte; lia).
  destruct (circles_terminate 500 3 3 3 7 Hr ltac:(lia) ltac:(lia) ltac:(lia)
              ltac:(lia))
    as (_ & Hd & Hf & _).
  split; [exact Hd | exact Hf].
Defined.

Lemma circle_run_add n m x y err x' y' err' :
  circle_run n x y err = Some (x', y', err') ->
  circle_run (n + m) x y err = circle_run m x' y' err'.
Proof.
  revert x y err. induction n as [| n IH]; intros x y err Hrun.
  - cbn [circle_run] in Hrun. injection Hrun as -> -> ->. reflexivity.
  - cbn [circle_run Nat.add] in *.
    destruct (circle_step x y err) as [[x1 y1] err1].
    destruct (x1 <=? 0); [apply IH; exact Hrun | discriminate].
Qed.

Lemma circle_run_prefix n m x y err :
  circle_run (n + m) x y err <> None -> circle_run n x y err <> None.
Proof.
  revert x y err. induction n as [| n IH]; intros x y err Hrun; [discriminate |].
  cbn [circle_run Nat.add] in *.
  destruct (circle_step x y err) as [[x1 y1] err1].
  destruct (x1 <=? 0); [apply IH; exact Hrun | exact Hrun].
Qed.

Lemma circle_run_stuck n x y err :
  circle_step x y err = (x, y, err) -> x <= 0 ->
  circle_run n x y err = Some (x, y, err).
Proof.
  intros Hfix Hx. induction n as [| n IH]; [reflexivity |].
  cbn [circle_run]. rewrite Hfix.
  destruct (Z.leb_spec x 0); [exact IH | lia].
Qed.

Lemma circle_loop_never_ends fuel poX poY x y err color :
  (forall n, circle_run n x y err <> None) ->
  length (circle_loop fuel poX poY x y err color) = (4 * fuel)%nat.
Proof.
  revert x y err. induction fuel as [| fuel IH]; intros x y err Hrun; [reflexivity |].
  cbn [circle_loop length].
  pose proof (Hrun 1%nat) as H1. cbn [circle_run] in H1.
  assert (forall n, circle_run (S n) x y err <> None) as HS by (intros n; apply Hrun).
  cbn [circle_run] in HS.
  destruct (circle_step x y err) as [[x' y'] err'].
  destruct (x' <=? 0); [| congruence].
  rewrite (IH x' y' err' HS). lia.
Qed.

(** X16: For the radii 117, 118 and 120 the loop of [DrawCircle] and
    [FillCircle] never ends: the [char] variables wrap around and reach a
    state with [x <= 0] that a turn of the loop maps to itself, so the
    loop is still running after any number of turns and [DrawCircle]
    plots four pixels in each of them. *)
Theorem circles_that_never_end r n fuel poX poY color :
  r = 117 \/ r = 118 \/ r = 120 ->
  circle_run_from n (circle_start r) <> None /\
  length (DrawCircle fuel poX poY r color) = (4 * fuel)%nat.
Proof.
  intros Hr.
  assert (exists x y err,
            circle_run_from 170 (circle_start r) = Some (x, y, err) /\
            circle_step x y err = (x, y, err) /\ x <= 0) as (x & y & err & Hreach & Hfix & Hx).
  { destruct Hr as [-> | [-> | ->]].
    - exists (-3), (-128), (-116).
      split; [vm_compute; reflexivity |]. split; [reflexivity | lia].
    - exists 0, (-128), (-98).
      split; [vm_compute; reflexivity |]. split; [reflexivity | lia].
    - exists (-1), (-128), (-63).
      split; [vm_compute; reflexivity |]. split; [reflexivity | lia]. }
  assert (forall k, circle_run_from k (circle_start r) <> None) as Hall.
  { intros k. unfold circle_run_from, circle_start in *. cbv zeta in *.
    destruct (Nat.le_gt_cases k 170) as [Hk | Hk].
    - apply (circle_run_prefix k (170 - k)).
      replace (k + (170 - k))%nat with 170%nat by lia. rewrite Hreach. discriminate.
    - replace k with (170 + (k - 170))%nat by lia.
      rewrite (circle_run_add _ _ _ _ _ _ _ _ Hreach).
      rewrite circle_run_stuck by assumption. discriminate. }
  split; [apply Hall |].
  unfold DrawCircle. cbv zeta. apply circle_loop_never_ends.
  exact Hall.
Qed.

Lemma circles_that_never_end_witness :
  length (DrawCircle 1000 3 3 117 7) = 4000%nat.
Proof.
  destruct (circles_that_never_end 117 0 1000 3 3 7 ltac:(left; reflexivity))
    as [_ Hlen].
  rewrite Hlen. reflexivity.
Defined.

(** ** How round the circles are *)

Lemma circle_loop_points_ok ok fuel poX poY x y err color :
  circle_turns_ok ok fuel x y err = true ->
  (forall a b, ok a b = true -> ok (- a) b = true /\ ok a (- b) = true) ->
  Forall (fun p => ok (plot_x p - poX) (plot_y p - poY) = true)
         (circle_loop fuel poX poY x y err color).
Proof.
  intros Hrun Hsym. revert x y err Hrun.
  induction fuel as [| fuel IH]; intros x y err Hrun; cbn [circle_loop];
    [constructor |].
  cbn [circle_turns_ok] in Hrun. apply andb_true_iff in Hrun.
  destruct Hrun as [Hok Hrest].
  destruct (Hsym x y Hok) as [Hnx Hny].
  destruct (Hsym (- x) y Hnx) as [_ Hnxy].
  repeat constructor; cbn [plot_x plot_y].
  - replace (poX - x - poX) with (- x) by lia.
    replace (poY + y - poY) with y by lia. exact Hnx.
  - replace (poX + x - poX) with x by lia.
    replace (poY + y - poY) with y by lia. exact Hok.
  - replace (poX + x - poX) with x by lia.
    replace (poY - y - poY) with (- y) by lia. exact Hny.
  - replace (poX - x - poX) with (- x) by lia.
    replace (poY - y - poY) with (- y) by lia. exact Hnxy.
  - destruct (circle_step x y err) as [[x' y'] err'].
    destruct (x' <=? 0); [apply IH; exact Hrest | constructor].
Qed.

Lemma circle_turns_ok_more ok fuel fuel' x y err :
  circle_run fuel x y err = None ->
  circle_turns_ok ok fuel x y err = true ->
  circle_turns_ok ok fuel' x y err = true.
Proof.
  revert fuel' x y err. induction fuel as [| fuel IH]; intros fuel' x y err Hend Hok;
    [discriminate |].
  destruct fuel' as [| fuel']; [reflexivity |].
  cbn [circle_run circle_turns_ok] in *.
  apply andb_true_iff in Hok. destruct Hok as [Hxy Hrest].
  rewrite Hxy. cbn [andb].
  destruct (circle_step x y err) as [[x' y'] err'].
  destruct (x' <=? 0); [| reflexivity]. apply IH; assumption.
Qed.

Lemma on_circle_sym r a b :
  on_circle r a b = true -> on_circle r (- a) b = true /\ on_circle r a (- b) = true.
Proof.
  unfold on_circle. intros H.
  replace (- a * - a) with (a * a) by lia. replace (- b * - b) with (b * b) by lia.
  split; exact H.
Qed.

Lemma small_circles_are_round :
  Forall (fun r =>
            let '(x, y, err) := circle_start r in
            circle_turns_ok (on_circle r) 170 x y err = true) (seqZ 0 50).
Proof. apply (bool_decide_unpack _). vm_compute. exact I. Qed.

Lemma circle_points_near_ring fuel poX poY r color :
  0 <= r <= 49 ->
  Forall (fun p =>
            Z.abs ((plot_x p - poX) * (plot_x p - poX)
                   + (plot_y p - poY) * (plot_y p - poY) - r * r) <= r)
         (DrawCircle fuel poX poY r color).
Proof.
  intros Hr.
  pose proof small_circles_are_round as Hall. rewrite Forall_forall in Hall.
  specialize (Hall r ltac:(apply elem_of_seqZ; lia)).
  pose proof other_circles_end as Hend. rewrite Forall_forall in Hend.
  specialize (Hend r ltac:(apply elem_of_seqZ; lia) ltac:(lia) ltac:(lia) ltac:(lia)).
  unfold circle_run_from, circle_start in *. cbv zeta in *.
  unfold DrawCircle. cbv zeta.
  eapply Forall_impl.
  - apply (circle_loop_points_ok (on_circle r)).
    + apply (circle_turns_ok_more _ 170); [exact Hend | exact Hall].
    + apply on_circle_sym.
  - cbn beta. intros p Hp. unfold on_circle in Hp.
    apply Z.leb_le in Hp. exact Hp.
Qed.

Lemma near_ring_within_radius r dx dy :
  0 <= r -> Z.abs (dx * dx + dy * dy - r * r) <= r ->
  - r <= dx <= r /\ - r <= dy <= r.
Proof. intros Hr H. nia. Qed.

(** X17: For a radius of at most 49 and a centre at least the radius away
    from both ends of the 16-bit [int] range, every point [DrawCircle] asks
    to plot is on the digital circle: the square of its distance from the
    centre differs from [r * r] by at most [r].  Each coordinate is within
    [r] of the centre's, so none of the sums the code forms from the centre
    leaves the [int] range. *)
Theorem DrawCircle_is_round_up_to_49 fuel poX poY r color :
  0 <= r <= 49 ->
  is_point (poX - r) -> is_point (poX + r) ->
  is_point (poY - r) -> is_point (poY + r) ->
  Forall (fun p =>
            Z.abs ((plot_x p - poX) * (plot_x p - poX)
                   + (plot_y p - poY) * (plot_y p - poY) - r * r) <= r /\
            (poX - r <= plot_x p <= poX + r /\ poY - r <= plot_y p <= poY + r) /\
            (is_point (plot_x p) /\ is_point (plot_y p)))
         (DrawCircle fuel poX poY r color).
Proof.
  intros Hr Hx1 Hx2 Hy1 Hy2. unfold is_point in *.
  eapply Forall_impl; [apply circle_points_near_ring; exact Hr |].
  cbn beta. intros p Hp.
  destruct (near_ring_within_radius r (plot_x p - poX) (plot_y p - poY)
              ltac:(lia) Hp) as [Hdx Hdy].
  split; [exact Hp |]. split; lia.
Qed.

Lemma DrawCircle_is_round_up_to_49_witness :
  Forall (fun p =>
            Z.abs ((plot_x p - 3) * (plot_x p - 3)
                   + (plot_y p - 4) * (plot_y p - 4) - 3 * 3) <= 3 /\
            (3 - 3 <= plot_x p <= 3 + 3 /\ 4 - 3 <= plot_y p <= 4 + 3) /\
            (is_point (plot_x p) /\ is_point (plot_y p)))
         (DrawCircle 100 3 4 3 7).
Proof.
  apply (DrawCircle_is_round_up_to_49 100 3 4 3 7); unfold is_point; lia.
Defined.

(** The bound on the radius is tight: at radius 50 the [char] error term
    overflows and the pixel at offset (7, 51), whose squared distance from
    the centre is 2650 and not 2500, is among those plotted. *)
Lemma DrawCircle_radius_50_leaves_the_circle color :
  (7, 51) ∈ plot_points (DrawCircle 170 0 0 50 color) /\
  on_circle 50 7 51 = false.
Proof.
  split; [| reflexivity].
  apply (bool_decide_unpack _). vm_compute. exact I.
Qed.

(** ** What opaque shapes leave in the buffer *)

Lemma render_cons fb p calls :
  render fb (p :: calls) = render (SetPixel fb (plot_x p) (plot_y p) (plot_color p)) calls.
Proof. reflexivity. Qed.

Lemma render_wf fb calls : wf_fb fb -> wf_fb (render fb calls).
Proof.
  revert fb. induction calls as [| p calls IH]; intros fb Hwf; [exact Hwf |].
  rewrite render_cons. apply IH. apply SetPixel_wf. exact Hwf.
Qed.

(** Painting with one opaque colour: a pixel ends up in that colour if
    some call names it, and as it was otherwise. *)
Lemma render_opaque_pixel fb calls color x y :
  wf_fb fb -> alpha color = 255 ->
  Forall (fun p => plot_in_range p /\ plot_color p = color) calls ->
  in_range x y ->
  pixel_at (render fb calls) x y =
    if bool_decide ((x, y) ∈ plot_points calls)
    then mkPixel (red color) (green color) (blue color)
    else pixel_at fb x y.
Proof.
  intros Hwf Ha Hcalls Hxy. revert fb Hwf.
  induction Hcalls as [| p calls [Hp Hc] _ IH]; intros fb Hwf.
  - cbn [render fold_left plot_points map].
    rewrite bool_decide_eq_false_2 by (apply not_elem_of_nil). reflexivity.
  - rewrite render_cons, IH by (apply SetPixel_wf; exact Hwf).
    unfold plot_points. cbn [map]. fold (plot_points calls).
    destruct (decide ((x, y) ∈ plot_points calls)) as [Hin | Hout].
    + rewrite !bool_decide_eq_true_2; [reflexivity | right; exact Hin | exact Hin].
    + rewrite (bool_decide_eq_false_2 _ Hout).
      destruct (decide ((x, y) = (plot_x p, plot_y p))) as [Heq | Hne].
      * rewrite bool_decide_eq_true_2 by (rewrite Heq; left).
        injection Heq as -> ->. rewrite Hc.
        apply SetPixel_pixel_opaque; assumption.
      * rewrite bool_decide_eq_false_2
          by (intros Hmem; apply elem_of_cons in Hmem; tauto).
        apply SetPixel_frame; [exact Hp | exact Hxy | exact Hne].
Qed.

(** X18: Rendering calls that all carry one opaque colour (alpha 255) and stay
    inside the buffer leaves the buffer well formed, sets exactly the
    pixels the calls name to the red, green and blue of that colour, and
    leaves every other pixel as it was. *)
Theorem opaque_shapes_paint_their_points fb calls color x y :
  wf_fb fb -> alpha color = 255 ->
  Forall (fun p => plot_in_range p /\ plot_color p = color) calls ->
  in_range x y ->
  wf_fb (render fb calls) /\
  pixel_at (render fb calls) x y =
    if bool_decide ((x, y) ∈ plot_points calls)
    then mkPixel (red color) (green color) (blue color)
    else pixel_at fb x y.
Proof.
  intros Hwf Ha Hcalls Hxy. split; [apply render_wf; exact Hwf |].
  apply render_opaque_pixel; assumption.
Qed.

Lemma opaque_shapes_paint_their_points_witness :
  let fb := replicate (Z.to_nat FB_BYTES) 9 in
  let calls := [mkPlot 1 1 0xFF102030; mkPlot 2 1 0xFF102030] in
  wf_fb (render fb calls) /\
  pixel_at (render fb calls) 2 1 =
    if bool_decide ((2, 1) ∈ plot_points calls)
    then mkPixel (red 0xFF102030) (green 0xFF102030) (blue 0xFF102030)
    else pixel_at fb 2 1.
Proof.
  intros fb calls.
  apply (opaque_shapes_paint_their_points fb calls 0xFF102030 2 1).
  - apply wf_replicate. unfold is_byte. lia.
  - reflexivity.
  - repeat constructor; cbn; lia.
  - geometry; lia.
Defined.

Lemma hline_run_colors w x y color :
  Forall (fun p => plot_color p = color) (hline_run w x y color).
Proof.
  revert x. induction w as [| w IH]; intros x; cbn [hline_run]; [constructor |].
  destruct (x <? ARGB_MAX_X); [| constructor]. constructor; [reflexivity | apply IH].
Qed.

Lemma HLine_colors x y w color :
  Forall (fun p => plot_color p = color) (HLine x y w color).
Proof.
  unfold HLine. cbv zeta. destruct ((0 <=? y) && (y <? ARGB_MAX_Y)); [| constructor].
  destruct (skip_negative (Z.to_nat (to_byte w)) x). apply hline_run_colors.
Qed.

Lemma Forall_flat_map_seqZ {A} (P : A -> Prop) (f : Z -> list A) m n :
  (forall j, Forall P (f j)) -> Forall P (flat_map f (seqZ m n)).
Proof. intros Hf. apply Forall_flat_map. exact Hf. Qed.

(** The points of a filled rectangle. *)
Lemma FillRect_points x y w h color px py :
  is_byte w -> is_byte h ->
  (px, py) ∈ plot_points (FillRect x y w h color) <->
  (Z.max 0 x <= px < Z.min ARGB_MAX_X (x + w)) /\
  (Z.max 0 y <= py < Z.min ARGB_MAX_Y (y + h)).
Proof.
  intros Hw Hh. rewrite (FillRect_rows x y w h color Hh).
  unfold plot_points. rewrite list_elem_of_In, in_map_iff. split.
  - intros (p & Hp & Hin). apply in_flat_map in Hin.
    destruct Hin as (j & Hj & Hin).
    apply list_elem_of_In, elem_of_seqZ in Hj.
    rewrite (HLine_span x j w color Hw) in Hin.
    destruct (Z.leb_spec 0 j); cbn [andb] in Hin; [| contradiction].
    destruct (Z.ltb_spec j ARGB_MAX_Y); [| contradiction].
    apply in_map_iff in Hin. destruct Hin as (i & <- & Hi).
    apply list_elem_of_In, elem_of_seqZ in Hi.
    cbn [plot_x plot_y] in Hp. injection Hp as <- <-. unfold is_byte in *. lia.
  - intros [Hx Hy]. exists (mkPlot px py color). split; [reflexivity |].
    apply in_flat_map. exists py. split.
    + apply list_elem_of_In, elem_of_seqZ. unfold is_byte in *. lia.
    + rewrite (HLine_span x py w color Hw).
      destruct (Z.leb_spec 0 py); cbn [andb]; [| lia].
      destruct (Z.ltb_spec py ARGB_MAX_Y); [| lia].
      apply in_map_iff. exists px. split; [reflexivity |].
      apply list_elem_of_In, elem_of_seqZ. lia.
Qed.

(** X19: After [FillRect x y w h] with an opaque colour a pixel of the buffer
    holds the colour if it lies in the rectangle
    [x <= px < x + w], [y <= py < y + h], and its old contents if not,
    also when the rectangle sticks out of the buffer. *)
Theorem FillRect_paints_the_rectangle fb x y w h color px py :
  wf_fb fb -> is_byte w -> is_byte h -> alpha color = 255 -> in_range px py ->
  pixel_at (render fb (FillRect x y w h color)) px py =
    if (x <=? px) && (px <? x + w) && (y <=? py) && (py <? y + h)
    then mkPixel (red color) (green color) (blue color)
    else pixel_at fb px py.
Proof.
  intros Hwf Hw Hh Ha Hp.
  rewrite (render_opaque_pixel fb _ color px py Hwf Ha); [| | exact Hp].
  - pose proof (FillRect_points x y w h color px py Hw Hh) as Hpts.
    destruct Hp as [Hpx Hpy].
    destruct (decide ((px, py) ∈ plot_points (FillRect x y w h color))) as [Hin | Hout].
    + rewrite bool_decide_eq_true_2 by exact Hin. apply Hpts in Hin.
      destruct (Z.leb_spec x px); [| lia]. destruct (Z.ltb_spec px (x + w)); [| lia].
      destruct (Z.leb_spec y py); [| lia]. destruct (Z.ltb_spec py (y + h)); [| lia].
      reflexivity.
    + rewrite bool_decide_eq_false_2 by exact Hout.
      destruct (Z.leb_spec x px); cbn [andb]; [| reflexivity].
      destruct (Z.ltb_spec px (x + w)); cbn [andb]; [| reflexivity].
      destruct (Z.leb_spec y py); cbn [andb]; [| reflexivity].
      destruct (Z.ltb_spec py (y + h)); [| reflexivity].
      exfalso. apply Hout, Hpts. lia.
  - apply Forall_and. split; [apply FillRect_in_range |].
    rewrite (FillRect_rows x y w h color Hh).
    apply Forall_flat_map. intros j. apply HLine_colors.
Qed.

Lemma FillRect_paints_the_rectangle_witness :
  let fb := replicate (Z.to_nat FB_BYTES) 9 in
  pixel_at (render fb (FillRect (-2) 6 7 5 0xFF102030)) 4 7 = mkPixel 0x10 0x20 0x30 /\
  pixel_at (render fb (FillRect (-2) 6 7 5 0xFF102030)) 5 7 = mkPixel 9 9 9.
Proof.
  intros fb.
  assert (wf_fb fb) as Hwf by (apply wf_replicate; unfold is_byte; lia).
  assert (is_byte 7) as Hw by (unfold is_byte; lia).
  assert (is_byte 5) as Hh by (unfold is_byte; lia).
  assert (in_range 4 7) as H47 by (geometry; lia).
  assert (in_range 5 7) as H57 by (geometry; lia).
  rewrite (FillRect_paints_the_rectangle fb (-2) 6 7 5 0xFF102030 4 7 Hwf Hw Hh eq_refl H47).
  rewrite (FillRect_paints_the_rectangle fb (-2) 6 7 5 0xFF102030 5 7 Hwf Hw Hh eq_refl H57).
  split; reflexivity.
Defined.

(** ** The digit cells *)

Lemma numberFont_rows :
  Forall (fun digit => Forall (fun i =>
    Forall (fun y => Z.land (numberFont_byte digit i) (Z.shiftl 1 y) = 0) [5; 6; 7])
    [0; 1; 2]) (seqZ 0 13).
Proof. apply (bool_decide_unpack _). vm_compute. exact I. Qed.

Lemma digit_strip_cell digit i plot_x0 py color :
  0 <= digit <= 12 -> i ∈ [0; 1; 2] ->
  Forall (fun p => plot_x p = plot_x0 /\ py <= plot_y p <= py + 4 /\
                   plot_color p = color)
         (digit_strip (numberFont_byte digit i) plot_x0 py color).
Proof.
  intros Hd Hi. unfold digit_strip. apply Forall_flat_map_in. intros y Hy. cbv zeta.
  destruct ((0 <=? py + y) && (py + y <? ARGB_MAX_Y)); [| constructor].
  destruct (Z.eqb_spec (Z.land (numberFont_byte digit i) (Z.shiftl 1 y)) 0) as [E | E];
    cbn [negb]; [constructor |].
  constructor; [| constructor]. cbn [plot_x plot_y plot_color].
  split; [reflexivity |]. split; [| reflexivity].
  pose proof numberFont_rows as H. rewrite Forall_forall in H.
  specialize (H digit ltac:(apply elem_of_seqZ; lia)).
  rewrite Forall_forall in H. specialize (H i Hi). rewrite Forall_forall in H.
  repeat (apply elem_of_cons in Hy; destruct Hy as [-> | Hy]; [try lia |]);
    try (exfalso; apply E, H; repeat constructor).
  apply elem_of_nil in Hy. contradiction.
Qed.

Lemma DrawDigit_cell digit px py color :
  0 <= digit <= 12 ->
  Forall (fun p => px <= plot_x p <= px + 2 /\ py <= plot_y p <= py + 4 /\
                   plot_color p = color)
         (DrawDigit digit px py color).
Proof.
  intros Hd. unfold DrawDigit. cbv zeta.
  rewrite to_byte_id by (unfold is_byte; lia).
  apply Forall_flat_map_in. intros i Hi.
  destruct ((0 <=? px + i) && (px + i <? ARGB_MAX_X)); [| constructor].
  eapply Forall_impl; [apply (digit_strip_cell digit i); assumption |].
  cbn beta. intros p (Hx & Hy & Hc).
  split; [| split; assumption]. rewrite Hx.
  repeat (apply elem_of_cons in Hi; destruct Hi as [-> | Hi]; [lia |]).
  apply elem_of_nil in Hi. contradiction.
Qed.

Lemma digit_strip_pixels cdata plot_x0 py color x y :
  In (mkPlot x y color) (digit_strip cdata plot_x0 py color) <->
  x = plot_x0 /\ 0 <= y < ARGB_MAX_Y /\ py <= y <= py + 7 /\
  Z.testbit cdata (y - py) = true.
Proof.
  unfold digit_strip. rewrite in_flat_map. split.
  - intros (f & Hf & Hin). cbv zeta in Hin.
    assert (0 <= f <= 7) as Hf' by (cbn in Hf; lia).
    destruct (Z.leb_spec 0 (py + f)); cbn [andb] in Hin; [| contradiction].
    destruct (Z.ltb_spec (py + f) ARGB_MAX_Y); [| contradiction].
    rewrite land_bit in Hin by lia.
    destruct (Z.testbit cdata f) eqn:E; [| contradiction].
    destruct Hin as [Hin | []]. injection Hin as <- <-.
    replace (py + f - py) with f by lia.
    split; [reflexivity |]. split; [lia |]. split; [lia | exact E].
  - intros (-> & Hy & Hrow & Hbit). exists (y - py). split.
    + assert (y - py = 0 \/ y - py = 1 \/ y - py = 2 \/ y - py = 3 \/
              y - py = 4 \/ y - py = 5 \/ y - py = 6 \/ y - py = 7) as Hc by lia.
      cbn. lia.
    + cbv zeta. replace (py + (y - py)) with y by lia.
      destruct (Z.leb_spec 0 y); [| lia]. destruct (Z.ltb_spec y ARGB_MAX_Y); [| lia].
      cbn [andb]. rewrite land_bit by lia. rewrite Hbit. left. reflexivity.
Qed.

Lemma DrawDigit_pixels digit px py color x y :
  is_byte digit ->
  In (mkPlot x y color) (DrawDigit digit px py color) <->
  in_range x y /\ px <= x <= px + 2 /\ py <= y <= py + 7 /\
  Z.testbit (numberFont_byte digit (x - px)) (y - py) = true.
Proof.
  intros Hd. unfold DrawDigit. cbv zeta. rewrite (to_byte_id _ Hd).
  rewrite in_flat_map. unfold in_range. split.
  - intros (i & Hi & Hin). cbv zeta in Hin.
    assert (0 <= i <= 2) as Hi' by (cbn in Hi; lia).
    destruct (Z.leb_spec 0 (px + i)); cbn [andb] in Hin; [| contradiction].
    destruct (Z.ltb_spec (px + i) ARGB_MAX_X); [| contradiction].
    apply digit_strip_pixels in Hin. destruct Hin as (-> & Hy & Hrow & Hbit).
    replace (px + i - px) with i by lia.
    split; [lia |]. split; [lia |]. split; [lia | exact Hbit].
  - intros ((Hx & Hy) & Hcol & Hrow & Hbit). exists (x - px). split.
    + assert (x - px = 0 \/ x - px = 1 \/ x - px = 2) as Hc by lia. cbn. lia.
    + cbv zeta. replace (px + (x - px)) with x by lia.
      destruct (Z.leb_spec 0 x); [| lia]. destruct (Z.ltb_spec x ARGB_MAX_X); [| lia].
      cbn [andb]. apply digit_strip_pixels.
      split; [reflexivity |]. split; [exact Hy |]. split; [exact Hrow | exact Hbit].
Qed.

Lemma DrawDigit_in_cell digit px py color :
  0 <= digit <= 12 ->
  Forall (fun p => px <= plot_x p <= px + 2 /\ py <= plot_y p <= py + 4 /\
                   plot_color p = color /\ plot_in_range p)
         (DrawDigit digit px py color).
Proof.
  intros Hd.
  apply Forall_and. split; [| apply Forall_and; split; [| apply Forall_and; split]].
  - eapply Forall_impl; [apply (DrawDigit_cell digit); exact Hd |]. cbn beta. tauto.
  - eapply Forall_impl; [apply (DrawDigit_cell digit); exact Hd |]. cbn beta. tauto.
  - eapply Forall_impl; [apply (DrawDigit_cell digit); exact Hd |]. cbn beta. tauto.
  - apply DrawDigit_in_range.
Qed.

(** X20: [DrawDigit] plots only inside the 3 by 5 cell at ([px], [py]), in the
    colour given and inside the buffer, and it plots exactly the pixels of
    the buffer at which the strip of the digit has a bit set.  [BlendDigits] makes the calls of
    [DrawDigit] for the upper digit at row [py - shift], where [shift] is
    [blend / 32] (0 when the digits are equal) and lies between 0 and 7,
    followed, unless the digits are equal or [blend] is 0, by those for the
    lower digit seven rows further down.  Every call of the upper digit is
    in the cell at ([px], [py - shift]) and every call of the lower digit
    in the cell at ([px], [py - shift + 7]): two rows lie between the
    cells, so the digits never overlap. *)
Theorem digits_stay_in_their_cells digit1 digit2 blend px py color :
  0 <= digit1 <= 12 -> 0 <= digit2 <= 12 -> is_byte blend ->
  is_point px -> is_point (px + 2) -> is_point (py - 7) -> is_point (py + 14) ->
  let shift := (if digit1 =? digit2 then 0 else blend) / 32 in
  let upper := DrawDigit digit1 px (py - shift) color in
  let lower :=
    if (digit1 =? digit2) || (blend =? 0) then []
    else DrawDigit digit2 px (py - shift + 7) color in
  Forall (fun p => px <= plot_x p <= px + 2 /\ py <= plot_y p <= py + 4 /\
                   plot_color p = color /\ plot_in_range p)
         (DrawDigit digit1 px py color) /\
  (forall x y,
     In (mkPlot x y color) (DrawDigit digit1 px py color) <->
     in_range x y /\ px <= x <= px + 2 /\ py <= y <= py + 7 /\
     Z.testbit (numberFont_byte digit1 (x - px)) (y - py) = true) /\
  0 <= shift <= 7 /\
  BlendDigits digit1 digit2 blend px py color = upper ++ lower /\
  Forall (fun p => px <= plot_x p <= px + 2 /\
                   py - shift <= plot_y p <= py - shift + 4 /\
                   plot_color p = color /\ plot_in_range p) upper /\
  Forall (fun q => px <= plot_x q <= px + 2 /\
                   py - shift + 7 <= plot_y q <= py - shift + 11 /\
                   plot_color q = color /\ plot_in_range q) lower.
Proof.
  intros H1 H2 Hb _ _ _ _. cbv zeta.
  split; [apply DrawDigit_in_cell; exact H1 |].
  split; [intros x y; apply DrawDigit_pixels; unfold is_byte; lia |].
  assert (0 <= (if digit1 =? digit2 then 0 else blend) / 32 <= 7) as Hshift.
  { unfold is_byte in Hb. destruct (digit1 =? digit2);
      Z.div_mod_to_equations; lia. }
  split; [exact Hshift |]. split.
  { unfold BlendDigits. cbv zeta.
    rewrite (to_byte_id digit1), (to_byte_id digit2), (to_byte_id blend)
      by (unfold is_byte in *; lia).
    rewrite (to_byte_id (_ / 32)) by (unfold is_byte; lia).
    destruct (Z.eqb_spec digit1 255) as [E | _]; [lia |]. cbn [negb].
    destruct (Z.eqb_spec digit2 255) as [E | _]; [lia |]. cbn [negb].
    f_equal. rewrite andb_true_r.
    destruct (digit1 =? digit2); [reflexivity |]. cbn [orb].
    destruct (blend =? 0); reflexivity. }
  split; [apply DrawDigit_in_cell; exact H1 |].
  destruct ((digit1 =? digit2) || (blend =? 0)); [constructor |].
  eapply Forall_impl; [apply (DrawDigit_in_cell digit2); exact H2 |].
  cbn beta. intros q (Hx & Hy & Hc & Hr).
  split; [exact Hx |]. split; [lia |]. split; [exact Hc | exact Hr].
Qed.

Lemma digits_stay_in_their_cells_witness :
  BlendDigits 4 3 128 0 3 7 = DrawDigit 4 0 (-1) 7 ++ DrawDigit 3 0 6 7 /\
  Forall (fun p => 0 <= plot_x p <= 2 /\ -1 <= plot_y p <= 3 /\
                   plot_color p = 7 /\ plot_in_range p) (DrawDigit 4 0 (-1) 7) /\
  Forall (fun q => 0 <= plot_x q <= 2 /\ 6 <= plot_y q <= 10 /\
                   plot_color q = 7 /\ plot_in_range q) (DrawDigit 3 0 6 7) /\
  DrawDigit 4 0 (-1) 7 <> [] /\ DrawDigit 3 0 6 7 <> [].
Proof.
  assert (is_byte 128) as Hb by (unfold is_byte; lia).
  assert (is_point 0 /\ is_point (0 + 2) /\ is_point (3 - 7) /\ is_point (3 + 14))
    as (Hx & Hx2 & Hy & Hy2) by (unfold is_point; lia).
  destruct (digits_stay_in_their_cells 4 3 128 0 3 7 ltac:(lia) ltac:(lia) Hb
              Hx Hx2 Hy Hy2) as (_ & _ & _ & Heq & Hup & Hlow).
  split; [exact Heq |]. split; [exact Hup |]. split; [exact Hlow |].
  split; discriminate.
Defined.

(** ** More on the interrupt's state *)

Lemma isr_init_ok : isr_ok isr_init.
Proof.
  unfold isr_ok, isr_init. cbn. change ARGB_MAX_Y with 8.
  repeat split; try lia. repeat constructor; unfold is_byte; lia.
Qed.

Lemma ISR_keeps_ok s ADCH : isr_ok s -> isr_ok (ISR s ADCH).
Proof.
  intros (Hline & Hout & Hms & Hmod & Hlen & Hb). unfold isr_ok, ISR.
  change ARGB_MAX_Y with 8 in *. change ARGB_PANELS with 1 in *.
  change (1000 / ARGB_FRAMERATE) with 8 in *.
  assert (to_byte (line s + 1) = line s + 1) as ->
    by (apply to_byte_id; unfold is_byte; lia).
  assert (to_uint (ARGB_clock_ms s + 8) = ARGB_clock_ms s + 8) as ->
    by (unfold to_uint; apply Z.mod_small; lia).
  assert (Forall is_byte (<[Z.to_nat (line s) := to_byte ADCH]> (ARGB_adcdata s))) as Hb'
    by (apply Forall_insert; [exact Hb | apply to_byte_is_byte]).
  destruct (Z.geb_spec (line s + 1) 8) as [Hl | Hl].
  - destruct (Z.geb_spec (ARGB_clock_ms s + 8) 1000) as [Hs | Hs];
      cbn [line outbuf ARGB_clock_ms ARGB_adcdata]; rewrite length_insert;
      repeat split; try lia; try assumption.
    Z.div_mod_to_equations; lia.
  - cbn [line outbuf ARGB_clock_ms ARGB_adcdata]. rewrite length_insert.
    repeat split; try lia; assumption.
Qed.

Lemma SetTime_keeps_ok s t : isr_ok s -> isr_ok (ARGB_SetTime s t).
Proof.
  intros (Hline & Hout & Hms & Hmod & Hlen & Hb). unfold isr_ok, ARGB_SetTime.
  cbn [line outbuf ARGB_clock_ms ARGB_adcdata].
  repeat split; try lia; try assumption; reflexivity.
Qed.

Lemma ISR_run_keeps_ok samples s : isr_ok s -> isr_ok (ISR_run s samples).
Proof.
  revert s. induction samples as [| a samples IH]; intros s Hs; [exact Hs |].
  cbn [ISR_run fold_left]. apply IH. apply ISR_keeps_ok. exact Hs.
Qed.

(** X21: The state the interrupt starts from, and every state reached from a
    good one by interrupts or by [ARGB_SetTime], is good: the scan line is
    a row, the transmit cursor stands at the start of that row, the
    millisecond count is a multiple of the frame time below 1000, and
    there is a sample slot for every row.  In a good state the 24 bytes
    the interrupt sends lie inside the frame buffer and the sample it
    stores has a slot. *)
Theorem ISR_stays_inside_its_arrays s samples t :
  isr_ok isr_init /\
  (isr_ok s ->
     isr_ok (ISR_run s samples) /\ isr_ok (ARGB_SetTime s t) /\
     0 <= outbuf s /\ outbuf s + 24 * ARGB_PANELS <= FB_BYTES /\
     (Z.to_nat (line s) < length (ARGB_adcdata s))%nat).
Proof.
  split; [exact isr_init_ok |]. intros Hs.
  split; [apply ISR_run_keeps_ok; exact Hs |].
  split; [apply SetTime_keeps_ok; exact Hs |].
  destruct Hs as (Hline & Hout & _ & _ & Hlen & _).
  change ARGB_MAX_Y with 8 in *. change ARGB_PANELS with 1 in *.
  change FB_BYTES with 192. lia.
Qed.

Lemma ISR_stays_inside_its_arrays_witness :
  isr_ok (ISR_run isr_init [1; 2; 3; 4; 5; 6; 7; 8; 9]).
Proof.
  destruct (ISR_stays_inside_its_arrays isr_init [1; 2; 3; 4; 5; 6; 7; 8; 9] 0)
    as [Hinit Hstep].
  exact (proj1 (Hstep Hinit)).
Defined.

(** The clock [m] interrupts after a frame boundary at which the
    millisecond count was 0 and the time of day [t]. *)
Lemma ISR_clock_phase t m s ADCH :
  0 <= m -> 0 <= t < 86400 ->
  line s = m mod 8 -> ARGB_clock_ms s = 8 * ((m / 8) mod 125) ->
  ARGB_clock_tod s = (t + m / 1000) mod 86400 ->
  line (ISR s ADCH) = (m + 1) mod 8 /\
  ARGB_clock_ms (ISR s ADCH) = 8 * (((m + 1) / 8) mod 125) /\
  ARGB_clock_tod (ISR s ADCH) = (t + (m + 1) / 1000) mod 86400.
Proof.
  intros Hm Ht Hline Hms Htod. unfold ISR.
  unfold to_byte, to_uint, ARGB_MAX_Y, ARGB_FRAMERATE.
  rewrite Hline, Hms, Htod. change (1000 / 125) with 8.
  rewrite (Z.mod_small (m mod 8 + 1)) by (Z.div_mod_to_equations; lia).
  rewrite (Z.mod_small (8 * _ + 8)) by (Z.div_mod_to_equations; lia).
  destruct (Z.geb_spec (m mod 8 + 1) 8) as [Hl | Hl].
  - destruct (Z.geb_spec (8 * ((m / 8) mod 125) + 8) 1000) as [Hs | Hs];
      cbn [line ARGB_clock_ms ARGB_clock_tod].
    + split; [Z.div_mod_to_equations; lia |].
      split; [Z.div_mod_to_equations; lia |].
      unfold tod_tick, to_ulong.
      rewrite (Z.mod_small (_ + 1)) by (Z.div_mod_to_equations; lia).
      destruct (Z.geb_spec ((t + m / 1000) mod 86400 + 1) 86400);
        Z.div_mod_to_equations; lia.
    + repeat split; Z.div_mod_to_equations; lia.
  - cbn [line ARGB_clock_ms ARGB_clock_tod].
    repeat split; Z.div_mod_to_equations; lia.
Qed.

Lemma ISR_run_clock_phase t samples m s :
  0 <= m -> 0 <= t < 86400 ->
  line s = m mod 8 -> ARGB_clock_ms s = 8 * ((m / 8) mod 125) ->
  ARGB_clock_tod s = (t + m / 1000) mod 86400 ->
  ARGB_clock_tod (ISR_run s samples) =
    (t + (m + Z.of_nat (length samples)) / 1000) mod 86400.
Proof.
  intros Hm Ht. revert m s Hm.
  induction samples as [| a samples IH]; intros m s Hm Hline Hms Htod.
  - cbn [ISR_run fold_left length]. change (Z.of_nat 0) with 0.
    rewrite Z.add_0_r. exact Htod.
  - cbn [ISR_run fold_left length].
    destruct (ISR_clock_phase t m s a Hm Ht Hline Hms Htod) as (Hl' & Hms' & Htod').
    replace (m + Z.of_nat (S (length samples)))
      with (m + 1 + Z.of_nat (length samples)) by lia.
    apply (IH (m + 1) (ISR s a)); [lia | assumption ..].
Qed.

(** X22: [ARGB_SetTime] zeroes the millisecond count and sets the time of day;
    from there the time of day after [n] interrupts is
    [t + (line + n) / 1000] modulo 86400, where [line] is the row the scan
    had reached when the time was set: a second is 1000 interrupts, counted
    from the start of the frame in progress. *)
Theorem SetTime_then_clock_runs s t samples :
  0 <= line s < ARGB_MAX_Y -> 0 <= t < 86400 ->
  ARGB_clock_ms (ARGB_SetTime s t) = 0 /\
  ARGB_clock_tod (ARGB_SetTime s t) = t /\
  ARGB_clock_tod (ISR_run (ARGB_SetTime s t) samples) =
    (t + (line s + Z.of_nat (length samples)) / 1000) mod 86400.
Proof.
  intros Hline Ht. change ARGB_MAX_Y with 8 in Hline.
  assert (ARGB_clock_tod (ARGB_SetTime s t) = t) as Hset.
  { unfold ARGB_SetTime, to_ulong. cbn [ARGB_clock_tod]. apply Z.mod_small. lia. }
  split; [reflexivity |]. split; [exact Hset |].
  apply ISR_run_clock_phase; try lia.
  - cbn [ARGB_SetTime line]. rewrite Z.mod_small by lia. reflexivity.
  - cbn [ARGB_SetTime ARGB_clock_ms]. rewrite Z.div_small by lia. reflexivity.
  - rewrite Hset, Z.div_small by lia. rewrite Z.add_0_r, Z.mod_small by lia.
    reflexivity.
Qed.

Lemma SetTime_then_clock_runs_witness :
  ARGB_clock_tod (ISR_run (ARGB_SetTime isr_init 86399) (replicate 1000 0)) = 0.
Proof.
  destruct (SetTime_then_clock_runs isr_init 86399 (replicate 1000 0))
    as (_ & _ & Hrun); [cbn; geometry; lia | lia |].
  rewrite Hrun. reflexivity.
Defined.

(** What one interrupt does to the scan line, the cursor, the frame flag
    and the samples. *)
Lemma ISR_scan_step s ADCH :
  0 <= line s < ARGB_MAX_Y ->
  ARGB_adcdata (ISR s ADCH) = <[Z.to_nat (line s) := to_byte ADCH]> (ARGB_adcdata s) /\
  (line s < ARGB_MAX_Y - 1 ->
     line (ISR s ADCH) = line s + 1 /\
     outbuf (ISR s ADCH) = outbuf s + 24 * ARGB_PANELS /\
     ARGB_user_frame (ISR s ADCH) = ARGB_user_frame s) /\
  (line s = ARGB_MAX_Y - 1 ->
     line (ISR s ADCH) = 0 /\ outbuf (ISR s ADCH) = 0 /\
     ARGB_user_frame (ISR s ADCH) = 1).
Proof.
  intros Hline. change ARGB_MAX_Y with 8 in *. unfold ISR.
  change ARGB_MAX_Y with 8.
  assert (to_byte (line s + 1) = line s + 1) as ->
    by (apply to_byte_id; unfold is_byte; lia).
  destruct (Z.geb_spec (line s + 1) 8) as [Hl | Hl].
  - destruct (to_uint (ARGB_clock_ms s + 1000 / ARGB_FRAMERATE) >=? 1000);
      cbn [line outbuf ARGB_user_frame ARGB_adcdata];
      (split; [reflexivity |]); (split; [intros; lia |]); intros _; repeat split.
  - cbn [line outbuf ARGB_user_frame ARGB_adcdata].
    split; [reflexivity |]. split; [intros _; repeat split | intros; lia].
Qed.

(** X23: Eight interrupts starting at the top row make one frame: they store
    the eight analog samples, in order and cut to a byte, raise
    [ARGB_user_frame], and bring the scan line and the transmit cursor
    back to the top of the buffer. *)
Theorem ISR_frame_fills_the_samples s samples :
  line s = 0 -> length (ARGB_adcdata s) = 8%nat -> length samples = 8%nat ->
  ARGB_adcdata (ISR_run s samples) = map to_byte samples /\
  ARGB_user_frame (ISR_run s samples) = 1 /\
  line (ISR_run s samples) = 0 /\
  outbuf (ISR_run s samples) = 0.
Proof.
  intros Hline Hadc Hlen.
  destruct samples as [| a0 [| a1 [| a2 [| a3 [| a4 [| a5 [| a6 [| a7 [| a8 rest]]]]]]]]];
    try discriminate.
  unfold ISR_run. cbn [fold_left].
  set (s1 := ISR s a0). set (s2 := ISR s1 a1). set (s3 := ISR s2 a2).
  set (s4 := ISR s3 a3). set (s5 := ISR s4 a4). set (s6 := ISR s5 a5).
  set (s7 := ISR s6 a6).
  assert (0 <= 7 < ARGB_MAX_Y /\ 7 = ARGB_MAX_Y - 1) as Hgeo by (geometry; lia).
  change ARGB_MAX_Y with 8 in *.
  destruct (ISR_scan_step s a0) as (A1 & L1 & _); [change ARGB_MAX_Y with 8; lia |].
  destruct L1 as (L1 & _); [change ARGB_MAX_Y with 8; lia |]. fold s1 in A1, L1.
  destruct (ISR_scan_step s1 a1) as (A2 & L2 & _); [change ARGB_MAX_Y with 8; lia |].
  destruct L2 as (L2 & _); [change ARGB_MAX_Y with 8; lia |]. fold s2 in A2, L2.
  destruct (ISR_scan_step s2 a2) as (A3 & L3 & _); [change ARGB_MAX_Y with 8; lia |].
  destruct L3 as (L3 & _); [change ARGB_MAX_Y with 8; lia |]. fold s3 in A3, L3.
  destruct (ISR_scan_step s3 a3) as (A4 & L4 & _); [change ARGB_MAX_Y with 8; lia |].
  destruct L4 as (L4 & _); [change ARGB_MAX_Y with 8; lia |]. fold s4 in A4, L4.
  destruct (ISR_scan_step s4 a4) as (A5 & L5 & _); [change ARGB_MAX_Y with 8; lia |].
  destruct L5 as (L5 & _); [change ARGB_MAX_Y with 8; lia |]. fold s5 in A5, L5.
  destruct (ISR_scan_step s5 a5) as (A6 & L6 & _); [change ARGB_MAX_Y with 8; lia |].
  destruct L6 as (L6 & _); [change ARGB_MAX_Y with 8; lia |]. fold s6 in A6, L6.
  destruct (ISR_scan_step s6 a6) as (A7 & L7 & _); [change ARGB_MAX_Y with 8; lia |].
  destruct L7 as (L7 & _); [change ARGB_MAX_Y with 8; lia |]. fold s7 in A7, L7.
  destruct (ISR_scan_step s7 a7) as (A8 & _ & L8); [change ARGB_MAX_Y with 8; lia |].
  destruct L8 as (L8 & O8 & F8); [change ARGB_MAX_Y with 8; lia |].
  split; [| auto].
  rewrite A8, A7, A6, A5, A4, A3, A2, A1.
  replace (line s7) with 7 by lia. replace (line s6) with 6 by lia.
  replace (line s5) with 5 by lia. replace (line s4) with 4 by lia.
  replace (line s3) with 3 by lia. replace (line s2) with 2 by lia.
  replace (line s1) with 1 by lia. rewrite Hline.
  destruct (ARGB_adcdata s) as [| d0 [| d1 [| d2 [| d3 [| d4 [| d5 [| d6 [| d7 [| d8 ds]]]]]]]]];
    try discriminate.
  reflexivity.
Qed.

Lemma ISR_frame_fills_the_samples_witness :
  ARGB_adcdata (ISR_run isr_init [300; 2; 3; 4; 5; 6; 7; 8]) = [44; 2; 3; 4; 5; 6; 7; 8].
Proof.
  destruct (ISR_frame_fills_the_samples isr_init [300; 2; 3; 4; 5; 6; 7; 8])
    as (Hadc & _); [reflexivity ..|].
  rewrite Hadc. reflexivity.
Defined.

(** ** The serial link *)

Lemma port_writes :
  Forall (fun p =>
    Forall (fun c : bool =>
      is_byte (PORTB (set_data c (mkWire p []))) /\
      data_bit (PORTB (set_data c (mkWire p []))) = c /\
      Z.testbit (PORTB (set_data c (mkWire p []))) 0 = Z.testbit p 0 /\
      Z.land (PORTB (set_data c (mkWire p []))) 0xFC = Z.land p 0xFC) [true; false] /\
    is_byte (PORTB (toggle_clock (mkWire p []))) /\
    data_bit (PORTB (toggle_clock (mkWire p []))) = data_bit p /\
    Z.testbit (PORTB (toggle_clock (mkWire p []))) 0 = negb (Z.testbit p 0) /\
    Z.land (PORTB (toggle_clock (mkWire p []))) 0xFC = Z.land p 0xFC) (seqZ 0 256).
Proof. apply (bool_decide_unpack _). vm_compute. exact I. Qed.

Lemma set_data_spec c w :
  is_byte (PORTB w) ->
  clocked (set_data c w) = clocked w /\
  is_byte (PORTB (set_data c w)) /\
  data_bit (PORTB (set_data c w)) = c /\
  Z.testbit (PORTB (set_data c w)) 0 = Z.testbit (PORTB w) 0 /\
  Z.land (PORTB (set_data c w)) 0xFC = Z.land (PORTB w) 0xFC.
Proof.
  intros Hb. pose proof port_writes as H. rewrite Forall_forall in H.
  destruct (H (PORTB w) ltac:(apply elem_of_seqZ; exact Hb)) as [Hset _].
  rewrite Forall_forall in Hset.
  split; [reflexivity |]. apply (Hset c). destruct c; repeat constructor.
Qed.

Lemma toggle_clock_spec w :
  is_byte (PORTB w) ->
  clocked (toggle_clock w) = clocked w ++ [PORTB (toggle_clock w)] /\
  is_byte (PORTB (toggle_clock w)) /\
  data_bit (PORTB (toggle_clock w)) = data_bit (PORTB w) /\
  Z.testbit (PORTB (toggle_clock w)) 0 = negb (Z.testbit (PORTB w) 0) /\
  Z.land (PORTB (toggle_clock w)) 0xFC = Z.land (PORTB w) 0xFC.
Proof.
  intros Hb. pose proof port_writes as H. rewrite Forall_forall in H.
  destruct (H (PORTB w) ltac:(apply elem_of_seqZ; exact Hb)) as [_ Htog].
  split; [reflexivity |]. exact Htog.
Qed.

Lemma clean_record_app p clk new1 new2 :
  clean_record p clk new1 ->
  clean_record p (if Nat.even (length new1) then clk else negb clk) new2 ->
  clean_record p clk (new1 ++ new2).
Proof.
  revert clk. induction new1 as [| q new1 IH]; intros clk H1 H2; [exact H2 |].
  cbn [app clean_record] in *. destruct H1 as (Hq & Hc & H1).
  split; [exact Hq |]. split; [exact Hc |]. apply IH; [exact H1 |].
  cbn [length] in H2. rewrite Nat.even_succ in H2.
  rewrite <- Nat.negb_even in H2.
  destruct (Nat.even (length new1)); cbn [negb] in *;
    [exact H2 | rewrite negb_involutive; exact H2].
Qed.

Lemma clean_record_pins p p' clk new :
  Z.land p 0xFC = Z.land p' 0xFC -> clean_record p clk new -> clean_record p' clk new.
Proof.
  intros Hp. revert clk. induction new as [| q new IH]; intros clk H; [exact I |].
  cbn [clean_record] in *. destruct H as (Hq & Hc & H).
  split; [congruence |]. split; [exact Hc |]. apply IH. exact H.
Qed.

(** Clocking out a run of bits: the record grows by one entry per bit,
    the data line spelling the run. *)
Lemma send_run_spec bits w :
  is_byte (PORTB w) ->
  exists new,
    clocked (send_run bits w) = clocked w ++ new /\
    map data_bit new = bits /\
    clean_record (PORTB w) (Z.testbit (PORTB w) 0) new /\
    is_byte (PORTB (send_run bits w)) /\
    Z.land (PORTB (send_run bits w)) 0xFC = Z.land (PORTB w) 0xFC /\
    Z.testbit (PORTB (send_run bits w)) 0 =
      (if Nat.even (length bits) then Z.testbit (PORTB w) 0
       else negb (Z.testbit (PORTB w) 0)).
Proof.
  revert w. induction bits as [| c bits IH]; intros w Hb.
  - exists []. cbn [send_run fold_left]. rewrite app_nil_r.
    split; [reflexivity |]. split; [reflexivity |]. split; [exact I |].
    split; [exact Hb |]. split; reflexivity.
  - cbn [send_run fold_left]. fold (send_run bits (toggle_clock (set_data c w))).
    destruct (set_data_spec c w Hb) as (Hc1 & Hb1 & Hd1 & Hk1 & Ho1).
    destruct (toggle_clock_spec (set_data c w) Hb1) as (Hc2 & Hb2 & Hd2 & Hk2 & Ho2).
    destruct (IH (toggle_clock (set_data c w)) Hb2)
      as (new & Hrec & Hbits & Hclean & Hb3 & Ho3 & Hk3).
    exists (PORTB (toggle_clock (set_data c w)) :: new).
    split; [rewrite Hrec, Hc2, Hc1, <- app_assoc; reflexivity |].
    split; [cbn [map]; rewrite Hd2, Hd1, Hbits; reflexivity |].
    split.
    { cbn [clean_record]. split; [congruence |]. split; [congruence |].
      rewrite Hk2, Hk1 in Hclean.
      apply (clean_record_pins _ (PORTB w)) in Hclean; [exact Hclean | congruence]. }
    split; [exact Hb3 |]. split; [congruence |].
    rewrite Hk3, Hk2, Hk1. cbn [length]. rewrite Nat.even_succ, <- Nat.negb_even.
    destruct (Nat.even (length bits)); cbn [negb];
      [reflexivity | apply negb_involutive].
Qed.

Lemma elem_of_count_up n m d :
  m <= d < m + Z.of_nat n -> d ∈ count_up n m.
Proof.
  revert m. induction n as [| n IH]; intros m Hd; [lia |].
  cbn [count_up]. destruct (Z.eq_dec d m) as [-> | Hne]; [left |].
  right. apply IH. lia.
Qed.

Lemma tests16_spell_the_word :
  Forall (fun d => word_of_bits (tests16 d) = d) (count_up (Z.to_nat 65536) 0).
Proof. apply (bool_decide_unpack _). vm_compute. exact I. Qed.

Lemma tests8_are_tests16 :
  Forall (fun d => replicate 8 false ++ tests8 d = tests16 d) (seqZ 0 256).
Proof. apply (bool_decide_unpack _). vm_compute. exact I. Qed.

Lemma tests8_spell_the_byte :
  Forall (fun d => word_of_bits (replicate 8 false ++ tests8 d) = d) (seqZ 0 256).
Proof. apply (bool_decide_unpack _). vm_compute. exact I. Qed.

Lemma idle_clocks_spec n w :
  is_byte (PORTB w) ->
  exists new,
    clocked (Nat.iter n toggle_clock w) = clocked w ++ new /\
    map data_bit new = replicate n (data_bit (PORTB w)) /\
    clean_record (PORTB w) (Z.testbit (PORTB w) 0) new /\
    is_byte (PORTB (Nat.iter n toggle_clock w)) /\
    Z.land (PORTB (Nat.iter n toggle_clock w)) 0xFC = Z.land (PORTB w) 0xFC /\
    Z.testbit (PORTB (Nat.iter n toggle_clock w)) 0 =
      (if Nat.even n then Z.testbit (PORTB w) 0 else negb (Z.testbit (PORTB w) 0)).
Proof.
  intros Hb. induction n as [| n IH].
  - exists []. cbn [Nat.iter]. rewrite app_nil_r.
    split; [reflexivity |]. split; [reflexivity |]. split; [exact I |].
    split; [exact Hb |]. split; reflexivity.
  - destruct IH as (new & Hrec & Hbits & Hclean & Hbn & Hon & Hkn).
    rewrite Nat.iter_succ.
    destruct (toggle_clock_spec (Nat.iter n toggle_clock w) Hbn)
      as (Hc & Hb' & Hd & Hk & Ho).
    exists (new ++ [PORTB (toggle_clock (Nat.iter n toggle_clock w))]).
    split; [rewrite Hc, Hrec, <- app_assoc; reflexivity |].
    split.
    { rewrite map_app, Hbits. cbn [map]. rewrite Hd.
      assert (data_bit (PORTB (Nat.iter n toggle_clock w)) = data_bit (PORTB w)) as ->.
      { clear - Hb. induction n as [| n IHn]; [reflexivity |].
        rewrite Nat.iter_succ.
        assert (is_byte (PORTB (Nat.iter n toggle_clock w))) as Hbn.
        { clear IHn. induction n as [| n IHn]; [exact Hb |].
          rewrite Nat.iter_succ. apply toggle_clock_spec. exact IHn. }
        destruct (toggle_clock_spec _ Hbn) as (_ & _ & Hd & _). congruence. }
      rewrite <- replicate_S_end. reflexivity. }
    split.
    { apply clean_record_app; [exact Hclean |].
      cbn [clean_record]. split; [congruence |]. split; [| exact I].
      rewrite Hk, Hkn.
      assert (length new = n) as ->.
      { rewrite <- (length_map data_bit), Hbits. apply length_replicate. }
      destruct (Nat.even n); reflexivity. }
    split; [exact Hb' |]. split; [congruence |].
    rewrite Hk, Hkn, Nat.even_succ, <- Nat.negb_even.
    destruct (Nat.even n); cbn [negb]; [reflexivity | apply negb_involutive].
Qed.

Lemma Send16Bit_run data w :
  Send16Bit data w = send_run (tests16 (to_uint data)) w.
Proof. reflexivity. Qed.

Lemma SendPixel_run data w :
  SendPixel data w =
    send_run (tests8 (to_byte data)) (Nat.iter 8 toggle_clock (set_data false w)).
Proof. reflexivity. Qed.

Lemma Send16Bit_word_on_the_wire data w :
  is_byte (PORTB w) ->
  exists new,
    clocked (Send16Bit data w) = clocked w ++ new /\
    length new = 16%nat /\
    word_of_bits (map data_bit new) = to_uint data /\
    clean_record (PORTB w) (Z.testbit (PORTB w) 0) new /\
    is_byte (PORTB (Send16Bit data w)) /\
    Z.land (PORTB (Send16Bit data w)) 0xFC = Z.land (PORTB w) 0xFC /\
    Z.testbit (PORTB (Send16Bit data w)) 0 = Z.testbit (PORTB w) 0.
Proof.
  intros Hb. rewrite Send16Bit_run.
  destruct (send_run_spec (tests16 (to_uint data)) w Hb)
    as (new & Hrec & Hbits & Hclean & Hb' & Ho & Hk).
  exists new. split; [exact Hrec |].
  split; [rewrite <- (length_map data_bit), Hbits; reflexivity |].
  split.
  { rewrite Hbits. pose proof tests16_spell_the_word as H.
    rewrite Forall_forall in H. apply H. apply elem_of_count_up.
    unfold to_uint. pose proof (Z.mod_pos_bound data 65536 ltac:(lia)). lia. }
  split; [exact Hclean |]. split; [exact Hb' |]. split; [exact Ho |].
  exact Hk.
Qed.

(** X24: [Send16Bit] clocks out sixteen bits which, read at the clock edges from
    the data pin, most significant first, spell its argument.  The clock
    pin changes at every edge and is back where it started afterwards,
    and the six other pins of the port are never changed. *)
Theorem Send16Bit_spells_its_word data w :
  is_byte (PORTB w) ->
  exists new,
    clocked (Send16Bit data w) = clocked w ++ new /\
    length new = 16%nat /\
    word_of_bits (map data_bit new) = to_uint data /\
    clean_record (PORTB w) (Z.testbit (PORTB w) 0) new /\
    is_byte (PORTB (Send16Bit data w)) /\
    Z.land (PORTB (Send16Bit data w)) 0xFC = Z.land (PORTB w) 0xFC /\
    Z.testbit (PORTB (Send16Bit data w)) 0 = Z.testbit (PORTB w) 0.
Proof. apply Send16Bit_word_on_the_wire. Qed.

Lemma Send16Bit_spells_its_word_witness :
  word_of_bits (map data_bit (clocked (Send16Bit 0x0010 (mkWire 0x20 [])))) = 0x0010.
Proof.
  destruct (Send16Bit_spells_its_word 0x0010 (mkWire 0x20 []))
    as (new & Hrec & _ & Hword & _); [unfold is_byte; cbn; lia |].
  rewrite Hrec. exact Hword.
Defined.

Lemma SendPixel_byte_on_the_wire data w :
  is_byte (PORTB w) ->
  exists new,
    clocked (SendPixel data w) = clocked w ++ new /\
    length new = 16%nat /\
    word_of_bits (map data_bit new) = to_byte data /\
    map data_bit new = tests16 (to_byte data) /\
    clean_record (PORTB w) (Z.testbit (PORTB w) 0) new /\
    is_byte (PORTB (SendPixel data w)) /\
    Z.land (PORTB (SendPixel data w)) 0xFC = Z.land (PORTB w) 0xFC /\
    Z.testbit (PORTB (SendPixel data w)) 0 = Z.testbit (PORTB w) 0.
Proof.
  intros Hb. rewrite SendPixel_run.
  destruct (set_data_spec false w Hb) as (Hc0 & Hb0 & Hd0 & Hk0 & Ho0).
  destruct (idle_clocks_spec 8 (set_data false w) Hb0)
    as (new1 & Hrec1 & Hbits1 & Hclean1 & Hb1 & Ho1 & Hk1).
  destruct (send_run_spec (tests8 (to_byte data)) _ Hb1)
    as (new2 & Hrec2 & Hbits2 & Hclean2 & Hb2 & Ho2 & Hk2).
  assert (length new1 = 8%nat) as Hl1
    by (rewrite <- (length_map data_bit), Hbits1; reflexivity).
  assert (length new2 = 8%nat) as Hl2
    by (rewrite <- (length_map data_bit), Hbits2; reflexivity).
  assert (map data_bit (new1 ++ new2) = replicate 8 false ++ tests8 (to_byte data))
    as Hbits by (rewrite map_app, Hbits1, Hbits2, Hd0; reflexivity).
  assert (to_byte data ∈ seqZ 0 256) as Hin.
  { apply elem_of_seqZ. unfold to_byte.
    pose proof (Z.mod_pos_bound data 256 ltac:(lia)). lia. }
  exists (new1 ++ new2).
  split; [rewrite Hrec2, Hrec1, Hc0, <- app_assoc; reflexivity |].
  split; [rewrite length_app, Hl1, Hl2; reflexivity |].
  split.
  { rewrite Hbits. pose proof tests8_spell_the_byte as H.
    rewrite Forall_forall in H. apply H. exact Hin. }
  split.
  { rewrite Hbits. pose proof tests8_are_tests16 as H.
    rewrite Forall_forall in H. apply H. exact Hin. }
  split.
  { apply (clean_record_pins (PORTB (set_data false w))); [exact Ho0 |].
    rewrite <- Hk0. apply clean_record_app; [exact Hclean1 |].
    rewrite Hl1. cbn [Nat.even].
    apply (clean_record_pins _ _ _ _ Ho1).
    rewrite Hk1 in Hclean2. exact Hclean2. }
  split; [exact Hb2 |]. split; [congruence |].
  rewrite Hk2, Hk1, Hk0. reflexivity.
Qed.

(** X25: [SendPixel], with its eight idle clocks and eight tested bits, puts on
    the wire exactly the sixteen bits [Send16Bit] would send for the
    zero-extended byte; the clock pin alternates and ends where it
    started, and the other pins of the port are never changed. *)
Theorem SendPixel_spells_its_byte data w :
  is_byte (PORTB w) ->
  exists new,
    clocked (SendPixel data w) = clocked w ++ new /\
    length new = 16%nat /\
    word_of_bits (map data_bit new) = to_byte data /\
    map data_bit new = tests16 (to_byte data) /\
    clean_record (PORTB w) (Z.testbit (PORTB w) 0) new /\
    is_byte (PORTB (SendPixel data w)) /\
    Z.land (PORTB (SendPixel data w)) 0xFC = Z.land (PORTB w) 0xFC /\
    Z.testbit (PORTB (SendPixel data w)) 0 = Z.testbit (PORTB w) 0.
Proof. apply SendPixel_byte_on_the_wire. Qed.

Lemma SendPixel_spells_its_byte_witness :
  word_of_bits (map data_bit (clocked (SendPixel 0xA5 (mkWire 0x20 [])))) = 0xA5.
Proof.
  destruct (SendPixel_spells_its_byte 0xA5 (mkWire 0x20 []))
    as (new & Hrec & _ & Hword & _); [unfold is_byte; cbn; lia |].
  rewrite Hrec. exact Hword.
Defined.






(** ** The row the interrupt sends *)



(** ** The row select lines *)

Lemma all_row_selects_check :
  Forall (fun dark =>
    Forall (fun p => Forall (fun l => row_select_check dark p l = true) (seqZ 0 8))
           (seqZ 0 256)) [0; 1].
Proof. apply (bool_decide_unpack _). vm_compute. exact I. Qed.

Lemma ISR_lines_dark PORTD dark line :
  dark <> 0 -> ISR_lines PORTD dark line = ISR_lines PORTD 1 line.
Proof.
  intros Hd. unfold ISR_lines. destruct (Z.eqb_spec dark 0); [contradiction |].
  reflexivity.
Qed.

(** X27: The writes of the interrupt to the row select port end with the
    display enabled, the three select bits equal to the row just sent and
    the low four pins as they were; in every earlier write of the same
    interrupt the enable bit is clear, so the row changes while the
    display is blanked, whether or not [ARGB_dark] is set. *)
Theorem ISR_selects_the_row_while_blanked PORTD ARGB_dark line :
  is_byte PORTD -> 0 <= line < ARGB_MAX_Y ->
  exists v,
    last (ISR_lines PORTD ARGB_dark line) = Some v /\
    is_byte v /\
    Z.shiftr (Z.land v BIT_Lines) SHIFT_Lines = line /\
    Z.testbit v 7 = true /\
    Z.land v 0x0F = Z.land PORTD 0x0F /\
    Forall (fun w => Z.testbit w 7 = false)
           (removelast (ISR_lines PORTD ARGB_dark line)).
Proof.
  intros Hp Hl. unfold is_byte in Hp. change ARGB_MAX_Y with 8 in Hl.
  assert (exists d, (d = 0 \/ d = 1) /\
                    ISR_lines PORTD ARGB_dark line = ISR_lines PORTD d line)
    as (d & Hd & ->).
  { destruct (Z.eq_dec ARGB_dark 0) as [-> | Hne].
    - exists 0. split; [left |]; reflexivity.
    - exists 1. split; [right; reflexivity | apply ISR_lines_dark; exact Hne]. }
  assert (row_select_check d PORTD line = true) as Hc.
  { pose proof all_row_selects_check as Hall. rewrite Forall_forall in Hall.
    specialize (Hall d). rewrite Forall_forall in Hall.
    assert (d ∈ [0; 1]) as Hin by (destruct Hd as [-> | ->]; repeat constructor).
    specialize (Hall Hin PORTD ltac:(apply elem_of_seqZ; lia)).
    rewrite Forall_forall in Hall. apply Hall. apply elem_of_seqZ. lia. }
  unfold row_select_check in Hc. cbv zeta in Hc.
  apply andb_true_iff in Hc. destruct Hc as [Hlast Hblank].
  destruct (last (ISR_lines PORTD d line)) as [v |]; [| discriminate].
  exists v. split; [reflexivity |].
  repeat (apply andb_true_iff in Hlast; destruct Hlast as [Hlast ?]).
  split; [unfold is_byte; lia |].
  split; [lia |]. split; [assumption |]. split; [lia |].
  apply Forall_forall. intros w Hw.
  rewrite forallb_forall in Hblank. apply list_elem_of_In in Hw.
  specialize (Hblank w Hw). apply negb_true_iff in Hblank. exact Hblank.
Qed.

Lemma ISR_selects_the_row_while_blanked_witness :
  exists v,
    last (ISR_lines 0xA5 0 3) = Some v /\
    is_byte v /\
    Z.shiftr (Z.land v BIT_Lines) SHIFT_Lines = 3 /\
    Z.testbit v 7 = true /\
    Z.land v 0x0F = Z.land 0xA5 0x0F /\
    Forall (fun w => Z.testbit w 7 = false) (removelast (ISR_lines 0xA5 0 3)).
Proof.
  apply (ISR_selects_the_row_while_blanked 0xA5 0 3).
  - unfold is_byte. lia.
  - change ARGB_MAX_Y with 8. lia.
Defined.

(** ** Scrolling text *)

Lemma text_loop_in_range font cs text_px did_fade color :
  Forall call_in_range (fst (text_loop font cs text_px did_fade color)).
Proof.
  revert text_px did_fade. induction cs as [| c cs IH]; intros text_px did_fade;
    cbn [text_loop fst]; [constructor |].
  destruct (text_px <? ARGB_MAX_X); [| constructor]. cbv zeta.
  pose proof (char_columns_plots font [7; 6; 5; 4; 3; 2; 1; 0] 0
                (glyph_code (to_byte c)) text_px 0 color) as Hpix.
  change (char_columns font [7; 6; 5; 4; 3; 2; 1; 0] 0 (glyph_code (to_byte c)) text_px 0 color)
    with (DrawChar font c text_px 0 color) in Hpix.
  destruct (DrawChar font c text_px 0 color) as [pixels width]. cbn [fst] in Hpix.
  specialize (IH (text_px + (1 + width))
                 (if negb did_fade && (text_px >? - CHAR_TEST_WIDTH) then true else did_fade)).
  destruct (text_loop font cs (text_px + (1 + width)) _ color) as [rest text_px'].
  cbn [fst] in *. apply Forall_app. split.
  - destruct (negb did_fade && (text_px >? - CHAR_TEST_WIDTH)); repeat constructor.
  - apply Forall_app. split; [| exact IH].
    apply Forall_fmap. eapply Forall_impl; [exact Hpix |].
    intros p [Hx Hy]. cbn. split; [exact Hx |]. change ARGB_MAX_Y with 8. lia.
Qed.

Lemma perform_wf fb calls :
  wf_fb fb -> wf_fb (perform fb calls).
Proof.
  revert fb. induction calls as [| call calls IH]; intros fb Hwf; [exact Hwf |].
  cbn [perform fold_left]. apply IH.
  destruct call; [apply Fade_wf | apply SetPixel_wf]; exact Hwf.
Qed.

(** X28: Whatever the text, the colour and the scroll position, every pixel
    [TextDisplay::Update] asks [DrawChar] to write lies on the display
    (the text is always drawn at row 0, which [DrawChar] does not clip
    itself), performing its calls keeps the buffer well formed, and once
    the scroll position has been parked at 32767 an update does nothing. *)
Theorem TextDisplay_Update_stays_on_the_display font t fb :
  Forall call_in_range (snd (TextDisplay_Update font t)) /\
  (wf_fb fb -> wf_fb (perform fb (snd (TextDisplay_Update font t)))) /\
  (x_scroll t = 32767 -> TextDisplay_Update font t = (t, [])).
Proof.
  split; [| split].
  - unfold TextDisplay_Update. destruct (x_scroll t <? 32767); [| constructor].
    cbv zeta.
    destruct ((ARGB_MAX_X - x_scroll (TextDisplay_Tick t) >=? ARGB_MAX_X) &&
              (ARGB_MAX_X - x_scroll (TextDisplay_Tick t) <=? ARGB_MAX_X + 4)).
    + cbn [snd]. repeat constructor.
    + pose proof (text_loop_in_range font (out_text (TextDisplay_Tick t))
                    (ARGB_MAX_X - x_scroll (TextDisplay_Tick t)) false
                    (text_color (TextDisplay_Tick t))) as H.
      destruct (text_loop font _ _ false _) as [calls text_px]. exact H.
  - apply perform_wf.
  - intros Hstop. unfold TextDisplay_Update. rewrite Hstop. reflexivity.
Qed.

Lemma TextDisplay_Update_stays_on_the_display_witness :
  wf_fb (perform (replicate (Z.to_nat FB_BYTES) 9)
           (snd (TextDisplay_Update bar_font
                   (mkText [0x48; 0x49] 0xFFFFFFFF 1 1 6)))).
Proof.
  assert (wf_fb (replicate (Z.to_nat FB_BYTES) 9)) as Hwf
    by (apply wf_replicate; unfold is_byte; lia).
  destruct (TextDisplay_Update_stays_on_the_display bar_font
              (mkText [0x48; 0x49] 0xFFFFFFFF 1 1 6)
              (replicate (Z.to_nat FB_BYTES) 9)) as (_ & Hperf & _).
  exact (Hperf Hwf).
Defined.

(** X29: With a step time of [step_ticks] between 1 and 255 and the counter
    freshly loaded, the text stays put for [step_ticks - 1] ticks while
    the counter runs down, and the tick after that moves it one column
    and reloads the counter; the step time itself never changes. *)
Theorem TextDisplay_Tick_cadence t n :
  1 <= step_ticks t <= 255 -> step_count t = step_ticks t ->
  (Z.of_nat n < step_ticks t ->
     x_scroll (Nat.iter n TextDisplay_Tick t) = x_scroll t /\
     step_count (Nat.iter n TextDisplay_Tick t) = step_ticks t - Z.of_nat n) /\
  (Z.of_nat n = step_ticks t ->
     x_scroll (Nat.iter n TextDisplay_Tick t) = x_scroll t + 1 /\
     step_count (Nat.iter n TextDisplay_Tick t) = step_ticks t) /\
  step_ticks (Nat.iter n TextDisplay_Tick t) = step_ticks t.
Proof.
  intros Hticks Hcount.
  assert (forall k, step_ticks (Nat.iter k TextDisplay_Tick t) = step_ticks t) as Hst.
  { induction k as [| k IH]; [reflexivity |]. rewrite Nat.iter_succ.
    unfold TextDisplay_Tick at 1.
    destruct (to_byte _ =? 0); cbn [step_ticks]; exact IH. }
  assert (forall k, Z.of_nat k < step_ticks t ->
            x_scroll (Nat.iter k TextDisplay_Tick t) = x_scroll t /\
            step_count (Nat.iter k TextDisplay_Tick t) = step_ticks t - Z.of_nat k) as Hlow.
  { induction k as [| k IH]; intros Hk.
    - change (Nat.iter 0 TextDisplay_Tick t) with t. split; [reflexivity | lia].
    - destruct IH as [Hx Hc]; [lia |]. rewrite Nat.iter_succ.
      unfold TextDisplay_Tick at 1 3. rewrite Hc.
      assert (to_byte (step_ticks t - Z.of_nat k - 1) = step_ticks t - Z.of_nat k - 1)
        as -> by (apply to_byte_id; unfold is_byte; lia).
      destruct (Z.eqb_spec (step_ticks t - Z.of_nat k - 1) 0); [lia |].
      cbn [x_scroll step_count]. split; [exact Hx | lia]. }
  split; [apply Hlow |]. split; [| apply Hst].
  intros Hn. destruct n as [| n]; [lia |].
  destruct (Hlow n) as [Hx Hc]; [lia |]. rewrite Nat.iter_succ.
  unfold TextDisplay_Tick at 1 3. rewrite Hc.
  replace (step_ticks t - Z.of_nat n - 1) with 0 by lia.
  change (to_byte 0 =? 0) with true. cbv iota. cbn [x_scroll step_count].
  rewrite Hst, Hx. split; reflexivity.
Qed.

Lemma TextDisplay_Tick_cadence_witness :
  x_scroll (Nat.iter 5 TextDisplay_Tick (TextDisplay_Reset (mkText [] 0 0 0 0))) = -3.
Proof.
  destruct (TextDisplay_Tick_cadence (TextDisplay_Reset (mkText [] 0 0 0 0)) 5)
    as (_ & Hfull & _); [cbn; lia | reflexivity |].
  destruct Hfull as [Hx _]; [reflexivity |]. exact Hx.
Defined.
